(** * Road network store, time-bounded search and test-road overlay

    A shallow embedding of [v3/ROAD_NETWORK_CODE.js] (classes [RoadNode],
    [RoadEdge], [RoadNetwork], [PriorityQueue], [DijkstraSearch]) and of
    [AccessibilitySearcher.enhanceWithTestRoads] from
    [v3/TEST_ROAD_FEATURE.md], followed by the properties of the
    specification that concern them.

    JavaScript numbers are IEEE 754 binary64 values and are modelled by
    Rocq's primitive floats, so [NaN], the infinities and the two zeros
    behave as they do in the program.  A [Map] is an insertion-ordered
    association list, a [Set] an insertion-ordered list; node identifiers
    are strings. *)

From Stdlib Require Import Floats List String Ascii ZArith Bool Lia Permutation.
Import ListNotations.

Set Warnings "-inexact-float".

(* ================================================================= *)
(** ** JavaScript values, maps and sets *)

Module Js.

(** The scalar values a numeric or flag field can hold.  Strings, arrays
    and objects in such fields are outside the model. *)
Inductive value : Type :=
| VUndef
| VNull
| VBool (b : bool)
| VNum (f : float).

(** [ToNumber] *)
Definition to_number (v : value) : float :=
  match v with
  | VUndef => nan
  | VNull => 0%float
  | VBool true => 1%float
  | VBool false => 0%float
  | VNum f => f
  end.

(** [ToBoolean]: a number is falsy when it is [+0], [-0] or [NaN]. *)
Definition num_truthy (f : float) : bool := negb (is_zero f || is_nan f).

Definition truthy (v : value) : bool :=
  match v with
  | VUndef | VNull => false
  | VBool b => b
  | VNum f => num_truthy f
  end.

(** [a || b] and [a && b] return one of their operands. *)
Definition js_or (a b : value) : value := if truthy a then a else b.
Definition js_and (a b : value) : value := if truthy a then b else a.

(** Arithmetic and comparison of operands none of which is a string: both
    sides go through [ToNumber]; a comparison involving [NaN] is false. *)
Definition js_add (a b : value) : value := VNum (to_number a + to_number b).
Definition js_sub (a b : value) : value := VNum (to_number a - to_number b).
Definition js_mul (a b : value) : value := VNum (to_number a * to_number b).
Definition js_div (a b : value) : value := VNum (to_number a / to_number b).
Definition js_lt (a b : value) : bool := (to_number a <? to_number b)%float.
Definition js_gt (a b : value) : bool := (to_number b <? to_number a)%float.
Definition js_le (a b : value) : bool := (to_number a <=? to_number b)%float.

(** A call either returns a value or throws an error, known by its
    [name] ("TypeError", "SyntaxError", ...). *)
Inductive outcome (A : Type) : Type :=
| Return (a : A)
| Throw (name : string).
Arguments Return {A} a.
Arguments Throw {A} name.

(** [Math.max] of two numbers: [NaN] is contagious and [+0] is larger
    than [-0]. *)
Definition Math_max (a b : float) : float :=
  if is_nan a || is_nan b then nan
  else if (a <? b)%float then b
  else if (b <? a)%float then a
  else if get_sign a then b else a.

(** *** [Map] with string keys

    [set] keeps the position of a key that is already present and appends
    a new key; iteration follows the list. *)
Definition Map (V : Type) : Type := list (string * V).

Fixpoint map_get {V} (m : Map V) (k : string) : option V :=
  match m with
  | [] => None
  | (k', v) :: rest => if String.eqb k' k then Some v else map_get rest k
  end.

Definition map_has {V} (m : Map V) (k : string) : bool :=
  match map_get m k with Some _ => true | None => false end.

Fixpoint map_set {V} (m : Map V) (k : string) (v : V) : Map V :=
  match m with
  | [] => [(k, v)]
  | (k', v') :: rest =>
      if String.eqb k' k then (k, v) :: rest else (k', v') :: map_set rest k v
  end.

Definition map_delete {V} (m : Map V) (k : string) : Map V :=
  filter (fun kv => negb (String.eqb (fst kv) k)) m.

Definition map_values {V} (m : Map V) : list V := map snd m.
Definition map_keys {V} (m : Map V) : list string := map fst m.

(** Mutation of the object stored under [k]; the entry keeps its place. *)
Definition map_update {V} (m : Map V) (k : string) (f : V -> V) : Map V :=
  map (fun kv => if String.eqb (fst kv) k then (fst kv, f (snd kv)) else kv) m.

(** *** [Set] of strings *)
Definition StrSet : Type := list string.

Definition set_has (s : StrSet) (x : string) : bool := existsb (String.eqb x) s.

Definition set_add (s : StrSet) (x : string) : StrSet :=
  if set_has s x then s else s ++ [x].

Definition set_delete (s : StrSet) (x : string) : StrSet :=
  filter (fun y => negb (String.eqb y x)) s.

(** [new Set(array)] *)
Definition set_of_list (l : list string) : StrSet := fold_left set_add l [].

(** *** [parseInt] and [String.prototype.split]

    Strings are taken to be ASCII. *)
Definition is_space (c : ascii) : bool :=
  let n := nat_of_ascii c in
  (Nat.eqb n 9 || Nat.eqb n 10 || Nat.eqb n 11 || Nat.eqb n 12
   || Nat.eqb n 13 || Nat.eqb n 32)%bool.

Fixpoint skip_spaces (s : string) : string :=
  match s with
  | String c rest => if is_space c then skip_spaces rest else s
  | EmptyString => s
  end.

Definition digit_value (c : ascii) : option Z :=
  let n := Z.of_nat (nat_of_ascii c) in
  if ((48 <=? n) && (n <=? 57))%Z then Some (n - 48)%Z
  else if ((97 <=? n) && (n <=? 122))%Z then Some (n - 87)%Z
  else if ((65 <=? n) && (n <=? 90))%Z then Some (n - 55)%Z
  else None.

(** The longest prefix of digits of the radix, as an integer; [acc] is
    [None] until a digit has been read. *)
Fixpoint read_digits (radix : Z) (s : string) (acc : option Z) : option Z :=
  match s with
  | EmptyString => acc
  | String c rest =>
      match digit_value c with
      | Some d =>
          if (d <? radix)%Z
          then read_digits radix rest
                 (Some (radix * match acc with Some a => a | None => 0 end + d)%Z)
          else acc
      | None => acc
      end
  end.

(** The Number nearest to an integer (round to nearest, ties to even). *)
Definition number_of_Z (z : Z) : float :=
  SF2Prim (binary_normalize prec emax z 0 false).

(** [parseInt(s)] without a radix argument. *)
Definition parseInt (s : string) : float :=
  let s := skip_spaces s in
  let '(negative, s) :=
    match s with
    | String "-"%char rest => (true, rest)
    | String "+"%char rest => (false, rest)
    | _ => (false, s)
    end in
  let '(radix, s) :=
    match s with
    | String "0"%char (String "x"%char rest) => (16%Z, rest)
    | String "0"%char (String "X"%char rest) => (16%Z, rest)
    | _ => (10%Z, s)
    end in
  match read_digits radix s None with
  | None => nan
  | Some z => if negative then (- number_of_Z z)%float else number_of_Z z
  end.

(** The text after the first ["_"] of [s], if there is one. *)
Fixpoint after_underscore (s : string) : option string :=
  match s with
  | EmptyString => None
  | String c rest => if Ascii.eqb c "_"%char then Some rest else after_underscore rest
  end.

(** The text before the first ["_"] of [s] (all of [s] without one). *)
Fixpoint before_underscore (s : string) : string :=
  match s with
  | EmptyString => EmptyString
  | String c rest =>
      if Ascii.eqb c "_"%char then EmptyString else String c (before_underscore rest)
  end.

(** [s.split('_')[1]]; [None] stands for [undefined]. *)
Definition split_underscore_1 (s : string) : option string :=
  option_map before_underscore (after_underscore s).

(** [parseInt(s.split('_')[1])]; [parseInt(undefined)] reads the text
    "undefined", which has no digit. *)
Definition parse_id_suffix (s : string) : float :=
  match split_underscore_1 s with
  | Some t => parseInt t
  | None => nan
  end.

End Js.


(* ================================================================= *)
(** ** The network store: [RoadNode], [RoadEdge], [RoadNetwork] *)

Module RoadNet.
Import Js.
Local Open Scope string_scope.

(** [class RoadNode] *)
Record RoadNode : Type := mkRoadNode
  { id : string;
    lng : value;
    lat : value;
    connections : StrSet;
    isBoundary : value }.

Definition new_RoadNode (id : string) (lng lat : value) : RoadNode :=
  mkRoadNode id lng lat [] (VBool false).

(** [class RoadEdge] *)
Record RoadEdge : Type := mkRoadEdge
  { from : string;
    to : string;
    length : value;
    time : value }.

Definition WALK_SPEED_M_PER_MIN : float := 83.33%float.

Definition new_RoadEdge (from to : string) (length : value) : RoadEdge :=
  mkRoadEdge from to length
    (js_mul (js_div length (VNum WALK_SPEED_M_PER_MIN)) (VNum 60%float)).

(** [class RoadNetwork] *)
Record RoadNetwork : Type := mkRoadNetwork
  { nodes : Map RoadNode;
    edges : Map RoadEdge;
    adjList : Map StrSet;
    nextNodeId : float }.

Definition new_RoadNetwork : RoadNetwork := mkRoadNetwork [] [] [] 1%float.

Definition with_nodes (net : RoadNetwork) (m : Map RoadNode) : RoadNetwork :=
  mkRoadNetwork m (edges net) (adjList net) (nextNodeId net).
Definition with_edges (net : RoadNetwork) (m : Map RoadEdge) : RoadNetwork :=
  mkRoadNetwork (nodes net) m (adjList net) (nextNodeId net).
Definition with_adjList (net : RoadNetwork) (m : Map StrSet) : RoadNetwork :=
  mkRoadNetwork (nodes net) (edges net) m (nextNodeId net).
Definition with_nextNodeId (net : RoadNetwork) (n : float) : RoadNetwork :=
  mkRoadNetwork (nodes net) (edges net) (adjList net) n.

Definition with_connections (n : RoadNode) (s : StrSet) : RoadNode :=
  mkRoadNode (id n) (lng n) (lat n) s (isBoundary n).
Definition with_isBoundary (n : RoadNode) (b : value) : RoadNode :=
  mkRoadNode (id n) (lng n) (lat n) (connections n) b.

(** The key under which an edge is stored: [fromId + '-' + toId]. *)
Definition edgeKey (fromId toId : string) : string := fromId ++ "-" ++ toId.

(** *** Methods that may throw

    A method runs on the network it belongs to and either returns or
    throws; the network it leaves behind is part of the outcome in both
    cases, since a throw does not undo the assignments made before it. *)
Definition M (A : Type) : Type := RoadNetwork -> outcome A * RoadNetwork.

Definition ret {A} (a : A) : M A := fun net => (Return a, net).
Definition throw {A} (name : string) : M A := fun net => (Throw name, net).
Definition bind {A B} (m : M A) (k : A -> M B) : M B :=
  fun net =>
    match m net with
    | (Return a, net') => k a net'
    | (Throw name, net') => (Throw name, net')
    end.
Definition modify (f : RoadNetwork -> RoadNetwork) : M unit :=
  fun net => (Return tt, f net).

Declare Scope js_scope.
Delimit Scope js_scope with js.
Notation "x <- m ;; k" := (bind m (fun x => k))
  (at level 61, m at next level, right associativity) : js_scope.
Notation "m ;; k" := (bind m (fun _ => k))
  (at level 61, right associativity) : js_scope.
Local Open Scope js_scope.

(** [array.forEach(f)] *)
Fixpoint forEach {A} (l : list A) (f : A -> M unit) : M unit :=
  match l with
  | [] => ret tt
  | x :: rest => f x ;; forEach rest f
  end.

Section AddNode.

(** The text of a Number, as string concatenation produces it. *)
Variable Number_toString : float -> string.

(** [addNode(lng, lat)]: the identifier is ['n_' + this.nextNodeId++]. *)
Definition addNode (lng lat : value) : M RoadNode :=
  fun net =>
    let id := "n_" ++ Number_toString (nextNodeId net) in
    let net := with_nextNodeId net (nextNodeId net + 1)%float in
    let node := new_RoadNode id lng lat in
    let net := with_nodes net (map_set (nodes net) id node) in
    let net := with_adjList net (map_set (adjList net) id []) in
    (Return node, net).

End AddNode.

(** [this.nodes.get(k).connections.add(x)]: reading [connections] of
    [undefined] is a [TypeError]. *)
Definition node_connections_add (k x : string) : M unit :=
  fun net =>
    match map_get (nodes net) k with
    | Some _ =>
        (Return tt,
         with_nodes net
           (map_update (nodes net) k
              (fun n => with_connections n (set_add (connections n) x))))
    | None => (Throw "TypeError", net)
    end.

(** [this.adjList.get(k).add(x)] *)
Definition adjList_add (k x : string) : M unit :=
  fun net =>
    match map_get (adjList net) k with
    | Some _ =>
        (Return tt,
         with_adjList net (map_update (adjList net) k (fun s => set_add s x)))
    | None => (Throw "TypeError", net)
    end.

(** [addEdge(fromId, toId, length)] *)
Definition addEdge (fromId toId : string) (length : value) : M unit :=
  let edgeId := edgeKey fromId toId in
  let edge := new_RoadEdge fromId toId length in
  modify (fun net => with_edges net (map_set (edges net) edgeId edge)) ;;
  node_connections_add fromId toId ;;
  node_connections_add toId fromId ;;
  adjList_add fromId toId ;;
  adjList_add toId fromId.

(** [removeEdge(fromId, toId)]; it never throws. *)
Definition removeEdge (fromId toId : string) (net : RoadNetwork) : RoadNetwork :=
  let edgeId1 := edgeKey fromId toId in
  let edgeId2 := edgeKey toId fromId in
  let net := with_edges net (map_delete (edges net) edgeId1) in
  let net := with_edges net (map_delete (edges net) edgeId2) in
  let net :=
    if map_has (adjList net) fromId
    then with_adjList net
           (map_update (adjList net) fromId (fun s => set_delete s toId))
    else net in
  let net :=
    if map_has (adjList net) toId
    then with_adjList net
           (map_update (adjList net) toId (fun s => set_delete s fromId))
    else net in
  let net :=
    if map_has (nodes net) fromId
    then with_nodes net
           (map_update (nodes net) fromId
              (fun n => with_connections n (set_delete (connections n) toId)))
    else net in
  if map_has (nodes net) toId
  then with_nodes net
         (map_update (nodes net) toId
            (fun n => with_connections n (set_delete (connections n) fromId)))
  else net.

(** The connections of node [k] as they are now. *)
Definition connections_of (net : RoadNetwork) (k : string) : StrSet :=
  match map_get (nodes net) k with
  | Some n => connections n
  | None => []
  end.

(** [node.connections.forEach(neighborId => this.removeEdge(id, neighborId))].
    The set is the one [removeEdge] deletes from, so the iteration is
    live: [todo] is what was in the set, in order, when the loop started,
    and a member deleted before its turn is skipped.  Nothing is added to
    the set meanwhile. *)
Fixpoint removeNode_loop (id : string) (todo : list string) (net : RoadNetwork)
  : RoadNetwork :=
  match todo with
  | [] => net
  | neighborId :: rest =>
      removeNode_loop id rest
        (if set_has (connections_of net id) neighborId
         then removeEdge id neighborId net
         else net)
  end.

(** [removeNode(id)] *)
Definition removeNode (id : string) (net : RoadNetwork) : RoadNetwork :=
  match map_get (nodes net) id with
  | None => net
  | Some node =>
      let net := removeNode_loop id (connections node) net in
      let net := with_nodes net (map_delete (nodes net) id) in
      with_adjList net (map_delete (adjList net) id)
  end.

Definition getNode (net : RoadNetwork) (id : string) : option RoadNode :=
  map_get (nodes net) id.
Definition getAllNodes (net : RoadNetwork) : list RoadNode := map_values (nodes net).
Definition getAllEdges (net : RoadNetwork) : list RoadEdge := map_values (edges net).

(** *** Snapshots

    A snapshot is modelled after parsing: [JsonData] is the object that
    [JSON.parse] returns for the text, and a text that is not JSON is
    [Unparsable].  [JSON.stringify] followed by [JSON.parse] is taken to
    give back every finite number and every string unchanged. *)

(** The [connections] property of a node object in a snapshot. *)
Inductive JsonConnections : Type :=
| ConnAbsent                       (* no such property, or [null] *)
| ConnArray (ids : list string)    (* an array of identifiers *)
| ConnObject.                      (* an object that is not iterable *)

Record JsonNode : Type := mkJsonNode
  { j_id : string;
    j_lng : value;
    j_lat : value;
    j_connections : JsonConnections;
    j_isBoundary : value }.

(** [None] is a missing [nodes] or [edges] property.  An edge object of a
    snapshot has the shape of a [RoadEdge]. *)
Record JsonData : Type := mkJsonData
  { j_nodes : option (list JsonNode);
    j_edges : option (list RoadEdge) }.

Inductive JsonText : Type :=
| Unparsable
| Encodes (data : JsonData).

Definition JSON_parse (jsonStr : JsonText) : M JsonData :=
  match jsonStr with
  | Unparsable => throw "SyntaxError"
  | Encodes data => ret data
  end.

(** What a scalar property reads as after [JSON.stringify] and
    [JSON.parse]: an [undefined] property is left out, a number that is
    not finite is written [null], and [-0] is written [0]. *)
Definition json_value (v : value) : value :=
  match v with
  | VNum f =>
      if is_finite f then (if is_zero f then VNum 0%float else VNum f) else VNull
  | _ => v
  end.

(** A [RoadNode] as [JSON.stringify] writes it.  [connections] is a
    [Set]; a [Set] has no enumerable property of its own and is written
    as the empty object. *)
Definition json_of_node (n : RoadNode) : JsonNode :=
  mkJsonNode (id n) (json_value (lng n)) (json_value (lat n)) ConnObject
    (json_value (isBoundary n)).

Definition json_of_edge (e : RoadEdge) : RoadEdge :=
  mkRoadEdge (from e) (to e) (json_value (length e)) (json_value (time e)).

(** [exportToJSON()] *)
Definition exportToJSON (net : RoadNetwork) : JsonText :=
  Encodes
    (mkJsonData
       (Some (List.map json_of_node (map_values (nodes net))))
       (Some (List.map json_of_edge (map_values (edges net))))).

(** [new Set(node.connections || [])]: [undefined] and [null] are falsy
    and give the empty set; an array (always truthy) gives its elements;
    an object that is not iterable makes the constructor throw. *)
Definition new_Set (c : JsonConnections) : M StrSet :=
  match c with
  | ConnAbsent => ret []
  | ConnArray ids => ret (set_of_list ids)
  | ConnObject => throw "TypeError"
  end.

(** Reading [forEach] of a property that is not there. *)
Definition property {A} (p : option A) : M A :=
  match p with
  | Some a => ret a
  | None => throw "TypeError"
  end.

(** The body of [data.nodes.forEach(node => ...)] *)
Definition import_node (node : JsonNode) : M unit :=
  let newNode := new_RoadNode (j_id node) (j_lng node) (j_lat node) in
  let newNode := with_isBoundary newNode (js_or (j_isBoundary node) (VBool false)) in
  conns <- new_Set (j_connections node) ;;
  let newNode := with_connections newNode conns in
  modify (fun net => with_nodes net (map_set (nodes net) (j_id node) newNode)) ;;
  modify (fun net => with_adjList net (map_set (adjList net) (j_id node) [])) ;;
  modify (fun net =>
    with_nextNodeId net
      (Math_max (nextNodeId net) (parse_id_suffix (j_id node) + 1)%float)).

(** The body of [data.edges.forEach(edge => ...)] *)
Definition import_edge (edge : RoadEdge) : M unit :=
  modify (fun net =>
    with_edges net (map_set (edges net) (edgeKey (from edge) (to edge)) edge)) ;;
  adjList_add (from edge) (to edge) ;;
  adjList_add (to edge) (from edge).

(** [importFromJSON(jsonStr)]; the method returns [this], which is the
    network of the outcome. *)
Definition importFromJSON (jsonStr : JsonText) : M unit :=
  data <- JSON_parse jsonStr ;;
  modify (fun net => with_nodes net []) ;;
  modify (fun net => with_edges net []) ;;
  modify (fun net => with_adjList net []) ;;
  modify (fun net => with_nextNodeId net 1%float) ;;
  ns <- property (j_nodes data) ;;
  forEach ns import_node ;;
  es <- property (j_edges data) ;;
  forEach es import_edge.

End RoadNet.


(* ================================================================= *)
(** ** [PriorityQueue] *)

Module PQ.
Import Js.
Local Open Scope string_scope.

(** The object literal [{ node, priority }] that [enqueue] pushes. *)
Record QItem : Type := mkQItem
  { node : string;
    priority : value }.

(** Reading a scalar property of a queue entry by name.  The entries have
    the properties [node] and [priority] and no other; a property that an
    object does not have reads as [undefined]. *)
Definition item_scalar (name : string) (it : QItem) : value :=
  if String.eqb name "priority" then priority it else VUndef.

(** [this.items] *)
Definition PriorityQueue : Type := list QItem.

Definition new_PriorityQueue : PriorityQueue := [].

(** The comparator [(a, b) => a.priority - b.priority]. *)
Definition compare_priority (a b : QItem) : float :=
  to_number (js_sub (priority a) (priority b)).

(** [Array.prototype.sort] is stable: [x] goes before the first entry
    that the comparator puts after it. *)
Fixpoint insert_sorted (x : QItem) (l : list QItem) : list QItem :=
  match l with
  | [] => [x]
  | y :: rest =>
      if (0 <? compare_priority y x)%float
      then x :: y :: rest
      else y :: insert_sorted x rest
  end.

Definition sort (l : list QItem) : list QItem :=
  fold_left (fun acc x => insert_sorted x acc) l [].

(** [enqueue(node, priority)] *)
Definition enqueue (q : PriorityQueue) (node : string) (priority : value)
  : PriorityQueue :=
  sort (q ++ [mkQItem node priority]).

(** [dequeue()]: [items.shift()], [None] for [undefined]. *)
Definition dequeue (q : PriorityQueue) : option QItem * PriorityQueue :=
  match q with
  | [] => (None, [])
  | it :: rest => (Some it, rest)
  end.

Definition isEmpty (q : PriorityQueue) : bool :=
  Nat.eqb (List.length q) 0.

End PQ.

(* ================================================================= *)
(** ** [DijkstraSearch] *)

Module Dijkstra.
Import Js.
Local Open Scope string_scope.

(** The local variables of [search]. *)
Record SearchState : Type := mkSearchState
  { distances : Map value;
    previous : Map string;
    visited : StrSet;
    pq : PQ.PriorityQueue }.

(** [findEdge(fromId, toId)] *)
Definition findEdge (net : RoadNet.RoadNetwork) (fromId toId : string)
  : option RoadNet.RoadEdge :=
  match map_get (RoadNet.edges net) (RoadNet.edgeKey fromId toId) with
  | Some e => Some e
  | None => map_get (RoadNet.edges net) (RoadNet.edgeKey toId fromId)
  end.

(** [distances.get(k)] *)
Definition distance_of (d : Map value) (k : string) : value :=
  match map_get d k with Some v => v | None => VUndef end.

(** The body of [neighbors.forEach(neighborId => ...)] *)
Definition relax (net : RoadNet.RoadNetwork) (currentNodeId : string)
    (currentDist : value) (st : SearchState) (neighborId : string)
  : SearchState :=
  if set_has (visited st) neighborId then st
  else
    match findEdge net currentNodeId neighborId with
    | None => st
    | Some edge =>
        let newDist := js_add currentDist (RoadNet.time edge) in
        if js_lt newDist (distance_of (distances st) neighborId)
        then mkSearchState
               (map_set (distances st) neighborId newDist)
               (map_set (previous st) neighborId currentNodeId)
               (visited st)
               (PQ.enqueue (pq st) neighborId newDist)
        else st
    end.

(** One turn of the [while] loop, on the entry just dequeued.  The
    pattern [{ node: currentNodeId, dist: currentDist }] reads the
    properties [node] and [dist] of the entry. *)
Definition iteration (net : RoadNet.RoadNetwork) (maxTimeSeconds : value)
    (it : PQ.QItem) (st : SearchState) : SearchState :=
  let currentNodeId := PQ.node it in
  let currentDist := PQ.item_scalar "dist" it in
  if set_has (visited st) currentNodeId then st
  else
    let st := mkSearchState (distances st) (previous st)
                (set_add (visited st) currentNodeId) (pq st) in
    if js_gt currentDist maxTimeSeconds then st
    else
      let neighbors :=
        match map_get (RoadNet.adjList net) currentNodeId with
        | Some s => s
        | None => []
        end in
      fold_left (relax net currentNodeId currentDist) neighbors st.

(** [while (!pq.isEmpty()) { ... }], with a bound on the number of turns:
    [None] when the bound is reached before the queue is empty. *)
Fixpoint loop (fuel : nat) (net : RoadNet.RoadNetwork) (maxTimeSeconds : value)
    (st : SearchState) : option SearchState :=
  if PQ.isEmpty (pq st) then Some st
  else
    match fuel with
    | O => None
    | S fuel' =>
        match PQ.dequeue (pq st) with
        | (Some it, rest) =>
            loop fuel' net maxTimeSeconds
              (iteration net maxTimeSeconds it
                 (mkSearchState (distances st) (previous st) (visited st) rest))
        | (None, _) => Some st
        end
    end.

(** The state when the loop is entered. *)
Definition initial (net : RoadNet.RoadNetwork) (startNodeId : string)
  : SearchState :=
  let distances :=
    fold_left (fun d n => map_set d (RoadNet.id n) (VNum infinity))
      (RoadNet.getAllNodes net) [] in
  mkSearchState
    (map_set distances startNodeId (VNum 0%float))
    []
    []
    (PQ.enqueue PQ.new_PriorityQueue startNodeId (VNum 0%float)).

(** The state after a turn that visits [startNodeId] and improves no
    distance. *)
Definition final (net : RoadNet.RoadNetwork) (startNodeId : string) : SearchState :=
  mkSearchState (distances (initial net startNodeId)) [] [startNodeId] [].

(** An element of [reachableNodes]. *)
Record Reached : Type := mkReached
  { nodeId : string;
    node : option RoadNet.RoadNode;
    distance : value }.

Record SearchResult : Type := mkSearchResult
  { res_distances : Map value;
    res_previous : Map string;
    reachableNodes : list Reached }.

(** The test of the final [filter]: [dist <= maxTimeSeconds && dist]. *)
Definition keeps (maxTimeSeconds dist : value) : bool :=
  truthy (js_and (VBool (js_le dist maxTimeSeconds)) dist).

Definition result_of (net : RoadNet.RoadNetwork) (maxTimeSeconds : value)
    (st : SearchState) : SearchResult :=
  mkSearchResult (distances st) (previous st)
    (List.map
       (fun e => mkReached (fst e) (RoadNet.getNode net (fst e)) (snd e))
       (filter (fun e => keeps maxTimeSeconds (snd e)) (distances st))).

(** [search(startNodeId, maxTimeSeconds)] *)
Definition search (fuel : nat) (net : RoadNet.RoadNetwork)
    (startNodeId : string) (maxTimeSeconds : value) : option SearchResult :=
  option_map (result_of net maxTimeSeconds)
    (loop fuel net maxTimeSeconds (initial net startNodeId)).

(** [reconstructPath(previous, startNodeId, endNodeId)], bounded like the
    search loop.  An empty identifier is falsy and ends the walk like a
    missing predecessor. *)
Fixpoint reconstructPath_loop (fuel : nat) (previous : Map string)
    (startNodeId current : string) (path : list string) : option (list string) :=
  if String.eqb current startNodeId then Some path
  else
    match fuel with
    | O => None
    | S fuel' =>
        match map_get previous current with
        | Some next =>
            if String.eqb next "" then Some (current :: path)
            else reconstructPath_loop fuel' previous startNodeId next (current :: path)
        | None => Some (current :: path)
        end
    end.

Definition reconstructPath (fuel : nat) (previous : Map string)
    (startNodeId endNodeId : string) : option (list string) :=
  option_map (cons startNodeId)
    (reconstructPath_loop fuel previous startNodeId endNodeId []).

End Dijkstra.

(* ================================================================= *)
(** ** Polygon area and the test-road overlay *)

Module Overlay.
Import Js.
Local Open Scope string_scope.

(** A coordinate object [{lng, lat}].  A [Set] holds objects by identity,
    which [ref] stands for: two points are the same object exactly when
    their [ref]s are equal. *)
Record Point : Type := mkPoint
  { ref : nat;
    lng : float;
    lat : float }.

(** [class TestRoad] *)
Record TestRoad : Type := mkTestRoad
  { id : nat;
    startPoint : Point;
    endPoint : Point;
    length : value;
    walkTime : value;
    status : string }.

(** The result of the original search, as [enhanceWithTestRoads] reads it;
    [center] is [None] when the object has no such property. *)
Record OriginalResult : Type := mkOriginalResult
  { boundaryPoints : list Point;
    polygon : list Point;
    area : value;
    center : option Point }.

Record EnhancedResult : Type := mkEnhancedResult
  { e_boundaryPoints : list Point;
    e_polygon : list Point;
    e_area : float }.

(** A [Set] of point objects. *)
Definition PointSet : Type := list Point.

Definition pset_has (s : PointSet) (p : Point) : bool :=
  existsb (fun q => Nat.eqb (ref q) (ref p)) s.

Definition pset_add (s : PointSet) (p : Point) : PointSet :=
  if pset_has s p then s else (s ++ [p])%list.

Definition new_PointSet (l : list Point) : PointSet := fold_left pset_add l [].

(** [enhancedBoundaryPoints.push(p)]: a [Set] has no [push] method, and
    calling [undefined] is a [TypeError]. *)
Definition pset_push (s : PointSet) (p : Point) : outcome PointSet :=
  Throw "TypeError".

Definition MATH_PI : float := 3.141592653589793%float.

Section Helpers.

(** [Math.cos], and the two helpers that the document calls without
    defining them. *)
Variable Math_cos : float -> float.
Variable isPointInPolygon : Point -> list Point -> bool.
Variable createPolygonFromPoints : PointSet -> list Point.

(** One turn of the loop of [calculatePolygonArea]. *)
Definition shoelace_step (points : list Point) (n : nat) (area : float) (i : nat)
  : float :=
  let j := Nat.modulo (i + 1) n in
  let pi := nth i points (mkPoint 0 nan nan) in
  let pj := nth j points (mkPoint 0 nan nan) in
  let area := (area + lng pi * lat pj)%float in
  (area - lng pj * lat pi)%float.

(** [calculatePolygonArea(points)]: reading [points[0].lat] of an empty
    array is a [TypeError]. *)
Definition calculatePolygonArea (points : list Point) : outcome float :=
  let n := List.length points in
  let area := fold_left (shoelace_step points n) (seq 0 n) 0%float in
  let area := (abs area / 2)%float in
  match points with
  | [] => Throw "TypeError"
  | p0 :: _ =>
      let lat0 := lat p0 in
      let latInMeters := 111000%float in
      let lngInMeters := (111000 * Math_cos (lat0 * MATH_PI / 180))%float in
      Return (area * latInMeters * lngInMeters)%float
  end.

(** [isPointAccessible(point, originalResult)] *)
Definition isPointAccessible (point : Point) (originalResult : OriginalResult)
  : bool :=
  isPointInPolygon point (polygon originalResult).

(** The body of [testRoads.forEach(road => ...)] *)
Definition extend (originalResult : OriginalResult) (maxTimeMinutes : value)
    (enhanced : PointSet) (road : TestRoad) : outcome PointSet :=
  let startAccessible := isPointAccessible (startPoint road) originalResult in
  let endAccessible := isPointAccessible (endPoint road) originalResult in
  if startAccessible && negb endAccessible then
    if js_le (walkTime road) maxTimeMinutes
    then pset_push enhanced (endPoint road)
    else Return enhanced
  else if negb startAccessible && endAccessible then
    if js_le (walkTime road) maxTimeMinutes
    then pset_push enhanced (startPoint road)
    else Return enhanced
  else Return enhanced.

(** The roads for which the callback reaches one of its two [push] calls. *)
Definition reaches_push (originalResult : OriginalResult) (maxTimeMinutes : value)
    (road : TestRoad) : bool :=
  let startAccessible := isPointAccessible (startPoint road) originalResult in
  let endAccessible := isPointAccessible (endPoint road) originalResult in
  ((startAccessible && negb endAccessible) || (negb startAccessible && endAccessible))
  && js_le (walkTime road) maxTimeMinutes.

Fixpoint extend_all (originalResult : OriginalResult) (maxTimeMinutes : value)
    (enhanced : PointSet) (testRoads : list TestRoad) : outcome PointSet :=
  match testRoads with
  | [] => Return enhanced
  | road :: rest =>
      match extend originalResult maxTimeMinutes enhanced road with
      | Return enhanced' => extend_all originalResult maxTimeMinutes enhanced' rest
      | Throw name => Throw name
      end
  end.

(** [enhanceWithTestRoads(originalResult, testRoads, maxTimeMinutes)] *)
Definition enhanceWithTestRoads (originalResult : OriginalResult)
    (testRoads : list TestRoad) (maxTimeMinutes : value)
  : outcome EnhancedResult :=
  let enhancedBoundaryPoints := new_PointSet (boundaryPoints originalResult) in
  match center originalResult with
  | None => Throw "TypeError"
  | Some c =>
      let origin := (lng c, lat c) in
      match extend_all originalResult maxTimeMinutes enhancedBoundaryPoints
              testRoads with
      | Throw name => Throw name
      | Return enhancedBoundaryPoints =>
          let enhancedPolygon := createPolygonFromPoints enhancedBoundaryPoints in
          match calculatePolygonArea enhancedPolygon with
          | Throw name => Throw name
          | Return a =>
              Return (mkEnhancedResult enhancedBoundaryPoints enhancedPolygon a)
          end
      end
  end.

End Helpers.

End Overlay.

(* ================================================================= *)
(** ** The invariants of a network, as a decidable check *)

Module Invariant.
Import Js RoadNet.

(** Every connection is mutual: when [z] is in the connection set of
    node [y], node [z] exists and has [y] in its own. *)
Definition connections_symmetric (net : RoadNetwork) : bool :=
  forallb
    (fun kn =>
       forallb (fun z => set_has (connections_of net z) (fst kn))
         (connections (snd kn)))
    (nodes net).

(** Every neighbour in an adjacency set is a connection of the node. *)
Definition adjacency_connected (net : RoadNetwork) : bool :=
  forallb
    (fun ks => forallb (fun z => set_has (connections_of net (fst ks)) z) (snd ks))
    (adjList net).

(** Every edge is stored under the key of its endpoints, and its origin
    has its target as a connection. *)
Definition edges_connected (net : RoadNetwork) : bool :=
  forallb
    (fun ke =>
       String.eqb (fst ke) (edgeKey (from (snd ke)) (to (snd ke)))
       && set_has (connections_of net (from (snd ke))) (to (snd ke)))
    (edges net).

Definition consistent (net : RoadNetwork) : bool :=
  connections_symmetric net && adjacency_connected net && edges_connected net.

(** The same invariants as propositions. *)
Definition holds (net : RoadNetwork) : Prop :=
  (forall y n z, In (y, n) (nodes net) -> In z (connections n) ->
                 In y (connections_of net z))
  /\ (forall y s z, In (y, s) (adjList net) -> In z s ->
                    In z (connections_of net y))
  /\ (forall k e, In (k, e) (edges net) ->
                  k = edgeKey (from e) (to e)
                  /\ In (to e) (connections_of net (from e))).

(** [net'] holds nothing that [net] did not hold: its edges are edges of
    [net], its adjacency and connection sets are within those of [net]. *)
Definition shrinks (net' net : RoadNetwork) : Prop :=
  (forall k e, In (k, e) (edges net') -> In (k, e) (edges net))
  /\ (forall y s, In (y, s) (adjList net') ->
        exists s0, In (y, s0) (adjList net) /\ incl s s0)
  /\ (forall y n, In (y, n) (nodes net') ->
        exists n0, In (y, n0) (nodes net) /\ incl (connections n) (connections n0)).

(** Nothing links [x] and [z] any more: no edge under either key, and
    [x] is neither a neighbour nor a connection of [z]. *)
Definition unlinked (x z : string) (net : RoadNetwork) : Prop :=
  (forall e, ~ In (edgeKey x z, e) (edges net))
  /\ (forall e, ~ In (edgeKey z x, e) (edges net))
  /\ (forall s, In (z, s) (adjList net) -> ~ In x s)
  /\ (forall n, In (z, n) (nodes net) -> ~ In x (connections n)).

(** Nothing refers to [x]: it is in no adjacency set, at no end of a
    stored edge and in no connection set. *)
Definition unreferenced (x : string) (net : RoadNetwork) : Prop :=
  (forall y s, In (y, s) (adjList net) -> ~ In x s)
  /\ (forall k e, In (k, e) (edges net) -> from e <> x /\ to e <> x)
  /\ (forall y n, In (y, n) (nodes net) -> ~ In x (connections n)).

(** The identifiers of the node list of a snapshot. *)
Definition snapshot_ids (ns : list JsonNode) : list string := List.map j_id ns.


End Invariant.

(* ================================================================= *)
(** ** Concrete networks *)

Module Scenario.
Import Js RoadNet.
Local Open Scope string_scope.
Local Open Scope js_scope.

Definition plain_node (id : string) (lng : float) : JsonNode :=
  mkJsonNode id (VNum lng) (VNum 0%float) ConnAbsent VUndef.

(** Three nodes on a line, no edge yet. *)
Definition three_nodes : JsonText :=
  Encodes
    (mkJsonData
       (Some [plain_node "A" 0%float; plain_node "B" 0.001%float;
              plain_node "C" 0.002%float])
       (Some [])).

(** A - B - C with two edges of 100 m added through [addEdge]. *)
Definition line : RoadNetwork :=
  snd ((importFromJSON three_nodes ;;
        addEdge "A" "B" (VNum 100%float) ;;
        addEdge "B" "C" (VNum 100%float)) new_RoadNetwork).

(** The same line read from a snapshot whose edges cost 72 s each. *)
Definition line_snapshot : JsonText :=
  Encodes
    (mkJsonData
       (Some [mkJsonNode "A" (VNum 0%float) (VNum 0%float) (ConnArray ["B"]) VUndef;
              mkJsonNode "B" (VNum 0.001%float) (VNum 0%float)
                (ConnArray ["A"; "C"]) VUndef;
              mkJsonNode "C" (VNum 0.002%float) (VNum 0%float) (ConnArray ["B"]) VUndef])
       (Some [mkRoadEdge "A" "B" (VNum 100%float) (VNum 72%float);
              mkRoadEdge "B" "C" (VNum 100%float) (VNum 72%float)])).

Definition line72 : RoadNetwork :=
  snd (importFromJSON line_snapshot new_RoadNetwork).

(** A snapshot whose second edge names a node that is not in the list. *)
Definition dangling_snapshot : JsonText :=
  Encodes
    (mkJsonData
       (Some [plain_node "n_1" 0%float; plain_node "n_2" 0.001%float])
       (Some [mkRoadEdge "n_1" "n_2" (VNum 100%float) (VNum 72%float);
              mkRoadEdge "n_2" "n_9" (VNum 100%float) (VNum 72%float)])).

(** A snapshot with one edge whose nodes come without connection lists,
    and the network read from it. *)
Definition bare_snapshot : JsonText :=
  Encodes
    (mkJsonData
       (Some [plain_node "n_1" 0%float; plain_node "n_2" 0.001%float])
       (Some [mkRoadEdge "n_1" "n_2" (VNum 100%float) (VNum 72%float)])).

Definition bare : RoadNetwork :=
  snd (importFromJSON bare_snapshot new_RoadNetwork).

(** An original result whose boundary and polygon are the corners of the
    unit square, and a test road of 1.2 minutes from its centre to a point
    outside it. *)
Definition corners : list Overlay.Point :=
  [Overlay.mkPoint 1 0%float 0%float; Overlay.mkPoint 2 1%float 0%float;
   Overlay.mkPoint 3 1%float 1%float; Overlay.mkPoint 4 0%float 1%float].

Definition original : Overlay.OriginalResult :=
  Overlay.mkOriginalResult corners corners (VNum 1%float)
    (Some (Overlay.mkPoint 0 0.5%float 0.5%float)).

Definition road_out : Overlay.TestRoad :=
  Overlay.mkTestRoad 1 (Overlay.mkPoint 5 0.5%float 0.5%float)
    (Overlay.mkPoint 6 2%float 0.5%float) (VNum 100%float) (VNum 1.2%float)
    "active".

(** A stand-in for the point-in-polygon helper: inside the unit square. *)
Definition in_unit_square (p : Overlay.Point) (_ : list Overlay.Point) : bool :=
  ((0 <=? Overlay.lng p)%float && (Overlay.lng p <=? 1)%float
   && (0 <=? Overlay.lat p)%float && (Overlay.lat p <=? 1)%float)%bool.

End Scenario.

(* ================================================================= *)
(** ** [TestRoadManager] and [AccessibilitySearcher.search] *)

Module TestRoads.
Import Js Overlay.
Local Open Scope string_scope.

(** The manager is modelled in the states in which [nextId] and the
    identifiers of the roads are whole numbers that are not negative: the
    states that the constructor, [clearAll], [addTestRoad] and
    [removeTestRoad] produce.  The manager's [importFromJSON], which is not
    modelled, can leave other values there: it takes the identifiers from
    the text and sets the counter to [Math.max(...ids) + 1], which is
    [-Infinity] for an empty list, and [nextId++] does not move
    [-Infinity].  Among the whole numbers a Number counts exactly up to
    2^53, and adding 1 to 2^53 gives 2^53 again. *)
Definition MAX_EXACT : N := 9007199254740992%N.

(** The value of the counter after [this.nextId++]. *)
Definition increment (n : nat) : nat :=
  if (N.of_nat n <? MAX_EXACT)%N then S n else n.

(** [this.testRoads], a [Map] from identifier to road. *)
Definition RoadMap : Type := list (nat * TestRoad).

Fixpoint roads_get (m : RoadMap) (k : nat) : option TestRoad :=
  match m with
  | [] => None
  | (k', r) :: rest => if Nat.eqb k' k then Some r else roads_get rest k
  end.

Fixpoint roads_set (m : RoadMap) (k : nat) (r : TestRoad) : RoadMap :=
  match m with
  | [] => [(k, r)]
  | (k', r') :: rest =>
      if Nat.eqb k' k then (k, r) :: rest else (k', r') :: roads_set rest k r
  end.

Definition roads_delete (m : RoadMap) (k : nat) : RoadMap :=
  filter (fun kr => negb (Nat.eqb (fst kr) k)) m.

(** [class TestRoadManager] *)
Record TestRoadManager : Type := mkTestRoadManager
  { testRoads : RoadMap;
    nextId : nat }.

Definition new_TestRoadManager : TestRoadManager := mkTestRoadManager [] 1.

Section Manager.

(** [calculateDistance] works with [Math.sin], [Math.cos], [Math.atan2]
    and [Math.sqrt]; the distance it returns is taken as given. *)
Variable calculateDistance : Point -> Point -> float.

(** The constructor of [TestRoad]. *)
Definition new_TestRoad (id : nat) (startPoint endPoint : Point) : TestRoad :=
  let length := VNum (calculateDistance startPoint endPoint) in
  mkTestRoad id startPoint endPoint length (js_div length (VNum 83.3%float))
    "active".

(** [addTestRoad(startPoint, endPoint)]: the road made and the manager
    after the call. *)
Definition addTestRoad (startPoint endPoint : Point) (m : TestRoadManager)
  : TestRoad * TestRoadManager :=
  let id := nextId m in
  let road := new_TestRoad id startPoint endPoint in
  (road, mkTestRoadManager (roads_set (testRoads m) id road) (increment id)).

End Manager.

(** [removeTestRoad(id)] *)
Definition removeTestRoad (id : nat) (m : TestRoadManager) : TestRoadManager :=
  mkTestRoadManager (roads_delete (testRoads m) id) (nextId m).

(** [getActiveRoads()] *)
Definition getActiveRoads (m : TestRoadManager) : list TestRoad :=
  filter (fun road => String.eqb (status road) "active") (List.map snd (testRoads m)).

(** [clearAll()] *)
Definition clearAll (m : TestRoadManager) : TestRoadManager :=
  mkTestRoadManager [] 1.

(** What [AccessibilitySearcher.search] resolves to; [enhanced] is [None]
    for [null]. *)
Record SearchOutput : Type := mkSearchOutput
  { out_original : OriginalResult;
    out_enhanced : option EnhancedResult;
    out_testRoads : list TestRoad }.

Section Searcher.

Variable Math_cos : float -> float.
Variable isPointInPolygon : Point -> list Point -> bool.
Variable createPolygonFromPoints : PointSet -> list Point.

(** [search(lng, lat, timeMinutes, gridSize)], from the point where
    [searchOriginal], whose body the document leaves out, has given
    [originalResult].  A rejected promise is a throw. *)
Definition search (manager : TestRoadManager) (originalResult : OriginalResult)
    (timeMinutes : value) : outcome SearchOutput :=
  let testRoads := getActiveRoads manager in
  if Nat.ltb 0 (List.length testRoads) then
    match enhanceWithTestRoads Math_cos isPointInPolygon createPolygonFromPoints
            originalResult testRoads timeMinutes with
    | Return enhancedResult =>
        Return (mkSearchOutput originalResult (Some enhancedResult) testRoads)
    | Throw name => Throw name
    end
  else Return (mkSearchOutput originalResult None testRoads).

End Searcher.

(** The manager's records are what its own methods make them: each road is
    stored under its identifier, is active, and was numbered before the
    counter reached its present value; no identifier is stored twice. *)
Fixpoint distinct (l : list nat) : bool :=
  match l with
  | [] => true
  | x :: rest => negb (existsb (Nat.eqb x) rest) && distinct rest
  end.

Definition well_kept (m : TestRoadManager) : bool :=
  forallb
    (fun kr => Nat.eqb (fst kr) (id (snd kr))
               && String.eqb (status (snd kr)) "active"
               && Nat.ltb (fst kr) (nextId m))
    (testRoads m)
  && distinct (List.map fst (testRoads m)).

End TestRoads.

(* ================================================================= *)
(** ** The page functions for test roads *)

Module Page.
Import Js Overlay.
Local Open Scope string_scope.

(** [new AMap.Polyline({ path: [[s.lng, s.lat], [e.lng, e.lat]], ... })]:
    a line on the map, with the path it draws. *)
Record Polyline : Type := mkPolyline
  { path_start : float * float;
    path_end : float * float }.

Definition line_between (s e : Point) : Polyline :=
  mkPolyline (lng s, lat s) (lng e, lat e).

(** The variables of the page that the functions for test roads work on:
    the manager, the two points picked so far ([None] for [null]) and the
    array [testRoadLines].  What the functions write to the document and
    to the map is left out. *)
Record State : Type := mkState
  { testRoadManager : TestRoads.TestRoadManager;
    tempRoadStart : option Point;
    tempRoadEnd : option Point;
    testRoadLines : list Polyline }.

(** [resetTempRoad()] *)
Definition resetTempRoad (st : State) : State :=
  mkState (testRoadManager st) None None (testRoadLines st).

(** [handleAddRoadClick(lnglat)], with the point made from [lnglat]: the
    first click sets the start, the second the end, and a later one
    nothing. *)
Definition handleAddRoadClick (point : Point) (st : State) : State :=
  match tempRoadStart st with
  | None =>
      mkState (testRoadManager st) (Some point) (tempRoadEnd st)
        (testRoadLines st)
  | Some _ =>
      match tempRoadEnd st with
      | None =>
          mkState (testRoadManager st) (tempRoadStart st) (Some point)
            (testRoadLines st)
      | Some _ => st
      end
  end.

(** [testRoadLines.splice(index, 1)] *)
Definition splice_one {A} (index : nat) (l : list A) : list A :=
  (firstn index l ++ skipn (S index) l)%list.

Section WithDistance.

Variable calculateDistance : Point -> Point -> float.

(** [addTestRoad()] of the page *)
Definition addTestRoad (st : State) : State :=
  match tempRoadStart st, tempRoadEnd st with
  | Some s, Some e =>
      let m := snd (TestRoads.addTestRoad calculateDistance s e
                      (testRoadManager st)) in
      let roadLine := line_between s e in
      resetTempRoad
        (mkState m (Some s) (Some e) (testRoadLines st ++ [roadLine])%list)
  | _, _ => st
  end.

End WithDistance.

(** [removeTestRoad(id)] of the page.  The index is [id - 1]; for the
    identifier 0 that is -1, where an array has nothing. *)
Definition removeTestRoad (id : nat) (st : State) : State :=
  let m := TestRoads.removeTestRoad id (testRoadManager st) in
  let lines :=
    match id with
    | O => testRoadLines st
    | S index =>
        match nth_error (testRoadLines st) index with
        | Some _ => splice_one index (testRoadLines st)
        | None => testRoadLines st
        end
    end in
  mkState m (tempRoadStart st) (tempRoadEnd st) lines.

Definition new_State : State :=
  mkState TestRoads.new_TestRoadManager None None [].

End Page.

(* ================================================================= *)
(** ** Further checks and concrete values *)

Module Checks.
Import Js RoadNet.
Local Open Scope string_scope.

(** [adjList.get(a)], empty when there is none. *)
Definition neighbours (net : RoadNetwork) (a : string) : StrSet :=
  match map_get (adjList net) a with
  | Some s => s
  | None => []
  end.

(** The adjacency map is the node map with each node replaced by its
    connection set: the two maps have the same identifiers in the same
    order, and the adjacency set of each is its connection set. *)
Definition mirrored (net : RoadNetwork) : Prop :=
  adjList net
  = List.map (fun kn => (fst kn, connections (snd kn))) (nodes net).

(** A node object of a snapshot that brings no connection: the property
    is missing, or an empty array. *)
Definition bare_node (n : JsonNode) : bool :=
  match j_connections n with
  | ConnAbsent => true
  | ConnArray [] => true
  | ConnArray (_ :: _) => false
  | ConnObject => false
  end.

(** Nothing links [a] and [b]: no edge under either key, neither is in an
    adjacency set or a connection set of the other. *)
Definition apart (a b : string) (net : RoadNetwork) : bool :=
  negb (map_has (edges net) (edgeKey a b))
  && negb (map_has (edges net) (edgeKey b a))
  && forallb
       (fun ks => negb (String.eqb (fst ks) a && set_has (snd ks) b)
                  && negb (String.eqb (fst ks) b && set_has (snd ks) a))
       (adjList net)
  && forallb
       (fun kn => negb (String.eqb (fst kn) a && set_has (connections (snd kn)) b)
                  && negb (String.eqb (fst kn) b && set_has (connections (snd kn)) a))
       (nodes net).

(** Two node records that differ at most in their connections. *)
Definition same_data (n' n : RoadNode) : Prop :=
  id n' = id n /\ lng n' = lng n /\ lat n' = lat n
  /\ isBoundary n' = isBoundary n.

(** The edges of a snapshot that join [a] and [b], in either direction. *)
Definition joins (a b : string) (e : RoadEdge) : bool :=
  (String.eqb (from e) a && String.eqb (to e) b)
  || (String.eqb (from e) b && String.eqb (to e) a).

(** Every identifier of [chain] differs from [startNodeId] and has a
    predecessor that is not empty and is in [chain] again. *)
Definition trapped (previous : Map string) (startNodeId : string)
    (chain : list string) : bool :=
  forallb
    (fun x =>
       negb (String.eqb x startNodeId)
       && match map_get previous x with
          | Some y => negb (String.eqb y "") && set_has chain y
          | None => false
          end)
    chain.

(** A stand-in for the text of a Number, good for the first identifiers. *)
Definition digit_text (f : float) : string :=
  if (f =? 1)%float then "1" else if (f =? 2)%float then "2" else "x".

(** A manager with two roads, and one with a single road that leads out
    of the unit square. *)
Definition flat_distance (p q : Overlay.Point) : float :=
  abs (Overlay.lng q - Overlay.lng p)%float.

Definition original_without_center : Overlay.OriginalResult :=
  Overlay.mkOriginalResult Scenario.corners Scenario.corners (VNum 1%float) None.

Definition two_roads : TestRoads.TestRoadManager :=
  snd (TestRoads.addTestRoad flat_distance
         (Overlay.mkPoint 7 0.25%float 0.25%float)
         (Overlay.mkPoint 8 0.75%float 0.75%float)
         (snd (TestRoads.addTestRoad flat_distance
                 (Overlay.mkPoint 5 0.5%float 0.5%float)
                 (Overlay.mkPoint 6 0.5%float 0.75%float)
                 TestRoads.new_TestRoadManager))).

(** Each identifier of [p] is the predecessor of the one after it. *)
Fixpoint follows (previous : Map string) (p : list string) : Prop :=
  match p with
  | x :: (y :: _) as rest => map_get previous y = Some x /\ follows previous rest
  | _ => True
  end.

(** The page after three roads were picked and added. *)
Definition pick_and_add (s e : Overlay.Point) (st : Page.State) : Page.State :=
  Page.addTestRoad flat_distance
    (Page.handleAddRoadClick e (Page.handleAddRoadClick s st)).

Definition three_lines : Page.State :=
  pick_and_add (Overlay.mkPoint 15 0.5%float 0.5%float)
    (Overlay.mkPoint 16 2%float 0.5%float)
    (pick_and_add (Overlay.mkPoint 13 0.25%float 0.25%float)
       (Overlay.mkPoint 14 0.75%float 0.75%float)
       (pick_and_add (Overlay.mkPoint 11 0.5%float 0.5%float)
          (Overlay.mkPoint 12 0.5%float 0.75%float)
          Page.new_State)).

(** A predecessor map that runs in a circle. *)
Definition circle : Map string := [("a", "b"); ("b", "a")].

End Checks.

(* ================================================================= *)
(** ** Facts about maps and sets *)

Module MapFacts.
Import Js.

Lemma set_has_In (s : StrSet) (x : string) : set_has s x = true <-> In x s.
Proof.
  unfold set_has. rewrite existsb_exists. split.
  - intros [y [Hy Heq]]. apply String.eqb_eq in Heq. now subst.
  - intros H. exists x. split; [assumption | apply String.eqb_refl].
Qed.

Lemma set_delete_In (s : StrSet) (x y : string) :
  In y (set_delete s x) <-> In y s /\ y <> x.
Proof.
  unfold set_delete. rewrite filter_In, negb_true_iff, String.eqb_neq. tauto.
Qed.

Lemma map_get_In {V} (m : Map V) (k : string) (v : V) :
  map_get m k = Some v -> In (k, v) m.
Proof.
  induction m as [|[k' v'] rest IH]; simpl; [discriminate|].
  destruct (String.eqb k' k) eqn:E.
  - apply String.eqb_eq in E. intros [= ->]. left. now subst.
  - intros H. right. now apply IH.
Qed.

Lemma map_get_set_same {V} (m : Map V) (k : string) (v : V) :
  map_get (map_set m k v) k = Some v.
Proof.
  induction m as [|[k' v'] rest IH]; simpl.
  - now rewrite String.eqb_refl.
  - destruct (String.eqb k' k) eqn:E; simpl.
    + now rewrite String.eqb_refl.
    + now rewrite E.
Qed.

Lemma map_get_set_other {V} (m : Map V) (k k' : string) (v : V) :
  k' <> k -> map_get (map_set m k v) k' = map_get m k'.
Proof.
  intros Hne. induction m as [|[k1 v1] rest IH]; simpl.
  - apply String.eqb_neq in Hne. rewrite String.eqb_sym in Hne. now rewrite Hne.
  - destruct (String.eqb k1 k) eqn:E; simpl.
    + apply String.eqb_eq in E. subst k1.
      assert (String.eqb k k' = false) as -> by (apply String.eqb_neq; congruence).
      reflexivity.
    + destruct (String.eqb k1 k'); [reflexivity | exact IH].
Qed.

Lemma map_set_keys_same {V} (m : Map V) (k : string) (v v' : V) :
  map_get m k = Some v' -> map_keys (map_set m k v) = map_keys m.
Proof.
  induction m as [|[k1 v1] rest IH]; simpl; [discriminate|].
  destruct (String.eqb k1 k) eqn:E; simpl.
  - apply String.eqb_eq in E. now subst.
  - intros H. f_equal. now apply IH.
Qed.

Lemma map_set_In_keys {V} (m : Map V) (k k' : string) (v : V) :
  In k' (map_keys (map_set m k v)) -> k' = k \/ In k' (map_keys m).
Proof.
  induction m as [|[k1 v1] rest IH]; simpl.
  - intros [H | []]. now left.
  - destruct (String.eqb k1 k) eqn:E; simpl.
    + apply String.eqb_eq in E. subst. tauto.
    + intros [H | H]; [tauto|]. destruct (IH H); tauto.
Qed.

Lemma map_set_NoDup {V} (m : Map V) (k : string) (v : V) :
  NoDup (map_keys m) -> NoDup (map_keys (map_set m k v)).
Proof.
  induction m as [|[k1 v1] rest IH]; simpl; intros Hnd.
  - constructor; [tauto | constructor].
  - inversion Hnd as [|? ? Hnotin Hrest]; subst.
    destruct (String.eqb k1 k) eqn:E; simpl.
    + apply String.eqb_eq in E. subst. now constructor.
    + constructor; [|now apply IH].
      intros Hin. apply map_set_In_keys in Hin as [-> | Hin]; [|tauto].
      rewrite String.eqb_refl in E. discriminate.
Qed.

(** With one entry per key, the entry written by [set] is the only one
    under its key. *)
Lemma map_set_In_same {V} (m : Map V) (k : string) (v v' : V) :
  NoDup (map_keys m) -> In (k, v') (map_set m k v) -> v' = v.
Proof.
  induction m as [|[k1 v1] rest IH]; simpl; intros Hnd Hin.
  - destruct Hin as [[= <-] | []]. reflexivity.
  - inversion Hnd as [|? ? Hnotin Hrest]; subst.
    destruct (String.eqb k1 k) eqn:E.
    + apply String.eqb_eq in E. subst k1.
      destruct Hin as [[= <-] | Hin]; [reflexivity|].
      exfalso. apply Hnotin. unfold map_keys.
      change k with (fst (k, v')). now apply in_map.
    + destruct Hin as [[= -> _] | Hin]; [|now apply IH].
      rewrite String.eqb_refl in E. discriminate.
Qed.

Lemma map_set_In {V} (m : Map V) (k k' : string) (v v' : V) :
  In (k', v') (map_set m k v) -> (k' = k /\ v' = v) \/ In (k', v') m.
Proof.
  induction m as [|[k1 v1] rest IH]; simpl.
  - intros [[= <- <-] | []]. now left.
  - destruct (String.eqb k1 k) eqn:E; simpl.
    + intros [[= <- <-] | H]; [now left | right; now right].
    + intros [H | H]; [right; now left|]. destruct (IH H); [now left | right; now right].
Qed.

Lemma map_delete_In {V} (m : Map V) (k k' : string) (v : V) :
  In (k', v) (map_delete m k) <-> In (k', v) m /\ k' <> k.
Proof.
  unfold map_delete. rewrite filter_In, negb_true_iff, String.eqb_neq. simpl. tauto.
Qed.

Lemma map_get_delete_same {V} (m : Map V) (k : string) :
  map_get (map_delete m k) k = None.
Proof.
  induction m as [|[k1 v1] rest IH]; simpl; [reflexivity|].
  destruct (String.eqb k1 k) eqn:E; simpl; [exact IH|]. now rewrite E.
Qed.

Lemma map_update_In {V} (m : Map V) (k k' : string) (f : V -> V) (v' : V) :
  In (k', v') (map_update m k f) <->
  exists v, In (k', v) m /\ v' = if String.eqb k' k then f v else v.
Proof.
  unfold map_update. rewrite in_map_iff. split.
  - intros [[k1 v1] [Heq Hin]]. simpl in Heq.
    destruct (String.eqb k1 k) eqn:E; injection Heq as <- <-;
      exists v1; rewrite E; tauto.
  - intros [v [Hin ->]]. exists (k', v). simpl.
    destruct (String.eqb k' k); tauto.
Qed.

Lemma map_get_update {V} (m : Map V) (k k' : string) (f : V -> V) :
  map_get (map_update m k f) k' =
  option_map (fun v => if String.eqb k' k then f v else v) (map_get m k').
Proof.
  induction m as [|[k1 v1] rest IH]; simpl; [reflexivity|].
  destruct (String.eqb k1 k) eqn:E; simpl.
  - destruct (String.eqb k1 k') eqn:E'; simpl; [|exact IH].
    apply String.eqb_eq in E'. subst k1. now rewrite E.
  - destruct (String.eqb k1 k') eqn:E'; simpl; [|exact IH].
    apply String.eqb_eq in E'. subst k1. now rewrite E.
Qed.

End MapFacts.

(* ================================================================= *)
(** ** The search loop *)

Module SearchFacts.
Import Js Dijkstra MapFacts.
Local Open Scope string_scope.

(** [NaN] plus anything is below nothing. *)
Lemma nan_plus_not_below (x y : float) : ((nan + x) <? y)%float = false.
Proof.
  rewrite ltb_spec, add_spec. reflexivity.
Qed.

(** The entries of the queue have no [dist] property. *)
Lemma dist_of_entry (it : PQ.QItem) : PQ.item_scalar "dist" it = VUndef.
Proof. reflexivity. Qed.

(** With an [undefined] current distance no neighbour is ever improved. *)
Lemma relax_undefined net current st neighborId :
  relax net current VUndef st neighborId = st.
Proof.
  unfold relax.
  destruct (set_has (visited st) neighborId); [reflexivity|].
  destruct (findEdge net current neighborId); [|reflexivity].
  unfold js_lt, js_add. simpl to_number.
  now rewrite nan_plus_not_below.
Qed.

Lemma relax_all_undefined net current neighbors st :
  fold_left (relax net current VUndef) neighbors st = st.
Proof.
  induction neighbors as [|n rest IH]; simpl; [reflexivity|].
  now rewrite relax_undefined.
Qed.

(** A turn of the loop only marks the dequeued node as visited. *)
Lemma iteration_marks net maxTimeSeconds it st :
  iteration net maxTimeSeconds it st =
  if set_has (visited st) (PQ.node it) then st
  else mkSearchState (distances st) (previous st)
         (set_add (visited st) (PQ.node it)) (pq st).
Proof.
  unfold iteration. rewrite dist_of_entry.
  destruct (set_has (visited st) (PQ.node it)); [reflexivity|].
  destruct (js_gt VUndef maxTimeSeconds); [reflexivity|].
  apply relax_all_undefined.
Qed.

(** A turn adds nothing to the queue and visits no node twice. *)
Lemma iteration_queue net maxTimeSeconds it st :
  pq (iteration net maxTimeSeconds it st) = pq st.
Proof.
  rewrite iteration_marks. now destruct (set_has (visited st) (PQ.node it)).
Qed.

Lemma iteration_visits_once net maxTimeSeconds it st :
  NoDup (visited st) -> NoDup (visited (iteration net maxTimeSeconds it st)).
Proof.
  intros Hnd. rewrite iteration_marks.
  destruct (set_has (visited st) (PQ.node it)) eqn:E; [exact Hnd|]. simpl.
  unfold set_add. rewrite E.
  assert (Hnot : ~ In (PQ.node it) (visited st)).
  { intros Hin. apply set_has_In in Hin. congruence. }
  clear E. induction (visited st) as [|v rest IH]; simpl.
  - constructor; [tauto | constructor].
  - inversion Hnd as [|? ? Hv Hrest]; subst. constructor.
    + rewrite in_app_iff. simpl. intros [H | [H | []]]; [tauto|].
      apply Hnot. now left.
    + apply IH; [exact Hrest|]. intros H. apply Hnot. now right.
Qed.

(** From any state the loop ends within as many turns as the queue has
    entries. *)
Lemma loop_terminates_from net maxTimeSeconds fuel :
  forall st,
    List.length (pq st) <= fuel ->
    exists st', loop fuel net maxTimeSeconds st = Some st'
                /\ PQ.isEmpty (pq st') = true.
Proof.
  induction fuel as [|fuel IH]; intros st Hlen.
  - destruct st as [d p v [|it rest]]; simpl in *; [|lia]. eauto.
  - destruct st as [d p v [|it rest]]; simpl in *; [eauto|].
    apply IH. rewrite iteration_queue. simpl. lia.
Qed.

(** One turn empties the queue, whatever the network. *)
Lemma loop_one_turn fuel net maxTimeSeconds startNodeId :
  loop (S fuel) net maxTimeSeconds (initial net startNodeId)
  = Some (final net startNodeId).
Proof.
  unfold initial at 1. cbn [loop pq PQ.enqueue PQ.new_PriorityQueue app PQ.sort
    fold_left PQ.insert_sorted PQ.isEmpty List.length Nat.eqb PQ.dequeue].
  rewrite iteration_marks. cbn [visited set_has existsb set_add app distances previous pq].
  destruct fuel; reflexivity.
Qed.

Lemma search_one_turn fuel net startNodeId maxTimeSeconds :
  search (S fuel) net startNodeId maxTimeSeconds
  = Some (result_of net maxTimeSeconds (final net startNodeId)).
Proof.
  unfold search. now rewrite loop_one_turn.
Qed.

(** The distance map of the initial state has one entry per key. *)
Lemma fold_set_NoDup {A} (f : A -> string) (v : value) (l : list A) (d : Map value) :
  NoDup (map_keys d) ->
  NoDup (map_keys (fold_left (fun d n => map_set d (f n) v) l d)).
Proof.
  revert d. induction l as [|x rest IH]; simpl; intros d Hd; [assumption|].
  apply IH. now apply map_set_NoDup.
Qed.

Lemma initial_distance_start net startNodeId v :
  In (startNodeId, v) (distances (initial net startNodeId)) -> v = VNum 0%float.
Proof.
  unfold initial. simpl. apply map_set_In_same, fold_set_NoDup. constructor.
Qed.

(** The final filter rejects a distance of zero. *)
Lemma keeps_zero maxTimeSeconds : keeps maxTimeSeconds (VNum 0%float) = false.
Proof.
  unfold keeps, js_and. simpl truthy.
  destruct (js_le (VNum 0%float) maxTimeSeconds); reflexivity.
Qed.

(** Before the loop every distance is [Infinity], except the [0] of the
    start node. *)
Lemma fold_set_values {A} (f : A -> string) (v0 : value) (l : list A) :
  forall d : Map value,
    (forall k v, In (k, v) d -> v = v0) ->
    forall k v,
      In (k, v) (fold_left (fun d n => map_set d (f n) v0) l d) -> v = v0.
Proof.
  induction l as [|x rest IH]; simpl; intros d Hd k v Hin; [eauto|].
  apply (IH (map_set d (f x) v0)) with (k := k); [|exact Hin].
  intros k' v' H. apply map_set_In in H as [[_ ->] | H]; eauto.
Qed.

Lemma initial_distance_values net startNodeId k v :
  In (k, v) (distances (initial net startNodeId)) ->
  v = VNum infinity \/ v = VNum 0%float.
Proof.
  unfold initial. simpl. intros H.
  apply map_set_In in H as [[_ ->] | H]; [now right|]. left.
  apply fold_set_values with (k := k) in H; [exact H|]. intros k' v' [].
Qed.

Lemma filter_none {A} (p : A -> bool) (l : list A) :
  (forall x, In x l -> p x = false) -> filter p l = [].
Proof.
  induction l as [|x rest IH]; simpl; intros H; [reflexivity|].
  rewrite (H x) by now left. apply IH. intros y Hy. apply H. now right.
Qed.

(** With a budget below [Infinity] the search reports no node at all: the
    start node is lost to the filter and every other node is still at
    [Infinity]. *)
Lemma search_reaches_nothing fuel net startNodeId maxTimeSeconds :
  js_le (VNum infinity) maxTimeSeconds = false ->
  search (S fuel) net startNodeId maxTimeSeconds
  = Some (mkSearchResult (distances (initial net startNodeId)) [] []).
Proof.
  intros Hfin. rewrite search_one_turn. unfold result_of, final. simpl.
  rewrite filter_none; [reflexivity|].
  intros [k v] Hin. simpl.
  apply initial_distance_values in Hin as [-> | ->]; [|apply keeps_zero].
  unfold keeps, js_and. now rewrite Hfin.
Qed.

End SearchFacts.

(* ================================================================= *)
(** ** Properties of the search *)

Module SearchProps.
Import Js Dijkstra MapFacts SearchFacts.
Local Open Scope string_scope.

(** C1.  The specification wants the origin in the reachable set with
    distance 0.  The search does give the origin the distance 0, but the
    final filter [dist <= maxTimeSeconds && dist] takes a distance of 0
    for a missing one: for every network, origin and budget the search
    returns a result whose reachable list does not contain the origin. *)
Theorem search_omits_origin :
  forall (fuel : nat) (net : RoadNet.RoadNetwork) (startNodeId : string)
         (maxTimeSeconds : value),
  exists r,
    search (S fuel) net startNodeId maxTimeSeconds = Some r
    /\ distance_of (res_distances r) startNodeId = VNum 0%float
    /\ ~ In startNodeId (List.map nodeId (reachableNodes r)).
Proof.
  intros fuel net startNodeId maxTimeSeconds.
  eexists. split; [apply search_one_turn|]. split.
  - unfold result_of, final, initial, distance_of. simpl.
    now rewrite map_get_set_same.
  - unfold result_of. simpl reachableNodes. rewrite map_map. simpl.
    rewrite in_map_iff. intros [[k v] [Hk Hin]]. simpl in Hk. subst k.
    apply filter_In in Hin as [Hin Hkeep]. simpl in Hkeep.
    apply initial_distance_start in Hin. subst v.
    rewrite keeps_zero in Hkeep. discriminate.
Qed.

(** C2.  On the line A - B - C with two edges of 100 m the specification
    expects B (and C for a budget of 150 s) to be reached.  The search
    leaves B and C at [Infinity] and returns an empty reachable list for
    both budgets, on the network built with [addEdge] as on the one read
    from a snapshot whose edges cost exactly 72 s. *)
Theorem line_scenario_reaches_nothing :
  forall fuel : nat,
    let unreached :=
      [("A", VNum 0%float); ("B", VNum infinity); ("C", VNum infinity)] in
    search (S fuel) Scenario.line "A" (VNum 100%float)
      = Some (mkSearchResult unreached [] [])
    /\ search (S fuel) Scenario.line "A" (VNum 150%float)
      = Some (mkSearchResult unreached [] [])
    /\ search (S fuel) Scenario.line72 "A" (VNum 100%float)
      = Some (mkSearchResult unreached [] [])
    /\ search (S fuel) Scenario.line72 "A" (VNum 150%float)
      = Some (mkSearchResult unreached [] []).
Proof.
  intros fuel unreached. subst unreached.
  rewrite !search_one_turn. repeat split; vm_compute; reflexivity.
Qed.

(** C7.  A search from an identifier that is not in the network is not
    rejected: it returns a result in which that identifier has distance 0
    and no node has a predecessor. *)
Theorem search_accepts_missing_origin :
  forall (fuel : nat) (net : RoadNet.RoadNetwork) (originId : string)
         (maxTimeSeconds : value),
    RoadNet.getNode net originId = None ->
    exists r,
      search (S fuel) net originId maxTimeSeconds = Some r
      /\ map_get (res_distances r) originId = Some (VNum 0%float)
      /\ res_previous r = [].
Proof.
  intros fuel net originId maxTimeSeconds _.
  eexists. split; [apply search_one_turn|]. split; [|reflexivity].
  unfold result_of, final, initial. simpl. apply map_get_set_same.
Qed.

Lemma search_accepts_missing_origin_witness :
  RoadNet.getNode Scenario.line "Z" = None
  /\ exists r,
       search 1 Scenario.line "Z" (VNum 100%float) = Some r
       /\ map_get (res_distances r) "Z" = Some (VNum 0%float)
       /\ res_previous r = [].
Proof.
  split; [reflexivity|].
  apply (search_accepts_missing_origin 0 Scenario.line "Z" (VNum 100%float)).
  reflexivity.
Defined.

(** On the line network a search from the unknown identifier "Z" is not
    rejected: it produces a result. *)
Lemma search_missing_origin_returns :
  RoadNet.getNode Scenario.line "Z" = None
  /\ search 1 Scenario.line "Z" (VNum 100%float)
     = Some (mkSearchResult
               [("A", VNum infinity); ("B", VNum infinity);
                ("C", VNum infinity); ("Z", VNum 0%float)] [] []).
Proof. split; vm_compute; reflexivity. Qed.

(** C10.  The loop of [search] ends for every network, origin and
    budget: from the initial state a bounded run reaches a state with an
    empty queue in which no node was visited twice, and a larger bound
    gives the same state. *)
Theorem search_loop_terminates :
  forall (net : RoadNet.RoadNetwork) (startNodeId : string)
         (maxTimeSeconds : value),
  exists fuel st,
    loop fuel net maxTimeSeconds (initial net startNodeId) = Some st
    /\ PQ.isEmpty (pq st) = true
    /\ NoDup (visited st)
    /\ forall fuel', fuel <= fuel' ->
         loop fuel' net maxTimeSeconds (initial net startNodeId) = Some st.
Proof.
  intros net startNodeId maxTimeSeconds.
  exists 1, (final net startNodeId). split; [apply loop_one_turn|].
  split; [reflexivity|]. split.
  - simpl. constructor; [tauto | constructor].
  - intros [|fuel'] Hle; [lia|]. apply loop_one_turn.
Qed.

End SearchProps.

(* ================================================================= *)
(** ** Properties of the network store *)

Module StoreFacts.
Import Js RoadNet MapFacts.
Local Open Scope string_scope.

Lemma map_has_update {V} (m : Map V) (k k' : string) (f : V -> V) :
  map_has (map_update m k f) k' = map_has m k'.
Proof.
  unfold map_has. rewrite map_get_update. now destruct (map_get m k').
Qed.

Lemma map_has_set {V} (m : Map V) (k k' : string) (v : V) :
  map_has (map_set m k v) k' = (String.eqb k' k || map_has m k')%bool.
Proof.
  unfold map_has. destruct (String.eqb k' k) eqn:E.
  - apply String.eqb_eq in E. subst. now rewrite map_get_set_same.
  - apply String.eqb_neq in E. now rewrite map_get_set_other.
Qed.

(** Without an entry under [k] there is nothing to update. *)
Lemma map_update_absent {V} (m : Map V) (k : string) (f : V -> V) :
  map_has m k = false -> map_update m k f = m.
Proof.
  unfold map_has, map_update. induction m as [|[k1 v1] rest IH]; simpl; [reflexivity|].
  destruct (String.eqb k1 k) eqn:E; [discriminate|].
  intros H. f_equal. now apply IH.
Qed.

(** [addEdge] step by step: which lookups decide its outcome. *)
Lemma addEdge_outcome net a b len :
  fst (addEdge a b len net) =
  if (map_has (nodes net) a && map_has (nodes net) b
      && map_has (adjList net) a && map_has (adjList net) b)%bool
  then Return tt else Throw "TypeError".
Proof.
  unfold addEdge, bind, modify, node_connections_add, adjList_add, map_has. simpl.
  destruct (map_get (nodes net) a) eqn:Ea; simpl; [|reflexivity].
  rewrite map_get_update.
  destruct (map_get (nodes net) b) eqn:Eb; simpl; [|reflexivity].
  destruct (map_get (adjList net) a) eqn:Eaa; simpl; [|reflexivity].
  rewrite map_get_update.
  destruct (map_get (adjList net) b) eqn:Eab; reflexivity.
Qed.

(** Whatever its outcome, [addEdge] has written the edge map. *)
Lemma addEdge_edges net a b len :
  edges (snd (addEdge a b len net))
  = map_set (edges net) (edgeKey a b) (new_RoadEdge a b len).
Proof.
  unfold addEdge, bind, modify, node_connections_add, adjList_add. simpl.
  destruct (map_get (nodes net) a) eqn:Ea; simpl; [|reflexivity].
  rewrite map_get_update.
  destruct (map_get (nodes net) b) eqn:Eb; simpl; [|reflexivity].
  destruct (map_get (adjList net) a) eqn:Eaa; simpl; [|reflexivity].
  rewrite map_get_update.
  destruct (map_get (adjList net) b) eqn:Eab; reflexivity.
Qed.

Lemma removeEdge_edges net a b :
  edges (removeEdge a b net)
  = map_delete (map_delete (edges net) (edgeKey a b)) (edgeKey b a).
Proof.
  unfold removeEdge. cbv zeta.
  repeat match goal with
         | |- context [if ?c then _ else _] => destruct c
         end; reflexivity.
Qed.

Lemma map_get_None_delete {V} (m : Map V) (k k' : string) :
  map_get m k' = None -> map_get (map_delete m k) k' = None.
Proof.
  induction m as [|[k1 v1] rest IH]; simpl; [reflexivity|].
  destruct (String.eqb k1 k') eqn:E; [discriminate|].
  intros H. destruct (String.eqb k1 k); simpl; [now apply IH|].
  rewrite E. now apply IH.
Qed.

Lemma guarded_adjList_update net k f :
  (if map_has (adjList net) k
   then with_adjList net (map_update (adjList net) k f) else net)
  = with_adjList net (map_update (adjList net) k f).
Proof.
  destruct (map_has (adjList net) k) eqn:E; [reflexivity|].
  rewrite map_update_absent by exact E. now destruct net.
Qed.

Lemma guarded_nodes_update net k f :
  (if map_has (nodes net) k
   then with_nodes net (map_update (nodes net) k f) else net)
  = with_nodes net (map_update (nodes net) k f).
Proof.
  destruct (map_has (nodes net) k) eqn:E; [reflexivity|].
  rewrite map_update_absent by exact E. now destruct net.
Qed.

(** [removeEdge] in one piece: the guards only skip updates that would
    change nothing. *)
Lemma removeEdge_eq net a b :
  removeEdge a b net =
  mkRoadNetwork
    (map_update
       (map_update (nodes net) a
          (fun n => with_connections n (set_delete (connections n) b)))
       b (fun n => with_connections n (set_delete (connections n) a)))
    (map_delete (map_delete (edges net) (edgeKey a b)) (edgeKey b a))
    (map_update (map_update (adjList net) a (fun s => set_delete s b))
       b (fun s => set_delete s a))
    (nextNodeId net).
Proof.
  unfold removeEdge. cbv zeta.
  rewrite !guarded_adjList_update, !guarded_nodes_update. reflexivity.
Qed.

(** *** The invariants *)

Import Invariant.

Lemma consistent_spec net : consistent net = true <-> holds net.
Proof.
  unfold consistent, connections_symmetric, adjacency_connected, edges_connected,
    holds.
  rewrite !andb_true_iff, !forallb_forall. split.
  - intros [[H1 H2] H3]. split; [|split].
    + intros y n z Hin Hz. specialize (H1 _ Hin). simpl in H1.
      rewrite forallb_forall in H1. apply set_has_In. now apply H1.
    + intros y s z Hin Hz. specialize (H2 _ Hin). simpl in H2.
      rewrite forallb_forall in H2. apply set_has_In. now apply H2.
    + intros k e Hin. specialize (H3 _ Hin). simpl in H3.
      apply andb_true_iff in H3 as [Hk Hc].
      split; [now apply String.eqb_eq | now apply set_has_In].
  - intros (W1 & W2 & W3). split; [split|].
    + intros [y n] Hin. simpl. apply forallb_forall. intros z Hz.
      apply set_has_In. eauto.
    + intros [y s] Hin. simpl. apply forallb_forall. intros z Hz.
      apply set_has_In. eauto.
    + intros [k e] Hin. simpl. destruct (W3 _ _ Hin) as [Hk Hc].
      apply andb_true_iff. split; [now apply String.eqb_eq | now apply set_has_In].
Qed.

Lemma set_add_In s x z : In z (set_add s x) <-> In z s \/ z = x.
Proof.
  unfold set_add. destruct (set_has s x) eqn:E.
  - apply set_has_In in E. split; [tauto | intros [H | ->]; assumption].
  - rewrite in_app_iff. simpl. intuition.
Qed.

Lemma map_get_delete_other {V} (m : Map V) (k k' : string) :
  k' <> k -> map_get (map_delete m k) k' = map_get m k'.
Proof.
  intros Hne. induction m as [|[k1 v1] rest IH]; simpl; [reflexivity|].
  destruct (String.eqb k1 k) eqn:E; simpl.
  - apply String.eqb_eq in E. subst k1.
    assert (String.eqb k k' = false) as -> by (apply String.eqb_neq; congruence).
    exact IH.
  - destruct (String.eqb k1 k'); [reflexivity | exact IH].
Qed.

(** The connections of [y] after the connection sets of [a] and of [b]
    have been changed by [f] and by [g]. *)
Lemma connections_of_updated net' net a b f g y :
  nodes net' =
    map_update
      (map_update (nodes net) a (fun n => with_connections n (f (connections n))))
      b (fun n => with_connections n (g (connections n))) ->
  connections_of net' y =
  match map_get (nodes net) y with
  | Some n =>
      (if String.eqb y b then g else fun s => s)
        ((if String.eqb y a then f else fun s => s) (connections n))
  | None => []
  end.
Proof.
  intros Hn. unfold connections_of. rewrite Hn, !map_get_update.
  destruct (map_get (nodes net) y) as [n|]; simpl; [|reflexivity].
  now destruct (String.eqb y b), (String.eqb y a).
Qed.

(** The empty network satisfies the invariants. *)
Lemma holds_new : holds new_RoadNetwork.
Proof. repeat split; intros; contradiction. Qed.

(** [addNode] keeps the invariants when the identifier it makes is new. *)
Lemma addNode_holds toString lng lat net :
  holds net ->
  map_get (nodes net) ("n_" ++ toString (nextNodeId net)) = None ->
  holds (snd (addNode toString lng lat net)).
Proof.
  intros (W1 & W2 & W3) Hnew.
  unfold addNode, with_adjList, with_nodes, with_nextNodeId. simpl.
  set (i := "n_" ++ toString (nextNodeId net)) in *.
  set (net' := mkRoadNetwork _ _ _ _).
  assert (Hempty : connections_of net i = [])
    by (unfold connections_of; now rewrite Hnew).
  assert (Hc : forall y z, In z (connections_of net y) ->
                           In z (connections_of net' y)).
  { intros y z Hz. destruct (string_dec y i) as [-> | Hy].
    - rewrite Hempty in Hz. destruct Hz.
    - unfold connections_of. subst net'. simpl.
      now rewrite map_get_set_other. }
  split; [|split]; subst net'; simpl.
  - intros y n z Hin Hz. apply map_set_In in Hin as [[-> ->] | Hin];
      [destruct Hz | eauto].
  - intros y s z Hin Hz. apply map_set_In in Hin as [[-> ->] | Hin];
      [destruct Hz | eauto].
  - intros k e Hin. destruct (W3 _ _ Hin) as [Hk Hto]. eauto.
Qed.

(** The network that a returning [addEdge] leaves. *)
Lemma addEdge_returns net a b len :
  fst (addEdge a b len net) = Return tt ->
  map_has (nodes net) a = true /\ map_has (nodes net) b = true
  /\ snd (addEdge a b len net) =
     mkRoadNetwork
       (map_update
          (map_update (nodes net) a
             (fun n => with_connections n (set_add (connections n) b)))
          b (fun n => with_connections n (set_add (connections n) a)))
       (map_set (edges net) (edgeKey a b) (new_RoadEdge a b len))
       (map_update (map_update (adjList net) a (fun s => set_add s b))
          b (fun s => set_add s a))
       (nextNodeId net).
Proof.
  unfold addEdge, bind, modify, node_connections_add, adjList_add, map_has. simpl.
  destruct (map_get (nodes net) a) eqn:Ea; simpl; [|discriminate].
  rewrite map_get_update.
  destruct (map_get (nodes net) b) eqn:Eb; simpl; [|discriminate].
  destruct (map_get (adjList net) a) eqn:Eaa; simpl; [|discriminate].
  rewrite map_get_update.
  destruct (map_get (adjList net) b) eqn:Eab; simpl; [|discriminate].
  intros _. repeat split.
Qed.

(** [addEdge] keeps the invariants when it returns. *)
Lemma addEdge_holds net a b len :
  holds net -> fst (addEdge a b len net) = Return tt ->
  holds (snd (addEdge a b len net)).
Proof.
  intros (W1 & W2 & W3) Hret.
  destruct (addEdge_returns _ _ _ _ Hret) as (Ha & Hb & ->).
  set (net' := mkRoadNetwork _ _ _ _).
  assert (Hc : forall y z,
             In z (connections_of net' y) <->
             exists n, map_get (nodes net) y = Some n
                       /\ (In z (connections n) \/ (y = a /\ z = b)
                           \/ (y = b /\ z = a))).
  { intros y z.
    rewrite (connections_of_updated net' net a b
               (fun s => set_add s b) (fun s => set_add s a)) by reflexivity.
    destruct (map_get (nodes net) y) as [n|]; [|split; [intros [] | intros (n & [=] & _)]].
    destruct (String.eqb_spec y b) as [Eb'|Eb'], (String.eqb_spec y a) as [Ea'|Ea'];
      rewrite ?set_add_In; split.
    all: try (intros H; exists n; split; [reflexivity|]; intuition).
    all: intros (n' & [= <-] & H); intuition congruence. }
  assert (Hmono : forall y z, In z (connections_of net y) -> In z (connections_of net' y)).
  { intros y z H. apply Hc. unfold connections_of in H.
    destruct (map_get (nodes net) y) as [n|]; [|destruct H]. eauto. }
  assert (Hab : In b (connections_of net' a)).
  { apply Hc. unfold map_has in Ha.
    destruct (map_get (nodes net) a) as [n|]; [|discriminate]. eauto 6. }
  assert (Hba : In a (connections_of net' b)).
  { apply Hc. unfold map_has in Hb.
    destruct (map_get (nodes net) b) as [n|]; [|discriminate]. eauto 6. }
  split; [|split].
  - intros y n' z Hin Hz. subst net'. simpl in Hin.
    apply map_update_In in Hin as (n1 & Hin & ->).
    apply map_update_In in Hin as (n0 & Hin & ->).
    assert (Hz' : In z (connections n0) \/ (y = a /\ z = b) \/ (y = b /\ z = a)).
    { destruct (String.eqb_spec y b) as [Eb'|Eb'], (String.eqb_spec y a) as [Ea'|Ea'];
        simpl in Hz; rewrite ?set_add_In in Hz; intuition. }
    destruct Hz' as [Hold | [[-> ->] | [-> ->]]]; [|assumption|assumption].
    apply Hmono. eauto.
  - intros y s' z Hin Hz. subst net'. simpl in Hin.
    apply map_update_In in Hin as (s1 & Hin & ->).
    apply map_update_In in Hin as (s0 & Hin & ->).
    assert (Hz' : In z s0 \/ (y = a /\ z = b) \/ (y = b /\ z = a)).
    { destruct (String.eqb_spec y b) as [Eb'|Eb'], (String.eqb_spec y a) as [Ea'|Ea'];
        rewrite ?set_add_In in Hz; intuition. }
    destruct Hz' as [Hold | [[-> ->] | [-> ->]]]; [|assumption|assumption].
    apply Hmono. eauto.
  - intros k e Hin. subst net'. simpl in Hin.
    apply map_set_In in Hin as [[-> ->] | Hin].
    + split; [reflexivity | exact Hab].
    + destruct (W3 _ _ Hin) as [Hk Hto]. split; [exact Hk | now apply Hmono].
Qed.

(** [removeEdge] keeps the invariants. *)
Lemma removeEdge_holds net a b : holds net -> holds (removeEdge a b net).
Proof.
  intros (W1 & W2 & W3). rewrite removeEdge_eq.
  set (net' := mkRoadNetwork _ _ _ _).
  assert (Hc : forall y z,
             In z (connections_of net' y) <->
             In z (connections_of net y)
             /\ ~ (y = a /\ z = b) /\ ~ (y = b /\ z = a)).
  { intros y z.
    rewrite (connections_of_updated net' net a b
               (fun s => set_delete s b) (fun s => set_delete s a)) by reflexivity.
    unfold connections_of.
    destruct (map_get (nodes net) y) as [n|]; [|simpl; tauto].
    destruct (String.eqb_spec y b) as [Eb'|Eb'], (String.eqb_spec y a) as [Ea'|Ea'];
      rewrite ?set_delete_In; intuition congruence. }
  split; [|split].
  - intros y n' z Hin Hz. subst net'. simpl in Hin.
    apply map_update_In in Hin as (n1 & Hin & ->).
    apply map_update_In in Hin as (n0 & Hin & ->).
    assert (Hz' : In z (connections n0) /\ ~ (y = a /\ z = b) /\ ~ (y = b /\ z = a)).
    { destruct (String.eqb_spec y b) as [Eb'|Eb'], (String.eqb_spec y a) as [Ea'|Ea'];
        simpl in Hz; rewrite ?set_delete_In in Hz; intuition congruence. }
    destruct Hz' as (Hold & Hn1 & Hn2). apply Hc.
    split; [eauto | intuition].
  - intros y s' z Hin Hz. subst net'. simpl in Hin.
    apply map_update_In in Hin as (s1 & Hin & ->).
    apply map_update_In in Hin as (s0 & Hin & ->).
    assert (Hz' : In z s0 /\ ~ (y = a /\ z = b) /\ ~ (y = b /\ z = a)).
    { destruct (String.eqb_spec y b) as [Eb'|Eb'], (String.eqb_spec y a) as [Ea'|Ea'];
        rewrite ?set_delete_In in Hz; intuition congruence. }
    destruct Hz' as (Hold & Hn1 & Hn2). apply Hc.
    split; [eauto | intuition].
  - intros k e Hin. subst net'. simpl in Hin.
    apply map_delete_In in Hin as [Hin Hk2].
    apply map_delete_In in Hin as [Hin Hk1].
    destruct (W3 _ _ Hin) as [Hk Hto]. split; [exact Hk|].
    apply Hc. split; [exact Hto|].
    split; intros [Hf Ht]; rewrite Hf, Ht in Hk; congruence.
Qed.

(** *** Removing a node *)

Lemma connections_of_In net y z :
  In z (connections_of net y) ->
  exists n, In (y, n) (nodes net) /\ In z (connections n).
Proof.
  unfold connections_of. destruct (map_get (nodes net) y) eqn:E; [|intros []].
  intros H. exists r. split; [now apply map_get_In | exact H].
Qed.

Lemma shrinks_refl net : shrinks net net.
Proof.
  repeat split; [tauto| |]; intros y v H; exists v; split;
    auto using incl_refl.
Qed.

Lemma shrinks_trans n1 n2 n3 : shrinks n1 n2 -> shrinks n2 n3 -> shrinks n1 n3.
Proof.
  intros (E1 & A1 & N1) (E2 & A2 & N2). repeat split.
  - auto.
  - intros y s H. destruct (A1 _ _ H) as (s1 & H1 & I1).
    destruct (A2 _ _ H1) as (s2 & H2 & I2).
    exists s2. split; [assumption | eauto using incl_tran].
  - intros y n H. destruct (N1 _ _ H) as (m1 & H1 & I1).
    destruct (N2 _ _ H1) as (m2 & H2 & I2).
    exists m2. split; [assumption | eauto using incl_tran].
Qed.

Lemma set_delete_incl s x : incl (set_delete s x) s.
Proof. intros y H. now apply set_delete_In in H. Qed.

Lemma removeEdge_shrinks net a b : shrinks (removeEdge a b net) net.
Proof.
  rewrite removeEdge_eq. repeat split; simpl.
  - intros k e H. apply map_delete_In in H as [H _].
    now apply map_delete_In in H as [H _].
  - intros y s H. apply map_update_In in H as (s1 & H & ->).
    apply map_update_In in H as (s0 & H & ->).
    exists s0. split; [assumption|].
    destruct (String.eqb y b), (String.eqb y a);
      eauto using incl_refl, incl_tran, set_delete_incl.
  - intros y n H. apply map_update_In in H as (n1 & H & ->).
    apply map_update_In in H as (n0 & H & ->).
    exists n0. split; [assumption|].
    destruct (String.eqb y b), (String.eqb y a); simpl;
      eauto using incl_refl, incl_tran, set_delete_incl.
Qed.

Lemma unlinked_shrinks x z net' net :
  shrinks net' net -> unlinked x z net -> unlinked x z net'.
Proof.
  intros (E & A & N) (U1 & U2 & U3 & U4). repeat split.
  - intros e H. eapply U1; eauto.
  - intros e H. eapply U2; eauto.
  - intros s H Hx. destruct (A _ _ H) as (s0 & H0 & I). eapply U3; eauto.
  - intros n H Hx. destruct (N _ _ H) as (n0 & H0 & I). eapply U4; eauto.
Qed.

Lemma removeEdge_unlinked net x z : unlinked x z (removeEdge x z net).
Proof.
  rewrite removeEdge_eq. repeat split; simpl.
  - intros e H. apply map_delete_In in H as [H _].
    apply map_delete_In in H as [_ H]. now apply H.
  - intros e H. apply map_delete_In in H as [_ H]. now apply H.
  - intros s H. apply map_update_In in H as (s1 & _ & ->).
    rewrite String.eqb_refl. intros Hx. now apply set_delete_In in Hx as [_ Hx].
  - intros n H. apply map_update_In in H as (n1 & _ & ->).
    rewrite String.eqb_refl. simpl. intros Hx.
    now apply set_delete_In in Hx as [_ Hx].
Qed.

(** A call [removeEdge x w] takes [w], and nothing else, out of the
    connections of [x]. *)
Lemma connections_of_removeEdge net x w z :
  In z (connections_of (removeEdge x w net) x)
  <-> In z (connections_of net x) /\ z <> w.
Proof.
  rewrite removeEdge_eq. unfold connections_of. simpl.
  rewrite !map_get_update, String.eqb_refl.
  destruct (map_get (nodes net) x) as [n|]; simpl; [|tauto].
  destruct (String.eqb x w) eqn:E; simpl; rewrite !set_delete_In.
  - apply String.eqb_eq in E. subst. tauto.
  - tauto.
Qed.

(** The loop of [removeNode]: every member of the connection set the
    loop started from ends up unlinked from [x]. *)
Lemma removeNode_loop_unlinks x L0 todo :
  forall net,
    incl todo L0 ->
    (forall z, In z L0 -> In z (connections_of net x) \/ unlinked x z net) ->
    shrinks (removeNode_loop x todo net) net
    /\ (forall z, In z L0 ->
          In z (connections_of (removeNode_loop x todo net) x)
          \/ unlinked x z (removeNode_loop x todo net))
    /\ (forall z, In z todo -> unlinked x z (removeNode_loop x todo net)).
Proof.
  induction todo as [|w rest IH]; intros net Hincl Hinv; simpl.
  - split; [apply shrinks_refl | split; [exact Hinv | intros z []]].
  - set (net' := if set_has (connections_of net x) w
                 then removeEdge x w net else net).
    assert (Hs : shrinks net' net).
    { subst net'. destruct (set_has _ w);
        [apply removeEdge_shrinks | apply shrinks_refl]. }
    assert (Hw : unlinked x w net').
    { subst net'. destruct (set_has (connections_of net x) w) eqn:E.
      - apply removeEdge_unlinked.
      - destruct (Hinv w) as [Hin | Hun]; [apply Hincl; now left | | exact Hun].
        apply set_has_In in Hin. congruence. }
    assert (Hinv' : forall z, In z L0 ->
               In z (connections_of net' x) \/ unlinked x z net').
    { intros z Hz. destruct (Hinv z Hz) as [Hin | Hun].
      - destruct (string_dec z w) as [-> | Hne]; [now right|].
        left. subst net'. destruct (set_has (connections_of net x) w); [|exact Hin].
        apply connections_of_removeEdge. tauto.
      - right. eapply unlinked_shrinks; eauto. }
    destruct (IH net') as (S1 & I1 & T1); [|exact Hinv'|].
    { intros z Hz. apply Hincl. now right. }
    split; [eapply shrinks_trans; eauto|]. split; [exact I1|].
    intros z [<- | Hz]; [|now apply T1].
    eapply unlinked_shrinks; eauto.
Qed.

Lemma removeNode_loop_holds x todo :
  forall net, holds net -> holds (removeNode_loop x todo net).
Proof.
  induction todo as [|w rest IH]; intros net H; simpl; [exact H|].
  apply IH. destruct (set_has (connections_of net x) w);
    [now apply removeEdge_holds | exact H].
Qed.

(** In a network that satisfies the invariants, whatever refers to [x] is
    a connection of [x]. *)
Lemma referrers_are_connections net x :
  holds net ->
  (forall y s, In (y, s) (adjList net) -> In x s -> In y (connections_of net x))
  /\ (forall y n, In (y, n) (nodes net) -> In x (connections n) ->
        In y (connections_of net x)).
Proof.
  intros (W1 & W2 & W3). split.
  - intros y s Hin Hx. apply (W2 _ _ _ Hin) in Hx.
    apply connections_of_In in Hx as (n & Hn & Hx). eauto.
  - eauto.
Qed.

(** After the loop of [removeNode(x)] nothing refers to [x]. *)
Lemma removeNode_loop_unreferenced net x node :
  holds net -> map_get (nodes net) x = Some node ->
  unreferenced x (removeNode_loop x (connections node) net).
Proof.
  intros Hh Ex. destruct (referrers_are_connections net x Hh) as [Hadj Hconn].
  destruct Hh as (W1 & W2 & W3).
  assert (HL : connections_of net x = connections node)
    by (unfold connections_of; now rewrite Ex).
  destruct (removeNode_loop_unlinks x (connections node) (connections node) net)
    as (S1 & _ & U); [apply incl_refl | rewrite <- HL; tauto |].
  set (net1 := removeNode_loop x (connections node) net) in *.
  destruct S1 as (SE & SA & SN). rewrite <- HL in U.
  split; [|split].
  - intros y s Hin Hx. destruct (SA _ _ Hin) as (s0 & H0 & I0).
    destruct (U y) as (_ & _ & U3 & _); [eapply Hadj; eauto|].
    now apply (U3 _ Hin).
  - intros k e Hin. pose proof (SE _ _ Hin) as Hin0.
    destruct (W3 _ _ Hin0) as [Hk Hto]. split; intros Heq.
    + rewrite Heq in Hto, Hk.
      destruct (U (to e) Hto) as (U1 & _). apply (U1 e). now rewrite <- Hk.
    + rewrite Heq in Hto, Hk.
      apply connections_of_In in Hto as (n & Hn & Hx).
      destruct (U (from e)) as (_ & U2 & _); [eapply Hconn; eauto|].
      apply (U2 e). now rewrite <- Hk.
  - intros y n Hin Hx. destruct (SN _ _ Hin) as (n0 & H0 & I0).
    destruct (U y) as (_ & _ & _ & U4); [eapply Hconn; eauto|].
    now apply (U4 _ Hin).
Qed.

(** Nothing refers to an identifier that is not a node. *)
Lemma absent_unreferenced net x :
  holds net -> map_get (nodes net) x = None -> unreferenced x net.
Proof.
  intros Hh Ex. destruct (referrers_are_connections net x Hh) as [Hadj Hconn].
  destruct Hh as (W1 & W2 & W3).
  assert (HL : connections_of net x = [])
    by (unfold connections_of; now rewrite Ex).
  split; [|split].
  - intros y s Hin Hx. pose proof (Hadj _ _ Hin Hx) as H.
    rewrite HL in H. destruct H.
  - intros k e Hin. destruct (W3 _ _ Hin) as [Hk Hto]. split; intros Heq.
    + rewrite Heq, HL in Hto. destruct Hto.
    + rewrite Heq in Hto.
      apply connections_of_In in Hto as (n & Hn & Hx).
      pose proof (Hconn _ _ Hn Hx) as H. rewrite HL in H. destruct H.
  - intros y n Hin Hx. pose proof (Hconn _ _ Hin Hx) as H.
    rewrite HL in H. destruct H.
Qed.

(** Taking an unreferenced node out of the node map and the adjacency map. *)
Lemma delete_unreferenced net x :
  unreferenced x net ->
  unreferenced x
    (with_adjList (with_nodes net (map_delete (nodes net) x))
       (map_delete (adjList net) x)).
Proof.
  intros (A & E & N). split; [|split]; simpl.
  - intros y s Hin. apply map_delete_In in Hin as [Hin _]. eauto.
  - exact E.
  - intros y n Hin. apply map_delete_In in Hin as [Hin _]. eauto.
Qed.

Lemma delete_holds net x :
  holds net -> unreferenced x net ->
  holds (with_adjList (with_nodes net (map_delete (nodes net) x))
           (map_delete (adjList net) x)).
Proof.
  intros (W1 & W2 & W3) (A & E & N).
  set (net' := with_adjList _ _).
  assert (Hc : forall y, y <> x -> connections_of net' y = connections_of net y).
  { intros y Hy. unfold connections_of. subst net'. simpl.
    now rewrite map_get_delete_other. }
  assert (Hx : forall y z, In z (connections_of net y) -> z <> x).
  { intros y z Hz. apply connections_of_In in Hz as (n & Hn & Hz).
    intros ->. exact (N _ _ Hn Hz). }
  split; [|split]; subst net'; simpl.
  - intros y n z Hin Hz. apply map_delete_In in Hin as [Hin Hy].
    rewrite Hc; [eauto|]. intros ->. exact (N _ _ Hin Hz).
  - intros y s z Hin Hz. apply map_delete_In in Hin as [Hin Hy].
    rewrite Hc by exact Hy. eauto.
  - intros k e Hin. destruct (W3 _ _ Hin) as [Hk Hto]. split; [exact Hk|].
    rewrite Hc; [exact Hto|]. now destruct (E _ _ Hin).
Qed.

(** [removeNode] keeps the invariants. *)
Lemma removeNode_holds net x : holds net -> holds (removeNode x net).
Proof.
  intros Hh. unfold removeNode.
  destruct (map_get (nodes net) x) as [node|] eqn:Ex; [|exact Hh].
  apply (delete_holds (removeNode_loop x (connections node) net) x).
  - now apply removeNode_loop_holds.
  - now apply removeNode_loop_unreferenced.
Qed.

(** *** Importing a snapshot *)

Local Open Scope js_scope.

(** The import starts by clearing the network, so nothing of the network
    it runs on survives in its outcome. *)
Lemma import_cleared data net :
  importFromJSON (Encodes data) net =
  (ns <- property (j_nodes data) ;;
   forEach ns import_node ;;
   es <- property (j_edges data) ;;
   forEach es import_edge) new_RoadNetwork.
Proof. reflexivity. Qed.

(** A text that is not JSON is rejected by [JSON.parse], before anything
    is cleared. *)
Lemma import_unparsable net :
  importFromJSON Unparsable net = (Throw "SyntaxError", net).
Proof. reflexivity. Qed.

Lemma import_node_adjList node net :
  match import_node node net with
  | (Return _, net') =>
      forall k, map_has (adjList net') k
                = (String.eqb k (j_id node) || map_has (adjList net) k)%bool
  | (Throw name, _) => name = "TypeError"
  end.
Proof.
  unfold import_node, bind, modify, new_Set.
  destruct (j_connections node); simpl; try reflexivity;
    intros k; apply map_has_set.
Qed.

Lemma import_nodes_adjList ns :
  forall net,
    match forEach ns import_node net with
    | (Return _, net') =>
        forall k, map_has (adjList net') k
                  = (set_has (snapshot_ids ns) k || map_has (adjList net) k)%bool
    | (Throw name, _) => name = "TypeError"
    end.
Proof.
  induction ns as [|node rest IH]; intros net; simpl.
  - reflexivity.
  - unfold bind. pose proof (import_node_adjList node net) as Hn.
    destruct (import_node node net) as [[[]|name] net1]; [|exact Hn].
    specialize (IH net1).
    destruct (forEach rest import_node net1) as [[[]|name] net2]; [|exact IH].
    intros k. rewrite IH, Hn. unfold set_has. simpl.
    now destruct (String.eqb k (j_id node)), (existsb (String.eqb k) (snapshot_ids rest)).
Qed.

Lemma existsb_ext {A} (f g : A -> bool) (l : list A) :
  (forall x, f x = g x) -> existsb f l = existsb g l.
Proof.
  intros H. induction l as [|x rest IH]; simpl; [reflexivity|].
  now rewrite H, IH.
Qed.

Lemma adjList_add_outcome k x net :
  adjList_add k x net =
  if map_has (adjList net) k
  then (Return tt,
        with_adjList net (map_update (adjList net) k (fun s => set_add s x)))
  else (Throw "TypeError", net).
Proof.
  unfold adjList_add, map_has. now destruct (map_get (adjList net) k).
Qed.

Lemma import_edge_adjList edge net :
  match import_edge edge net with
  | (Return _, net') =>
      map_has (adjList net) (from edge) = true
      /\ map_has (adjList net) (to edge) = true
      /\ forall k, map_has (adjList net') k = map_has (adjList net) k
  | (Throw name, _) => name = "TypeError"
  end.
Proof.
  unfold import_edge, bind, modify. rewrite adjList_add_outcome. simpl.
  destruct (map_has (adjList net) (from edge)) eqn:Ef; [|reflexivity].
  rewrite adjList_add_outcome. simpl. rewrite map_has_update.
  destruct (map_has (adjList net) (to edge)) eqn:Et; [|reflexivity].
  repeat split. intros k. simpl. now rewrite !map_has_update.
Qed.

(** The edge loop throws as soon as an edge names an identifier that has
    no adjacency set. *)
Lemma import_edges_throw es :
  forall net,
    existsb
      (fun e => negb (map_has (adjList net) (from e))
                || negb (map_has (adjList net) (to e))) es = true ->
    fst (forEach es import_edge net) = Throw "TypeError".
Proof.
  induction es as [|e rest IH]; intros net Hbad; simpl in Hbad; [discriminate|].
  simpl. unfold bind. pose proof (import_edge_adjList e net) as He.
  destruct (import_edge e net) as [[[]|name] net1]; [|simpl; now subst].
  destruct He as (Hf & Ht & Hsame). rewrite Hf, Ht in Hbad. simpl in Hbad.
  apply IH. erewrite existsb_ext; [exact Hbad|].
  intros e'. now rewrite !Hsame.
Qed.

Lemma import_edges_error es :
  forall net name, fst (forEach es import_edge net) = Throw name ->
                   name = "TypeError".
Proof.
  induction es as [|e rest IH]; intros net name; simpl; [discriminate|].
  unfold bind. pose proof (import_edge_adjList e net) as He.
  destruct (import_edge e net) as [[[]|name'] net1].
  - apply IH.
  - simpl. intros [= <-]. exact He.
Qed.

(** The only errors an import can end with: the [SyntaxError] of
    [JSON.parse] and the [TypeError] of a failed property access. *)
Lemma import_errors text net name :
  fst (importFromJSON text net) = Throw name ->
  name = "SyntaxError" \/ name = "TypeError".
Proof.
  destruct text as [|data]; [intros [= <-]; now left|].
  rewrite import_cleared. intros H. right. revert H. unfold bind at 1.
  destruct (j_nodes data) as [ns|]; simpl; [|now intros [= <-]].
  unfold bind at 1.
  pose proof (import_nodes_adjList ns new_RoadNetwork) as Hn.
  destruct (forEach ns import_node new_RoadNetwork) as [[[]|name'] net1];
    [|simpl; intros [= <-]; exact Hn].
  unfold bind at 1.
  destruct (j_edges data) as [es|]; simpl; [|now intros [= <-]].
  apply import_edges_error.
Qed.

End StoreFacts.

Module StoreProps.
Import Js RoadNet MapFacts StoreFacts Invariant.
Local Open Scope string_scope.

(** In a network whose connection sets, adjacency sets and edge records
    agree, [removeNode(x)] leaves no reference to [x]: no adjacency set
    contains [x], no stored edge has [x] as an endpoint, no connection
    set contains [x], [x] is no longer a node and, when it was one, it
    has no adjacency set any more. *)
Lemma removeNode_leaves_no_reference net x :
  consistent net = true ->
  (forall y s, In (y, s) (adjList (removeNode x net)) -> ~ In x s)
  /\ (forall k e, In (k, e) (edges (removeNode x net)) ->
        from e <> x /\ to e <> x)
  /\ (forall y n, In (y, n) (nodes (removeNode x net)) ->
        ~ In x (connections n))
  /\ getNode (removeNode x net) x = None
  /\ (getNode net x <> None -> map_get (adjList (removeNode x net)) x = None).
Proof.
  intros Hc. apply consistent_spec in Hc.
  assert (H : unreferenced x (removeNode x net)
              /\ getNode (removeNode x net) x = None
              /\ (getNode net x <> None ->
                  map_get (adjList (removeNode x net)) x = None)).
  { unfold removeNode, getNode.
    destruct (map_get (nodes net) x) as [node|] eqn:Ex.
    - split; [|split; [apply map_get_delete_same|]].
      + apply (delete_unreferenced (removeNode_loop x (connections node) net) x).
        now apply removeNode_loop_unreferenced.
      + intros _. apply map_get_delete_same.
    - split; [now apply absent_unreferenced|]. split; [exact Ex | congruence]. }
  destruct H as [(A & E & N) [G D]]. auto.
Qed.

(** C6.  [addEdge] checks nothing.  It first stores the edge under the
    key [a-b]; it then throws a [TypeError] exactly when an endpoint is
    missing from the node map or from the adjacency map, and the stored
    edge stays; otherwise, also when [a] and [b] are the same node, it
    returns normally. *)
Theorem addEdge_checks_nothing :
  forall (net : RoadNetwork) (a b : string) (len : value),
    map_get (edges (snd (addEdge a b len net))) (edgeKey a b)
      = Some (new_RoadEdge a b len)
    /\ (fst (addEdge a b len net) = Throw "TypeError"
        <-> (map_has (nodes net) a && map_has (nodes net) b
             && map_has (adjList net) a && map_has (adjList net) b = false)%bool)
    /\ (fst (addEdge a b len net) = Return tt
        <-> (map_has (nodes net) a && map_has (nodes net) b
             && map_has (adjList net) a && map_has (adjList net) b = true)%bool).
Proof.
  intros net a b len. rewrite addEdge_edges, addEdge_outcome.
  split; [apply map_get_set_same|].
  destruct (map_has (nodes net) a && map_has (nodes net) b
            && map_has (adjList net) a && map_has (adjList net) b)%bool;
    split; split; congruence.
Qed.

(** On the line network, an edge to the unknown node "Z" makes [addEdge]
    throw a [TypeError] and leaves the edge and a connection behind; a
    self-loop on "A" is accepted. *)
Lemma addEdge_rejections_fail :
  fst (addEdge "A" "Z" (VNum 50%float) Scenario.line) = Throw "TypeError"
  /\ fst (addEdge "A" "Z" (VNum 50%float) Scenario.line)
     <> Throw "EdgeEndpointMissing"
  /\ snd (addEdge "A" "Z" (VNum 50%float) Scenario.line) <> Scenario.line
  /\ map_get (edges (snd (addEdge "A" "Z" (VNum 50%float) Scenario.line))) "A-Z"
     = Some (new_RoadEdge "A" "Z" (VNum 50%float))
  /\ connections_of (snd (addEdge "A" "Z" (VNum 50%float) Scenario.line)) "A"
     = ["B"; "Z"]
  /\ fst (addEdge "A" "A" (VNum 50%float) Scenario.line) = Return tt
  /\ map_get (edges (snd (addEdge "A" "A" (VNum 50%float) Scenario.line))) "A-A"
     = Some (new_RoadEdge "A" "A" (VNum 50%float)).
Proof.
  repeat split; try (vm_compute; reflexivity).
  - vm_compute. discriminate.
  - intros H. apply (f_equal (fun net => map_keys (edges net))) in H.
    vm_compute in H. discriminate.
Qed.

(** C8.  An edge is stored under the directional key [fromId-toId].
    Adding an edge again in the same direction overwrites the record
    (last write wins) without adding a key; adding it in the opposite
    direction, when the two keys differ, keeps the first record and
    stores a second one; [removeEdge] deletes the records of both
    directions. *)
Theorem edges_are_keyed_by_direction :
  forall (net : RoadNetwork) (a b : string) (l1 l2 : value),
    let net1 := snd (addEdge a b l1 net) in
    map_get (edges (snd (addEdge a b l2 net1))) (edgeKey a b)
      = Some (new_RoadEdge a b l2)
    /\ map_keys (edges (snd (addEdge a b l2 net1))) = map_keys (edges net1)
    /\ (edgeKey b a <> edgeKey a b ->
        map_get (edges (snd (addEdge b a l2 net1))) (edgeKey a b)
          = Some (new_RoadEdge a b l1)
        /\ map_get (edges (snd (addEdge b a l2 net1))) (edgeKey b a)
          = Some (new_RoadEdge b a l2))
    /\ map_get (edges (removeEdge a b (snd (addEdge b a l2 net1)))) (edgeKey a b)
       = None
    /\ map_get (edges (removeEdge a b (snd (addEdge b a l2 net1)))) (edgeKey b a)
       = None.
Proof.
  intros net a b l1 l2 net1. subst net1.
  rewrite removeEdge_edges. rewrite !addEdge_edges.
  split; [apply map_get_set_same|].
  split; [eapply map_set_keys_same; apply map_get_set_same|].
  split; [|split].
  - intros Hne. split; [|apply map_get_set_same].
    rewrite map_get_set_other by congruence. apply map_get_set_same.
  - destruct (string_dec (edgeKey a b) (edgeKey b a)) as [-> | Hne].
    + apply map_get_delete_same.
    + apply map_get_None_delete. apply map_get_delete_same.
  - apply map_get_delete_same.
Qed.

Lemma edges_are_keyed_by_direction_witness :
  edgeKey "A" "C" <> edgeKey "C" "A"
  /\ map_get
       (edges (snd (addEdge "A" "C" (VNum 50%float)
                      (snd (addEdge "C" "A" (VNum 200%float) Scenario.line)))))
       (edgeKey "C" "A")
     = Some (new_RoadEdge "C" "A" (VNum 200%float))
  /\ map_get
       (edges (snd (addEdge "A" "C" (VNum 50%float)
                      (snd (addEdge "C" "A" (VNum 200%float) Scenario.line)))))
       (edgeKey "A" "C")
     = Some (new_RoadEdge "A" "C" (VNum 50%float)).
Proof.
  assert (Hne : edgeKey "A" "C" <> edgeKey "C" "A") by discriminate.
  split; [exact Hne|].
  exact (proj1 (proj2 (proj2
           (edges_are_keyed_by_direction Scenario.line "C" "A"
              (VNum 200%float) (VNum 50%float)))) Hne).
Defined.

(** On the line network a second edge between A and B, added from B to A,
    does not replace the first: the edge map then holds two records for
    the pair. *)
Lemma opposite_direction_duplicates :
  List.map (fun e => (from e, to e))
    (getAllEdges (snd (addEdge "B" "A" (VNum 50%float) Scenario.line)))
  = [("A", "B"); ("B", "C"); ("B", "A")].
Proof. vm_compute. reflexivity. Qed.

(** C4.  Exporting a network that has a node and importing the result
    does not give the network back: [JSON.stringify] writes the
    [connections] set of a node as an empty object, [new Set] of that
    object throws, and the import stops at the first node with a
    [TypeError], leaving an empty network. *)
Theorem export_then_import_throws :
  forall (net net0 : RoadNetwork),
    nodes net <> [] ->
    importFromJSON (exportToJSON net) net0 = (Throw "TypeError", new_RoadNetwork).
Proof.
  intros net net0 Hne. unfold exportToJSON. rewrite import_cleared.
  destruct (nodes net) as [|[k n] rest]; [contradiction|]. reflexivity.
Qed.

Lemma export_then_import_throws_witness :
  nodes Scenario.line <> []
  /\ importFromJSON (exportToJSON Scenario.line) new_RoadNetwork
     = (Throw "TypeError", new_RoadNetwork).
Proof.
  assert (H : nodes Scenario.line <> []) by discriminate.
  split; [exact H|].
  exact (export_then_import_throws Scenario.line new_RoadNetwork H).
Defined.

(** The round trip does succeed for the network without node and edge:
    it gives the empty network with the counter back at 1. *)
Lemma export_then_import_empty net net0 :
  nodes net = [] -> edges net = [] ->
  importFromJSON (exportToJSON net) net0 = (Return tt, new_RoadNetwork).
Proof.
  intros Hn He. unfold exportToJSON. rewrite import_cleared, Hn, He. reflexivity.
Qed.




End StoreProps.

(* ================================================================= *)
(** ** Properties of the test-road overlay *)

Module OverlayProps.
Import Js Overlay.
Local Open Scope string_scope.

Section WithHelpers.

Variable Math_cos : float -> float.
Variable isPointInPolygon : Point -> list Point -> bool.
Variable createPolygonFromPoints : PointSet -> list Point.

(** A road either makes the callback throw or leaves the set alone. *)
Lemma extend_outcome originalResult maxTimeMinutes enhanced road :
  extend isPointInPolygon originalResult maxTimeMinutes enhanced road =
  if reaches_push isPointInPolygon originalResult maxTimeMinutes road
  then Throw "TypeError" else Return enhanced.
Proof.
  unfold extend, reaches_push, pset_push.
  destruct (isPointAccessible isPointInPolygon (startPoint road) originalResult),
    (isPointAccessible isPointInPolygon (endPoint road) originalResult),
    (js_le (walkTime road) maxTimeMinutes); reflexivity.
Qed.

Lemma extend_all_outcome originalResult maxTimeMinutes testRoads :
  forall enhanced,
    extend_all isPointInPolygon originalResult maxTimeMinutes enhanced testRoads =
    if existsb (reaches_push isPointInPolygon originalResult maxTimeMinutes) testRoads
    then Throw "TypeError" else Return enhanced.
Proof.
  induction testRoads as [|road rest IH]; intros enhanced; simpl; [reflexivity|].
  rewrite extend_outcome.
  destruct (reaches_push isPointInPolygon originalResult maxTimeMinutes road);
    [reflexivity | apply IH].
Qed.

Lemma pset_add_keeps s q p :
  pset_has s p = true -> pset_has (pset_add s q) p = true.
Proof.
  unfold pset_add. destruct (pset_has s q); [tauto|].
  unfold pset_has. rewrite existsb_app. intros ->. reflexivity.
Qed.

Lemma pset_add_has s q : pset_has (pset_add s q) q = true.
Proof.
  unfold pset_add. destruct (pset_has s q) eqn:E; [exact E|].
  unfold pset_has. rewrite existsb_app. simpl.
  rewrite Nat.eqb_refl. now rewrite orb_true_r.
Qed.

Lemma fold_pset_add_has l :
  forall acc p,
    pset_has acc p = true \/ In p l ->
    pset_has (fold_left pset_add l acc) p = true.
Proof.
  induction l as [|q rest IH]; simpl; intros acc p [H | H].
  - exact H.
  - destruct H.
  - apply IH. left. now apply pset_add_keeps.
  - destruct H as [-> | H]; apply IH; [left; apply pset_add_has | now right].
Qed.

(** When [enhanceWithTestRoads] returns, no road has reached a [push] and
    every boundary point of the original result is among the boundary
    points it returns. *)
Lemma enhance_keeps_base_points originalResult testRoads maxTimeMinutes r :
  enhanceWithTestRoads Math_cos isPointInPolygon createPolygonFromPoints
    originalResult testRoads maxTimeMinutes = Return r ->
  existsb (reaches_push isPointInPolygon originalResult maxTimeMinutes) testRoads
    = false
  /\ e_boundaryPoints r = new_PointSet (boundaryPoints originalResult)
  /\ forall p, In p (boundaryPoints originalResult) ->
               pset_has (e_boundaryPoints r) p = true.
Proof.
  unfold enhanceWithTestRoads.
  destruct (center originalResult) as [c|]; [|discriminate].
  rewrite extend_all_outcome.
  destruct (existsb _ testRoads); [discriminate|].
  destruct (calculatePolygonArea _ _) as [a|name]; [|discriminate].
  intros [= <-]. simpl. repeat split.
  intros q Hq. apply fold_pset_add_has. now right.
Qed.

(** C3.  The enhanced result is meant to extend the original one, but
    the extension is written [enhancedBoundaryPoints.push(...)] on a
    [Set], which has no [push]: as soon as one of the test roads is
    within the budget and leads from a point inside the original polygon
    to a point outside it (or back), [enhanceWithTestRoads] throws a
    [TypeError] and no enhanced result is produced. *)
Theorem enhance_throws_when_a_road_extends :
  forall (originalResult : OriginalResult) (testRoads : list TestRoad)
         (maxTimeMinutes : value),
    existsb (reaches_push isPointInPolygon originalResult maxTimeMinutes) testRoads
      = true ->
    enhanceWithTestRoads Math_cos isPointInPolygon createPolygonFromPoints
      originalResult testRoads maxTimeMinutes = Throw "TypeError".
Proof.
  intros originalResult testRoads maxTimeMinutes Hroad.
  unfold enhanceWithTestRoads.
  destruct (center originalResult) as [c|]; [|reflexivity].
  now rewrite extend_all_outcome, Hroad.
Qed.

End WithHelpers.

Lemma enhance_throws_when_a_road_extends_witness :
  existsb (reaches_push Scenario.in_unit_square Scenario.original (VNum 10%float))
    [Scenario.road_out] = true
  /\ enhanceWithTestRoads (fun _ => 1%float) Scenario.in_unit_square (fun s => s)
       Scenario.original [Scenario.road_out] (VNum 10%float) = Throw "TypeError".
Proof.
  split; [reflexivity|].
  apply (enhance_throws_when_a_road_extends (fun _ => 1%float)
           Scenario.in_unit_square (fun s => s) Scenario.original
           [Scenario.road_out] (VNum 10%float)).
  reflexivity.
Defined.

End OverlayProps.

(* ================================================================= *)
(** ** More facts about maps, sets and numbers *)

Module MoreFacts.
Import Js RoadNet MapFacts StoreFacts.
Local Open Scope string_scope.

Lemma is_nan_eq (f : float) : is_nan f = true -> f = nan.
Proof.
  intros H. rewrite <- (SF2Prim_Prim2SF f). unfold Prim2SF. now rewrite H.
Qed.

Lemma filter_comm {A} (p q : A -> bool) (l : list A) :
  filter p (filter q l) = filter q (filter p l).
Proof.
  induction l as [|x rest IH]; simpl; [reflexivity|].
  destruct (p x) eqn:P, (q x) eqn:Q; simpl; rewrite ?P, ?Q, IH; reflexivity.
Qed.

Lemma filter_idem {A} (p : A -> bool) (l : list A) :
  filter p (filter p l) = filter p l.
Proof.
  induction l as [|x rest IH]; simpl; [reflexivity|].
  destruct (p x) eqn:P; simpl; rewrite ?P, IH; reflexivity.
Qed.

Lemma filter_all {A} (p : A -> bool) (l : list A) :
  (forall x, In x l -> p x = true) -> filter p l = l.
Proof.
  induction l as [|x rest IH]; simpl; intros H; [reflexivity|].
  rewrite (H x) by now left. f_equal. apply IH. intros y Hy. apply H. now right.
Qed.

Lemma map_delete_comm {V} (m : Map V) (k k' : string) :
  map_delete (map_delete m k) k' = map_delete (map_delete m k') k.
Proof. apply filter_comm. Qed.

Lemma map_delete_idem {V} (m : Map V) (k : string) :
  map_delete (map_delete m k) k = map_delete m k.
Proof. apply filter_idem. Qed.

Lemma map_delete_absent {V} (m : Map V) (k : string) :
  map_has m k = false -> map_delete m k = m.
Proof.
  unfold map_has, map_delete. induction m as [|[k1 v1] rest IH]; simpl; [reflexivity|].
  destruct (String.eqb k1 k) eqn:E; [discriminate|]. simpl.
  intros H. f_equal. now apply IH.
Qed.

Lemma map_delete_set {V} (m : Map V) (k : string) (v : V) :
  map_delete (map_set m k v) k = map_delete m k.
Proof.
  unfold map_delete. induction m as [|[k1 v1] rest IH]; simpl.
  - now rewrite String.eqb_refl.
  - destruct (String.eqb k1 k) eqn:E; simpl.
    + now rewrite String.eqb_refl.
    + rewrite E. simpl. now f_equal.
Qed.

Lemma map_keys_update {V} (m : Map V) (k : string) (f : V -> V) :
  map_keys (map_update m k f) = map_keys m.
Proof.
  unfold map_keys, map_update. rewrite map_map. apply map_ext.
  intros [k1 v1]. simpl. now destruct (String.eqb k1 k).
Qed.

Lemma map_keys_delete {V} (m : Map V) (k : string) :
  map_keys (map_delete m k) = filter (fun y => negb (String.eqb y k)) (map_keys m).
Proof.
  unfold map_keys, map_delete. induction m as [|[k1 v1] rest IH]; simpl; [reflexivity|].
  destruct (String.eqb k1 k); simpl; now rewrite IH.
Qed.

Lemma set_delete_idem s x : set_delete (set_delete s x) x = set_delete s x.
Proof. apply filter_idem. Qed.

Lemma set_delete_absent s x : set_has s x = false -> set_delete s x = s.
Proof.
  intros H. apply filter_all. intros y Hy. apply negb_true_iff, String.eqb_neq.
  intros ->. apply set_has_In in Hy. congruence.
Qed.

Lemma set_has_add s x : set_has (set_add s x) x = true.
Proof. apply set_has_In, set_add_In. now right. Qed.

Lemma set_add_present s x : set_has s x = true -> set_add s x = s.
Proof. unfold set_add. now intros ->. Qed.

(** Adding a new member and deleting it again gives the set back. *)
Lemma set_delete_add s x : set_has s x = false -> set_delete (set_add s x) x = s.
Proof.
  intros H. unfold set_add. rewrite H. unfold set_delete.
  rewrite filter_app. simpl. rewrite String.eqb_refl. simpl.
  rewrite app_nil_r. now apply set_delete_absent.
Qed.

(** [map_update] entry by entry. *)
Lemma map_update_pointwise {V} (m : Map V) (k : string) (f : V -> V) :
  map_update m k f
  = List.map (fun kv => (fst kv, if String.eqb (fst kv) k then f (snd kv) else snd kv)) m.
Proof.
  unfold map_update. apply map_ext. intros [y v]. simpl.
  now destruct (String.eqb y k).
Qed.

Lemma map_get_None_In {V} (m : Map V) (k : string) (v : V) :
  map_get m k = None -> ~ In (k, v) m.
Proof.
  induction m as [|[k' v'] rest IH]; simpl; [tauto|].
  destruct (String.eqb k' k) eqn:E; [discriminate|].
  intros H [Heq | Hin]; [|now apply IH].
  injection Heq as -> _. rewrite String.eqb_refl in E. discriminate.
Qed.

Lemma map_get_None_keys {V} (m : Map V) (k : string) :
  map_get m k = None -> ~ In k (map_keys m).
Proof.
  intros H Hin. unfold map_keys in Hin. apply in_map_iff in Hin as [[k' v] [<- Hin]].
  now apply (map_get_None_In m k' v).
Qed.

Lemma Math_max_nan_l a b : is_nan a = true -> is_nan (Math_max a b) = true.
Proof. unfold Math_max. now intros ->. Qed.

Lemma Math_max_nan_r a b : is_nan b = true -> is_nan (Math_max a b) = true.
Proof. unfold Math_max. intros ->. now rewrite orb_true_r. Qed.

Lemma nan_plus_one f : is_nan f = true -> is_nan (f + 1)%float = true.
Proof. intros H. apply is_nan_eq in H. now subst. Qed.

(** Changing the values of a map goes through [set], [update] and
    [delete]. *)
Lemma values_map_set {V W} (g : V -> W) (m : Map V) (k : string) (v : V) :
  List.map (fun kv => (fst kv, g (snd kv))) (map_set m k v)
  = map_set (List.map (fun kv => (fst kv, g (snd kv))) m) k (g v).
Proof.
  induction m as [|[k' v'] rest IH]; simpl; [reflexivity|].
  destruct (String.eqb k' k); simpl; [reflexivity|]. now rewrite IH.
Qed.

Lemma values_map_update {V W} (g : V -> W) (f : V -> V) (f' : W -> W)
    (m : Map V) (k : string) :
  (forall v, g (f v) = f' (g v)) ->
  List.map (fun kv => (fst kv, g (snd kv))) (map_update m k f)
  = map_update (List.map (fun kv => (fst kv, g (snd kv))) m) k f'.
Proof.
  intros H. unfold map_update. rewrite !map_map. apply map_ext.
  intros [k' v]. simpl. destruct (String.eqb k' k); simpl; [|reflexivity].
  now rewrite H.
Qed.

Lemma values_map_delete {V W} (g : V -> W) (m : Map V) (k : string) :
  List.map (fun kv => (fst kv, g (snd kv))) (map_delete m k)
  = map_delete (List.map (fun kv => (fst kv, g (snd kv))) m) k.
Proof.
  unfold map_delete. induction m as [|[k' v] rest IH]; simpl; [reflexivity|].
  destruct (String.eqb k' k); simpl; now rewrite IH.
Qed.

End MoreFacts.
(* ================================================================= *)
(** ** Further properties of the network store *)

Module StoreLaws.
Import Js RoadNet MapFacts StoreFacts MoreFacts Invariant Checks.
Local Open Scope string_scope.

(** X1.  [addNode] registers the node it returns: the node is found under
    its identifier, has no connection and an empty adjacency set, the
    counter has moved on by one, and the lookups of every other identifier
    are as before. *)
Theorem addNode_registers :
  forall (toString : float -> string) (lng lat : value) (net : RoadNetwork),
    let node := new_RoadNode ("n_" ++ toString (nextNodeId net)) lng lat in
    let net' := snd (addNode toString lng lat net) in
    fst (addNode toString lng lat net) = Return node
    /\ getNode net' (id node) = Some node
    /\ connections node = []
    /\ map_get (adjList net') (id node) = Some []
    /\ nextNodeId net' = (nextNodeId net + 1)%float
    /\ forall k, k <> id node ->
         getNode net' k = getNode net k
         /\ map_get (adjList net') k = map_get (adjList net) k.
Proof.
  intros toString lng lat net node net'. subst node net'.
  unfold addNode, getNode. simpl.
  repeat split; try apply map_get_set_same;
    now apply map_get_set_other.
Qed.

(** X2.  Once the counter is [NaN], [addNode] makes the same identifier
    at every call: the second node replaces the first one under that
    identifier, the node map gains no entry, and the counter stays
    [NaN]. *)
Theorem addNode_repeats_with_NaN_counter :
  forall (toString : float -> string) (lng1 lat1 lng2 lat2 : value)
         (net : RoadNetwork),
    is_nan (nextNodeId net) = true ->
    let first := addNode toString lng1 lat1 net in
    let second := addNode toString lng2 lat2 (snd first) in
    exists n1 n2,
      fst first = Return n1 /\ fst second = Return n2
      /\ id n2 = id n1
      /\ getNode (snd second) (id n1) = Some n2
      /\ map_keys (nodes (snd second)) = map_keys (nodes (snd first))
      /\ is_nan (nextNodeId (snd second)) = true.
Proof.
  intros toString lng1 lat1 lng2 lat2 net Hnan first second. subst first second.
  apply is_nan_eq in Hnan. unfold addNode, getNode. simpl. rewrite Hnan.
  do 2 eexists. repeat split.
  - apply map_get_set_same.
  - eapply map_set_keys_same. apply map_get_set_same.
Qed.

Lemma addNode_repeats_with_NaN_counter_witness :
  exists n1 n2,
    fst (addNode digit_text (VNum 1%float) (VNum 1%float) Scenario.line) = Return n1
    /\ fst (addNode digit_text (VNum 2%float) (VNum 2%float)
              (snd (addNode digit_text (VNum 1%float) (VNum 1%float) Scenario.line)))
       = Return n2
    /\ id n2 = id n1
    /\ getNode
         (snd (addNode digit_text (VNum 2%float) (VNum 2%float)
                 (snd (addNode digit_text (VNum 1%float) (VNum 1%float)
                         Scenario.line))))
         (id n1) = Some n2
    /\ map_keys
         (nodes
            (snd (addNode digit_text (VNum 2%float) (VNum 2%float)
                    (snd (addNode digit_text (VNum 1%float) (VNum 1%float)
                            Scenario.line)))))
       = map_keys
           (nodes (snd (addNode digit_text (VNum 1%float) (VNum 1%float)
                          Scenario.line)))
    /\ is_nan
         (nextNodeId
            (snd (addNode digit_text (VNum 2%float) (VNum 2%float)
                    (snd (addNode digit_text (VNum 1%float) (VNum 1%float)
                            Scenario.line))))) = true.
Proof.
  apply (addNode_repeats_with_NaN_counter digit_text (VNum 1%float) (VNum 1%float)
           (VNum 2%float) (VNum 2%float) Scenario.line).
  reflexivity.
Defined.

Lemma neighbours_updated net' net a b f g y :
  adjList net' = map_update (map_update (adjList net) a f) b g ->
  neighbours net' y =
  match map_get (adjList net) y with
  | Some s =>
      (if String.eqb y b then g else fun s => s)
        ((if String.eqb y a then f else fun s => s) s)
  | None => []
  end.
Proof.
  intros Hn. unfold neighbours. rewrite Hn, !map_get_update.
  destruct (map_get (adjList net) y) as [s|]; simpl; [|reflexivity].
  now destruct (String.eqb y b), (String.eqb y a).
Qed.

Lemma neighbours_updated_delete net a b y :
  neighbours (removeEdge a b net) y =
  match map_get (adjList net) y with
  | Some s =>
      (if String.eqb y b then (fun s => set_delete s a) else fun s => s)
        ((if String.eqb y a then (fun s => set_delete s b) else fun s => s) s)
  | None => []
  end.
Proof.
  apply neighbours_updated. rewrite removeEdge_eq. reflexivity.
Qed.

(** X3.  After an [addEdge] that returns, each endpoint is in the
    adjacency set and in the connection set of the other, [findEdge] from
    [a] to [b] gives the new edge, and [findEdge] from [b] to [a] finds an
    edge too. *)
Theorem addEdge_links_both_ways :
  forall (net : RoadNetwork) (a b : string) (len : value),
    fst (addEdge a b len net) = Return tt ->
    let net' := snd (addEdge a b len net) in
    In b (neighbours net' a) /\ In a (neighbours net' b)
    /\ In b (connections_of net' a) /\ In a (connections_of net' b)
    /\ Dijkstra.findEdge net' a b = Some (new_RoadEdge a b len)
    /\ Dijkstra.findEdge net' b a <> None.
Proof.
  intros net a b len Hret net'. subst net'.
  pose proof (addEdge_outcome net a b len) as Hout. rewrite Hret in Hout.
  destruct (map_has (nodes net) a) eqn:Hna; [|discriminate].
  destruct (map_has (nodes net) b) eqn:Hnb; [|discriminate].
  destruct (map_has (adjList net) a) eqn:Haa; [|discriminate].
  destruct (map_has (adjList net) b) eqn:Hab; [|discriminate]. clear Hout.
  assert (He : edges (snd (addEdge a b len net))
               = map_set (edges net) (edgeKey a b) (new_RoadEdge a b len))
    by apply addEdge_edges.
  destruct (addEdge_returns _ _ _ _ Hret) as (_ & _ & Hst).
  unfold map_has in *.
  destruct (map_get (nodes net) a) as [na|] eqn:Ena; [|discriminate].
  destruct (map_get (nodes net) b) as [nb|] eqn:Enb; [|discriminate].
  destruct (map_get (adjList net) a) as [sa|] eqn:Eaa; [|discriminate].
  destruct (map_get (adjList net) b) as [sb|] eqn:Eab; [|discriminate].
  repeat split.
  - rewrite (neighbours_updated _ net a b (fun s => set_add s b) (fun s => set_add s a))
      by (rewrite Hst; reflexivity).
    rewrite Eaa, String.eqb_refl.
    destruct (String.eqb a b); rewrite ?set_add_In; rewrite ?set_add_In; tauto.
  - rewrite (neighbours_updated _ net a b (fun s => set_add s b) (fun s => set_add s a))
      by (rewrite Hst; reflexivity).
    rewrite Eab, String.eqb_refl.
    destruct (String.eqb_spec b a) as [->|]; rewrite ?set_add_In; tauto.
  - rewrite (connections_of_updated _ net a b
               (fun s => set_add s b) (fun s => set_add s a))
      by (rewrite Hst; reflexivity).
    rewrite Ena, String.eqb_refl.
    destruct (String.eqb a b); rewrite ?set_add_In; rewrite ?set_add_In; tauto.
  - rewrite (connections_of_updated _ net a b
               (fun s => set_add s b) (fun s => set_add s a))
      by (rewrite Hst; reflexivity).
    rewrite Enb, String.eqb_refl.
    destruct (String.eqb_spec b a) as [->|]; rewrite ?set_add_In; tauto.
  - unfold Dijkstra.findEdge. now rewrite He, map_get_set_same.
  - unfold Dijkstra.findEdge. rewrite He.
    destruct (map_get _ (edgeKey b a)); [discriminate|].
    now rewrite map_get_set_same.
Qed.

Lemma addEdge_links_both_ways_witness :
  In "C" (neighbours (snd (addEdge "A" "C" (VNum 150%float) Scenario.line)) "A")
  /\ In "A" (neighbours (snd (addEdge "A" "C" (VNum 150%float) Scenario.line)) "C")
  /\ In "C" (connections_of (snd (addEdge "A" "C" (VNum 150%float) Scenario.line)) "A")
  /\ In "A" (connections_of (snd (addEdge "A" "C" (VNum 150%float) Scenario.line)) "C")
  /\ Dijkstra.findEdge (snd (addEdge "A" "C" (VNum 150%float) Scenario.line)) "A" "C"
     = Some (new_RoadEdge "A" "C" (VNum 150%float))
  /\ Dijkstra.findEdge (snd (addEdge "A" "C" (VNum 150%float) Scenario.line)) "C" "A"
     <> None.
Proof.
  apply (addEdge_links_both_ways Scenario.line "A" "C" (VNum 150%float)).
  reflexivity.
Defined.

End StoreLaws.

(* ================================================================= *)
(** ** Removing edges *)

Module EdgeLaws.
Import Js RoadNet MapFacts StoreFacts MoreFacts Invariant Checks StoreLaws.
Local Open Scope string_scope.

(** Case analysis on the key of an entry against the keys updated. *)
Ltac key_cases :=
  repeat match goal with
         | |- context [String.eqb ?x ?y] =>
             destruct (String.eqb_spec x y); simpl in *; subst
         end.

Lemma removeEdge_sym net a b : removeEdge a b net = removeEdge b a net.
Proof.
  rewrite !removeEdge_eq. f_equal.
  - unfold map_update. rewrite !map_map. apply map_ext. intros [y n]. simpl.
    key_cases; try reflexivity; try congruence.
  - apply map_delete_comm.
  - unfold map_update. rewrite !map_map. apply map_ext. intros [y s]. simpl.
    key_cases; try reflexivity; try congruence.
Qed.

Lemma removeEdge_idem net a b :
  removeEdge a b (removeEdge a b net) = removeEdge a b net.
Proof.
  rewrite !removeEdge_eq. simpl. f_equal.
  - unfold map_update. rewrite !map_map. apply map_ext. intros [y n]. simpl.
    key_cases; try reflexivity; try congruence;
      unfold with_connections; simpl; now rewrite !set_delete_idem.
  - rewrite (map_delete_comm (map_delete (edges net) (edgeKey a b))
               (edgeKey b a) (edgeKey a b)).
    now rewrite !map_delete_idem.
  - unfold map_update. rewrite !map_map. apply map_ext. intros [y s]. simpl.
    key_cases; try reflexivity; try congruence; now rewrite !set_delete_idem.
Qed.

(** X4.  [removeEdge] is symmetric and idempotent: removing the edge
    from [a] to [b] and removing it from [b] to [a] leave the same
    network, and a second removal of the same edge, in either direction,
    changes nothing. *)
Theorem removeEdge_symmetric_and_idempotent :
  forall (net : RoadNetwork) (a b : string),
    removeEdge a b net = removeEdge b a net
    /\ removeEdge a b (removeEdge a b net) = removeEdge a b net
    /\ removeEdge b a (removeEdge a b net) = removeEdge a b net.
Proof.
  intros net a b. split; [apply removeEdge_sym|].
  split; [apply removeEdge_idem|].
  rewrite (removeEdge_sym (removeEdge a b net) b a). apply removeEdge_idem.
Qed.

(** X5.  After [removeEdge(a, b)] no edge is found between [a] and
    [b] in either direction and neither is a neighbour or a connection of
    the other; the edges under other keys, the node identifiers and the
    identifiers that have an adjacency set are as before. *)
Theorem removeEdge_unlinks :
  forall (net : RoadNetwork) (a b : string),
    let net' := removeEdge a b net in
    Dijkstra.findEdge net' a b = None /\ Dijkstra.findEdge net' b a = None
    /\ ~ In b (neighbours net' a) /\ ~ In a (neighbours net' b)
    /\ ~ In b (connections_of net' a) /\ ~ In a (connections_of net' b)
    /\ (forall k, k <> edgeKey a b -> k <> edgeKey b a ->
                  map_get (edges net') k = map_get (edges net) k)
    /\ map_keys (nodes net') = map_keys (nodes net)
    /\ map_keys (adjList net') = map_keys (adjList net).
Proof.
  intros net a b net'. subst net'.
  assert (E1 : map_get (edges (removeEdge a b net)) (edgeKey a b) = None).
  { rewrite removeEdge_eq. simpl. apply map_get_None_delete, map_get_delete_same. }
  assert (E2 : map_get (edges (removeEdge a b net)) (edgeKey b a) = None).
  { rewrite removeEdge_eq. simpl. apply map_get_delete_same. }
  assert (HN : forall y z,
             In z (neighbours (removeEdge a b net) y) ->
             ~ (y = a /\ z = b) /\ ~ (y = b /\ z = a)).
  { intros y z.
    rewrite (neighbours_updated_delete net a b y).
    destruct (map_get (adjList net) y) as [s|]; [|intros []].
    destruct (String.eqb_spec y b), (String.eqb_spec y a);
      rewrite ?set_delete_In; intuition congruence. }
  assert (HC : forall y z,
             In z (connections_of (removeEdge a b net) y) ->
             ~ (y = a /\ z = b) /\ ~ (y = b /\ z = a)).
  { intros y z.
    rewrite (connections_of_updated _ net a b
               (fun s => set_delete s b) (fun s => set_delete s a))
      by (rewrite removeEdge_eq; reflexivity).
    destruct (map_get (nodes net) y) as [n|]; [|intros []].
    destruct (String.eqb_spec y b), (String.eqb_spec y a);
      rewrite ?set_delete_In; intuition congruence. }
  unfold Dijkstra.findEdge. rewrite E1, E2.
  repeat split; try reflexivity.
  - intros H. apply HN in H. tauto.
  - intros H. apply HN in H. tauto.
  - intros H. apply HC in H. tauto.
  - intros H. apply HC in H. tauto.
  - intros k H1 H2. rewrite removeEdge_eq. simpl.
    now rewrite !map_get_delete_other.
  - rewrite removeEdge_eq. simpl. now rewrite !map_keys_update.
  - rewrite removeEdge_eq. simpl. now rewrite !map_keys_update.
Qed.

(** X6.  Adding an edge between two nodes that nothing links yet and
    removing it again gives back the network as it was. *)
Theorem addEdge_then_removeEdge :
  forall (net : RoadNetwork) (a b : string) (len : value),
    apart a b net = true ->
    fst (addEdge a b len net) = Return tt ->
    removeEdge a b (snd (addEdge a b len net)) = net.
Proof.
  intros net a b len Hap Hret.
  destruct (addEdge_returns _ _ _ _ Hret) as (_ & _ & ->).
  rewrite removeEdge_eq. simpl.
  unfold apart in Hap. rewrite !andb_true_iff, !negb_true_iff in Hap.
  destruct Hap as [[[He1 He2] Hadj] Hnodes].
  rewrite forallb_forall in Hadj, Hnodes.
  destruct net as [N E A c]. simpl in *. f_equal.
  - rewrite !map_update_pointwise, !map_map.
    rewrite <- (map_id N) at 2. apply map_ext_in. intros [y n] Hin.
    specialize (Hnodes _ Hin). simpl in Hnodes. simpl. f_equal.
    destruct (String.eqb_spec y a) as [Ea|Ea], (String.eqb_spec y b) as [Eb|Eb];
      simpl in *; unfold with_connections; simpl;
      rewrite ?andb_false_r, ?andb_true_r, ?andb_false_l, ?andb_true_l in Hnodes;
      simpl in Hnodes; try apply andb_true_iff in Hnodes as [H1 H2];
      rewrite ?negb_true_iff in *.
    + subst a b.
      rewrite (set_add_present (set_add _ _)) by apply set_has_add.
      rewrite set_delete_add by assumption.
      rewrite set_delete_absent by assumption. now destruct n.
    + rewrite set_delete_add by assumption. now destruct n.
    + rewrite set_delete_add by assumption. now destruct n.
    + now destruct n.
  - rewrite map_delete_set, (map_delete_absent _ _ He1).
    now apply map_delete_absent.
  - rewrite !map_update_pointwise, !map_map.
    rewrite <- (map_id A) at 2. apply map_ext_in. intros [y s] Hin.
    specialize (Hadj _ Hin). simpl in Hadj. simpl. f_equal.
    destruct (String.eqb_spec y a) as [Ea|Ea], (String.eqb_spec y b) as [Eb|Eb];
      simpl in *;
      rewrite ?andb_false_r, ?andb_true_r, ?andb_false_l, ?andb_true_l in Hadj;
      simpl in Hadj; try apply andb_true_iff in Hadj as [H1 H2];
      rewrite ?negb_true_iff in *.
    + subst a b.
      rewrite (set_add_present (set_add _ _)) by apply set_has_add.
      rewrite set_delete_add by assumption.
      now rewrite set_delete_absent by assumption.
    + now rewrite set_delete_add by assumption.
    + now rewrite set_delete_add by assumption.
    + reflexivity.
Qed.

Lemma addEdge_then_removeEdge_witness :
  removeEdge "A" "C" (snd (addEdge "A" "C" (VNum 150%float) Scenario.line))
  = Scenario.line.
Proof.
  apply (addEdge_then_removeEdge Scenario.line "A" "C" (VNum 150%float));
    reflexivity.
Defined.

(** X7.  [findEdge] finds an edge from [a] to [b] exactly when it finds
    one from [b] to [a], namely when one of the two keys is in the edge
    map; the records it returns for the two directions may differ. *)
Theorem findEdge_presence_is_symmetric :
  forall (net : RoadNetwork) (a b : string),
    (Dijkstra.findEdge net a b = None <-> Dijkstra.findEdge net b a = None)
    /\ (Dijkstra.findEdge net a b = None <->
        map_has (edges net) (edgeKey a b) = false
        /\ map_has (edges net) (edgeKey b a) = false).
Proof.
  intros net a b. unfold Dijkstra.findEdge, map_has.
  destruct (map_get (edges net) (edgeKey a b)),
    (map_get (edges net) (edgeKey b a)); intuition discriminate.
Qed.

End EdgeLaws.

(* ================================================================= *)
(** ** Removing nodes, and importing *)

Module NodeLaws.
Import Js RoadNet MapFacts StoreFacts MoreFacts Invariant Checks StoreLaws.
Local Open Scope string_scope.

(** The adjacency map stays the image of the node map. *)
Lemma mirrored_addNode toString lng lat net :
  mirrored net -> mirrored (snd (addNode toString lng lat net)).
Proof.
  unfold mirrored, addNode. cbn [snd adjList nodes with_adjList with_nodes
                                 with_nextNodeId].
  intros ->. now rewrite values_map_set.
Qed.

Lemma mirrored_addEdge a b len net :
  fst (addEdge a b len net) = Return tt ->
  mirrored net -> mirrored (snd (addEdge a b len net)).
Proof.
  intros Hret Hm. destruct (addEdge_returns net a b len Hret) as (_ & _ & ->).
  unfold mirrored in *. cbn [adjList nodes]. rewrite Hm.
  rewrite (values_map_update connections
             (fun n => with_connections n (set_add (connections n) a))
             (fun s => set_add s a)) by reflexivity.
  now rewrite (values_map_update connections
                 (fun n => with_connections n (set_add (connections n) b))
                 (fun s => set_add s b)) by reflexivity.
Qed.

Lemma mirrored_removeEdge a b net :
  mirrored net -> mirrored (removeEdge a b net).
Proof.
  intros Hm. rewrite removeEdge_eq. unfold mirrored in *. cbn [adjList nodes].
  rewrite Hm.
  rewrite (values_map_update connections
             (fun n => with_connections n (set_delete (connections n) a))
             (fun s => set_delete s a)) by reflexivity.
  now rewrite (values_map_update connections
                 (fun n => with_connections n (set_delete (connections n) b))
                 (fun s => set_delete s b)) by reflexivity.
Qed.

Lemma mirrored_removeNode_loop x todo :
  forall net, mirrored net -> mirrored (removeNode_loop x todo net).
Proof.
  induction todo as [|w rest IH]; intros net Hm; simpl; [exact Hm|].
  apply IH. destruct (set_has (connections_of net x) w); [|exact Hm].
  now apply mirrored_removeEdge.
Qed.

Lemma mirrored_removeNode x net :
  mirrored net -> mirrored (removeNode x net).
Proof.
  intros Hm. unfold removeNode.
  destruct (map_get (nodes net) x) as [node|]; [|exact Hm].
  pose proof (mirrored_removeNode_loop x (connections node) net Hm) as H.
  unfold mirrored in *. cbn [adjList nodes with_adjList with_nodes].
  rewrite H. now rewrite values_map_delete.
Qed.

(** X8.  The four functions that change the network keep its invariants.
    The invariants are: every connection is mutual; the adjacency map is
    the node map with each node replaced by its connection set, so the
    two maps have the same identifiers and the adjacency set of a node is
    its connection set; every edge is stored under the key of its
    endpoints, and its target is a connection of its origin.  [addNode]
    keeps them when the identifier it makes is not yet a node, [addEdge]
    when it returns, and [removeEdge] and [removeNode] always. *)
Theorem changes_keep_consistency :
  forall (toString : float -> string) (net : RoadNetwork),
    consistent net = true ->
    mirrored net ->
    (forall lng lat,
        getNode net ("n_" ++ toString (nextNodeId net)) = None ->
        consistent (snd (addNode toString lng lat net)) = true
        /\ mirrored (snd (addNode toString lng lat net)))
    /\ (forall a b len,
          fst (addEdge a b len net) = Return tt ->
          consistent (snd (addEdge a b len net)) = true
          /\ mirrored (snd (addEdge a b len net)))
    /\ (forall a b,
          consistent (removeEdge a b net) = true
          /\ mirrored (removeEdge a b net))
    /\ (forall x,
          consistent (removeNode x net) = true
          /\ mirrored (removeNode x net)).
Proof.
  intros toString net Hc Hm. apply consistent_spec in Hc.
  split; [|split; [|split]].
  - intros lng lat Hnew. split; [|now apply mirrored_addNode].
    now apply consistent_spec, addNode_holds.
  - intros a b len Hret. split; [|now apply mirrored_addEdge].
    now apply consistent_spec, addEdge_holds.
  - intros a b. split; [|now apply mirrored_removeEdge].
    now apply consistent_spec, removeEdge_holds.
  - intros x. split; [|now apply mirrored_removeNode].
    now apply consistent_spec, removeNode_holds.
Qed.

Lemma changes_keep_consistency_witness :
  (consistent (snd (addEdge "A" "C" (VNum 150%float) Scenario.line)) = true
   /\ mirrored (snd (addEdge "A" "C" (VNum 150%float) Scenario.line)))
  /\ (consistent (removeEdge "B" "A" Scenario.line) = true
      /\ mirrored (removeEdge "B" "A" Scenario.line))
  /\ (consistent (removeNode "B" Scenario.line) = true
      /\ mirrored (removeNode "B" Scenario.line)).
Proof.
  destruct (changes_keep_consistency digit_text Scenario.line eq_refl eq_refl)
    as (_ & Hadd & Hedge & Hnode).
  split; [exact (Hadd "A" "C" (VNum 150%float) eq_refl)|].
  split; [exact (Hedge "B" "A") | exact (Hnode "B")].
Defined.

(** X9.  [removeNode] is idempotent: once [x] is removed, removing it
    again changes nothing. *)
Theorem removeNode_idempotent :
  forall (net : RoadNetwork) (x : string),
    removeNode x (removeNode x net) = removeNode x net.
Proof.
  intros net x.
  assert (H : map_get (nodes (removeNode x net)) x = None).
  { unfold removeNode. destruct (map_get (nodes net) x) eqn:E; [|exact E].
    simpl. apply map_get_delete_same. }
  unfold removeNode at 1. now rewrite H.
Qed.

Lemma removeEdge_same_data net a b y n' :
  In (y, n') (nodes (removeEdge a b net)) ->
  exists n, In (y, n) (nodes net) /\ same_data n' n.
Proof.
  rewrite removeEdge_eq. simpl. intros H.
  apply map_update_In in H as (n1 & H & ->).
  apply map_update_In in H as (n0 & H & ->).
  exists n0. split; [exact H|].
  destruct (String.eqb y b), (String.eqb y a); repeat split.
Qed.

Lemma removeNode_loop_nodes x todo :
  forall net,
    map_keys (nodes (removeNode_loop x todo net)) = map_keys (nodes net)
    /\ forall y n', In (y, n') (nodes (removeNode_loop x todo net)) ->
                    exists n, In (y, n) (nodes net) /\ same_data n' n.
Proof.
  induction todo as [|w rest IH]; intros net; simpl.
  - split; [reflexivity|]. intros y n' H. exists n'. repeat split. exact H.
  - destruct (IH (if set_has (connections_of net x) w
                  then removeEdge x w net else net)) as [K D].
    destruct (set_has (connections_of net x) w).
    + split.
      * rewrite K, removeEdge_eq. simpl. now rewrite !map_keys_update.
      * intros y n' H. destruct (D _ _ H) as (n1 & H1 & S1).
        destruct (removeEdge_same_data _ _ _ _ _ H1) as (n0 & H0 & S0).
        exists n0. split; [exact H0|].
        destruct S1 as (? & ? & ? & ?), S0 as (? & ? & ? & ?).
        repeat split; congruence.
    + split; [exact K | exact D].
Qed.

(** X10.  [removeNode(x)] takes no other node away: the node identifiers
    after the call are those before it without [x], in the same order,
    and every remaining node has its identifier, coordinates and boundary
    flag unchanged. *)
Theorem removeNode_keeps_other_nodes :
  forall (net : RoadNetwork) (x : string),
    map_keys (nodes (removeNode x net))
    = filter (fun y => negb (String.eqb y x)) (map_keys (nodes net))
    /\ forall y n', In (y, n') (nodes (removeNode x net)) ->
         y <> x /\ exists n, In (y, n) (nodes net) /\ same_data n' n.
Proof.
  intros net x. unfold removeNode.
  destruct (map_get (nodes net) x) as [node|] eqn:Ex.
  - destruct (removeNode_loop_nodes x (connections node) net) as [K D]. simpl.
    split.
    + now rewrite map_keys_delete, K.
    + intros y n' H. apply map_delete_In in H as [H Hy]. split; [exact Hy|].
      now apply D.
  - split.
    + symmetry. apply filter_all. intros y Hy.
      apply negb_true_iff, String.eqb_neq. intros ->.
      now apply (map_get_None_keys _ _ Ex).
    + intros y n' H. split.
      * intros ->. now apply (map_get_None_In _ _ n' Ex).
      * exists n'. repeat split. exact H.
Qed.

End NodeLaws.

Module ImportLaws.
Import Js RoadNet MapFacts StoreFacts MoreFacts Invariant Checks StoreLaws.
Local Open Scope string_scope.

(** What the node loop of an import that returns has done. *)
Lemma import_node_result node net :
  fst (import_node node net) = Return tt ->
  (forall k, map_has (nodes (snd (import_node node net))) k
             = (String.eqb k (j_id node) || map_has (nodes net) k)%bool)
  /\ edges (snd (import_node node net)) = edges net
  /\ (forall k s, In (k, s) (adjList (snd (import_node node net))) ->
                  In (k, s) (adjList net) \/ s = [])
  /\ nextNodeId (snd (import_node node net))
     = Math_max (nextNodeId net) (parse_id_suffix (j_id node) + 1)%float.
Proof.
  unfold import_node, bind, modify, new_Set.
  destruct (j_connections node); simpl; try discriminate; intros _;
    (split; [intros k; apply map_has_set|]); (split; [reflexivity|]);
    (split; [|reflexivity]); intros k s H;
    apply map_set_In in H as [[_ ->] | H]; auto.
Qed.

Lemma import_nodes_result ns :
  forall net,
    fst (forEach ns import_node net) = Return tt ->
    (forall k, map_has (nodes (snd (forEach ns import_node net))) k
               = (set_has (snapshot_ids ns) k || map_has (nodes net) k)%bool)
    /\ edges (snd (forEach ns import_node net)) = edges net
    /\ (forall k s, In (k, s) (adjList (snd (forEach ns import_node net))) ->
                    In (k, s) (adjList net) \/ s = [])
    /\ (is_nan (nextNodeId net) = true
        \/ existsb (fun n => is_nan (parse_id_suffix (j_id n))) ns = true ->
        is_nan (nextNodeId (snd (forEach ns import_node net))) = true).
Proof.
  induction ns as [|node rest IH]; intros net; simpl.
  - intros _. repeat split; auto. intros [H | H]; [exact H | discriminate].
  - unfold bind. pose proof (import_node_result node net) as Hn.
    destruct (import_node node net) as [[[]|name] net1]; [|discriminate].
    simpl in Hn. destruct (Hn eq_refl) as (N1 & E1 & A1 & C1). clear Hn.
    intros Hret. destruct (IH net1 Hret) as (N2 & E2 & A2 & C2).
    split; [|split; [|split]].
    + intros k. rewrite N2, N1. unfold set_has. simpl.
      now destruct (String.eqb k (j_id node)),
        (existsb (String.eqb k) (snapshot_ids rest)).
    + congruence.
    + intros k s H. destruct (A2 _ _ H) as [H1 | ->]; auto.
    + intros H. apply C2. rewrite C1.
      destruct H as [H | H]; [left; now apply Math_max_nan_l|].
      apply orb_true_iff in H as [H | H]; [|now right].
      left. now apply Math_max_nan_r, nan_plus_one.
Qed.

(** What an edge that is imported without error has done. *)
Lemma import_edge_result e net :
  fst (import_edge e net) = Return tt ->
  nodes (snd (import_edge e net)) = nodes net
  /\ nextNodeId (snd (import_edge e net)) = nextNodeId net
  /\ (forall k, map_has (adjList (snd (import_edge e net))) k
                = map_has (adjList net) k)
  /\ forall a b, In b (neighbours (snd (import_edge e net)) a)
                 <-> In b (neighbours net a) \/ joins a b e = true.
Proof.
  unfold import_edge, bind, modify. rewrite adjList_add_outcome.
  cbn [adjList with_edges].
  destruct (map_has (adjList net) (from e)) eqn:Ef; [|discriminate].
  rewrite adjList_add_outcome. cbn [adjList with_adjList].
  rewrite map_has_update.
  destruct (map_has (adjList net) (to e)) eqn:Et; [|discriminate].
  cbn [fst snd]. intros _.
  split; [reflexivity|]. split; [reflexivity|].
  split; [intros k; cbn [adjList with_adjList]; now rewrite !map_has_update|].
  intros a b.
  rewrite (neighbours_updated _ net (from e) (to e)
             (fun s => set_add s (to e)) (fun s => set_add s (from e)))
    by reflexivity.
  unfold neighbours, joins, map_has in *.
  destruct (map_get (adjList net) a) as [s|] eqn:Ea.
  - destruct (String.eqb_spec a (to e)) as [Hto|Hto],
      (String.eqb_spec a (from e)) as [Hfrom|Hfrom];
      rewrite ?set_add_In;
      repeat match goal with
             | |- context [String.eqb ?x ?y] => destruct (String.eqb_spec x y)
             end; simpl; intuition congruence.
  - split; [intros []|]. intros [[] | H].
    apply orb_true_iff in H as [H | H]; apply andb_true_iff in H as [H1 H2];
      apply String.eqb_eq in H1, H2; subst a.
    + now rewrite Ea in Ef.
    + now rewrite Ea in Et.
Qed.

Lemma import_edges_result es :
  forall net,
    fst (forEach es import_edge net) = Return tt ->
    nodes (snd (forEach es import_edge net)) = nodes net
    /\ nextNodeId (snd (forEach es import_edge net)) = nextNodeId net
    /\ (forall k, map_has (adjList (snd (forEach es import_edge net))) k
                  = map_has (adjList net) k)
    /\ forall a b, In b (neighbours (snd (forEach es import_edge net)) a)
                   <-> In b (neighbours net a) \/ existsb (joins a b) es = true.
Proof.
  induction es as [|e rest IH]; intros net; simpl.
  - intros _. repeat split; auto. intros [H | H]; [exact H | discriminate].
  - unfold bind. pose proof (import_edge_result e net) as He.
    destruct (import_edge e net) as [[[]|name] net1]; [|discriminate].
    simpl in He. destruct (He eq_refl) as (N1 & C1 & K1 & A1). clear He.
    intros Hret. destruct (IH net1 Hret) as (N2 & C2 & K2 & A2).
    split; [congruence|]. split; [congruence|].
    split; [intros k; now rewrite K2, K1|].
    intros a b. rewrite A2, A1, orb_true_iff. tauto.
Qed.

(** The two loops of an import that returns. *)
Lemma import_returns ns es net :
  fst (importFromJSON (Encodes (mkJsonData (Some ns) (Some es))) net) = Return tt ->
  let net1 := snd (forEach ns import_node new_RoadNetwork) in
  fst (forEach ns import_node new_RoadNetwork) = Return tt
  /\ fst (forEach es import_edge net1) = Return tt
  /\ snd (importFromJSON (Encodes (mkJsonData (Some ns) (Some es))) net)
     = snd (forEach es import_edge net1).
Proof.
  rewrite import_cleared. cbn [j_nodes j_edges property]. unfold bind, ret.
  destruct (forEach ns import_node new_RoadNetwork) as [[[]|name] net1];
    [|discriminate].
  cbn [fst snd]. destruct (forEach es import_edge net1) as [[[]|name] net2];
    [|discriminate].
  intros _. repeat split.
Qed.

(** X11.  After an import that returns, the adjacency sets are those of
    the edge list of the snapshot: [b] is a neighbour of [a] exactly when
    an edge of the list joins them, in either direction; so adjacency is
    mutual. *)
Theorem import_builds_adjacency_from_edges :
  forall (ns : list JsonNode) (es : list RoadEdge) (net : RoadNetwork),
    fst (importFromJSON (Encodes (mkJsonData (Some ns) (Some es))) net)
      = Return tt ->
    let net' := snd (importFromJSON (Encodes (mkJsonData (Some ns) (Some es))) net) in
    forall a b,
      (In b (neighbours net' a) <-> existsb (joins a b) es = true)
      /\ (In b (neighbours net' a) <-> In a (neighbours net' b)).
Proof.
  intros ns es net Hret net' a b. subst net'.
  destruct (import_returns ns es net Hret) as (Hn & He & ->).
  destruct (import_nodes_result ns new_RoadNetwork Hn) as (_ & _ & Hadj & _).
  destruct (import_edges_result es _ He) as (_ & _ & _ & HA).
  assert (Hempty : forall x,
             neighbours (snd (forEach ns import_node new_RoadNetwork)) x = []).
  { intros x. unfold neighbours.
    destruct (map_get _ x) as [s|] eqn:E; [|reflexivity].
    apply map_get_In in E. destruct (Hadj _ _ E) as [[] | ->]. reflexivity. }
  assert (Hsym : existsb (joins a b) es = existsb (joins b a) es).
  { apply existsb_ext. intros e. unfold joins. apply orb_comm. }
  rewrite !HA, !Hempty, Hsym. simpl. tauto.
Qed.

Lemma import_builds_adjacency_from_edges_witness :
  (In "B" (neighbours Scenario.line72 "A")
   <-> existsb (joins "A" "B")
         [mkRoadEdge "A" "B" (VNum 100%float) (VNum 72%float);
          mkRoadEdge "B" "C" (VNum 100%float) (VNum 72%float)] = true)
  /\ (In "B" (neighbours Scenario.line72 "A")
      <-> In "A" (neighbours Scenario.line72 "B")).
Proof.
  apply (import_builds_adjacency_from_edges
           [mkJsonNode "A" (VNum 0%float) (VNum 0%float) (ConnArray ["B"]) VUndef;
            mkJsonNode "B" (VNum 0.001%float) (VNum 0%float)
              (ConnArray ["A"; "C"]) VUndef;
            mkJsonNode "C" (VNum 0.002%float) (VNum 0%float) (ConnArray ["B"]) VUndef]
           [mkRoadEdge "A" "B" (VNum 100%float) (VNum 72%float);
            mkRoadEdge "B" "C" (VNum 100%float) (VNum 72%float)]
           new_RoadNetwork eq_refl "A" "B").
Defined.

(** X12.  After an import that returns, the nodes of the network are
    exactly the identifiers of the node list of the snapshot, and exactly
    those have an adjacency set. *)
Theorem import_nodes_are_the_listed_ids :
  forall (ns : list JsonNode) (es : list RoadEdge) (net : RoadNetwork),
    fst (importFromJSON (Encodes (mkJsonData (Some ns) (Some es))) net)
      = Return tt ->
    let net' := snd (importFromJSON (Encodes (mkJsonData (Some ns) (Some es))) net) in
    forall k,
      map_has (nodes net') k = set_has (snapshot_ids ns) k
      /\ map_has (adjList net') k = set_has (snapshot_ids ns) k.
Proof.
  intros ns es net Hret net' k. subst net'.
  destruct (import_returns ns es net Hret) as (Hn & He & ->).
  destruct (import_nodes_result ns new_RoadNetwork Hn) as (HN & _ & _ & _).
  destruct (import_edges_result es _ He) as (N2 & _ & K2 & _).
  pose proof (import_nodes_adjList ns new_RoadNetwork) as HA.
  destruct (forEach ns import_node new_RoadNetwork) as [[[]|name] net1];
    [|discriminate].
  simpl in *. rewrite N2, K2, HN, HA. simpl. now rewrite !orb_false_r.
Qed.

Lemma import_nodes_are_the_listed_ids_witness :
  map_has (nodes Scenario.bare) "n_1" = set_has ["n_1"; "n_2"] "n_1"
  /\ map_has (adjList Scenario.bare) "n_1" = set_has ["n_1"; "n_2"] "n_1".
Proof.
  apply (import_nodes_are_the_listed_ids
           [Scenario.plain_node "n_1" 0%float; Scenario.plain_node "n_2" 0.001%float]
           [mkRoadEdge "n_1" "n_2" (VNum 100%float) (VNum 72%float)]
           new_RoadNetwork eq_refl "n_1").
Defined.

(** X13.  When an identifier of the node list has no number after its
    first ["_"], so that [parseInt] gives [NaN], an import that returns
    leaves the counter [nextNodeId] at [NaN]. *)
Theorem import_without_numbers_spoils_counter :
  forall (ns : list JsonNode) (es : list RoadEdge) (net : RoadNetwork),
    existsb (fun n => is_nan (parse_id_suffix (j_id n))) ns = true ->
    fst (importFromJSON (Encodes (mkJsonData (Some ns) (Some es))) net)
      = Return tt ->
    is_nan
      (nextNodeId
         (snd (importFromJSON (Encodes (mkJsonData (Some ns) (Some es))) net)))
    = true.
Proof.
  intros ns es net Hbad Hret.
  destruct (import_returns ns es net Hret) as (Hn & He & ->).
  destruct (import_nodes_result ns new_RoadNetwork Hn) as (_ & _ & _ & HC).
  destruct (import_edges_result es _ He) as (_ & C2 & _ & _).
  rewrite C2. apply HC. now right.
Qed.

Lemma import_without_numbers_spoils_counter_witness :
  is_nan (nextNodeId Scenario.line72) = true.
Proof.
  apply (import_without_numbers_spoils_counter
           [mkJsonNode "A" (VNum 0%float) (VNum 0%float) (ConnArray ["B"]) VUndef;
            mkJsonNode "B" (VNum 0.001%float) (VNum 0%float)
              (ConnArray ["A"; "C"]) VUndef;
            mkJsonNode "C" (VNum 0.002%float) (VNum 0%float) (ConnArray ["B"]) VUndef]
           [mkRoadEdge "A" "B" (VNum 100%float) (VNum 72%float);
            mkRoadEdge "B" "C" (VNum 100%float) (VNum 72%float)]
           new_RoadNetwork); reflexivity.
Defined.

Lemma import_parsed_error data net name :
  fst (importFromJSON (Encodes data) net) = Throw name -> name = "TypeError".
Proof.
  rewrite import_cleared. unfold bind at 1.
  destruct (j_nodes data) as [ns|]; simpl; [|now intros [= <-]].
  unfold bind at 1.
  pose proof (import_nodes_adjList ns new_RoadNetwork) as Hn.
  destruct (forEach ns import_node new_RoadNetwork) as [[[]|name'] net1];
    [|simpl; intros [= <-]; exact Hn].
  unfold bind at 1.
  destruct (j_edges data) as [es|]; simpl; [|now intros [= <-]].
  apply import_edges_error.
Qed.

(** X14.  An import can fail in two ways only: with the [SyntaxError] of
    [JSON.parse] on a text that is not JSON, and then the network is
    untouched; or, on a text that is JSON, with a [TypeError]. *)
Theorem import_fails_in_two_ways :
  forall (text : JsonText) (net : RoadNetwork) (name : string),
    fst (importFromJSON text net) = Throw name ->
    (name = "SyntaxError" /\ text = Unparsable
     /\ snd (importFromJSON text net) = net)
    \/ (name = "TypeError" /\ exists data, text = Encodes data).
Proof.
  intros text net name H. destruct text as [|data].
  - left. simpl in H. injection H as <-. now repeat split.
  - right. split; [now apply (import_parsed_error data net)|]. now exists data.
Qed.

Lemma import_fails_in_two_ways_witness :
  ("TypeError" = "SyntaxError" /\ Scenario.dangling_snapshot = Unparsable
   /\ snd (importFromJSON Scenario.dangling_snapshot Scenario.line)
      = Scenario.line)
  \/ ("TypeError" = "TypeError"
      /\ exists data, Scenario.dangling_snapshot = Encodes data).
Proof.
  apply (import_fails_in_two_ways Scenario.dangling_snapshot
           Scenario.line "TypeError").
  reflexivity.
Defined.

End ImportLaws.

(* ================================================================= *)
(** ** What [removeNode] leaves behind after an import *)

Module CascadeProps.
Import Js RoadNet MapFacts StoreFacts MoreFacts Invariant Checks ImportLaws.
Local Open Scope string_scope.

(** A node object that brings no connection is stored with an empty
    connection set, and the import does not fail on it. *)
Lemma import_node_bare node net :
  bare_node node = true ->
  (forall k n, In (k, n) (nodes net) -> connections n = []) ->
  fst (import_node node net) = Return tt
  /\ forall k n, In (k, n) (nodes (snd (import_node node net))) ->
                 connections n = [].
Proof.
  unfold bare_node, import_node, bind, modify, new_Set.
  destruct (j_connections node) as [|[|i ids]|]; try discriminate;
    intros _ Hall; (split; [reflexivity|]); simpl; intros k n H;
    apply map_set_In in H as [[_ ->] | H]; eauto.
Qed.

Lemma import_nodes_bare ns :
  forall net,
    forallb bare_node ns = true ->
    (forall k n, In (k, n) (nodes net) -> connections n = []) ->
    forall k n, In (k, n) (nodes (snd (forEach ns import_node net))) ->
                connections n = [].
Proof.
  induction ns as [|node rest IH]; intros net Hb Hall; simpl; [exact Hall|].
  simpl in Hb. apply andb_true_iff in Hb as [Hn Hrest].
  destruct (import_node_bare node net Hn Hall) as [Hret Hall1].
  unfold bind. destruct (import_node node net) as [[[]|name] net1];
    [|discriminate].
  simpl in Hall1. now apply IH.
Qed.

(** The edge loop stores each edge under its key, and a key once written
    stays. *)
Lemma import_edge_edges e net :
  edges (snd (import_edge e net))
  = map_set (edges net) (edgeKey (from e) (to e)) e.
Proof.
  unfold import_edge, bind, modify. rewrite adjList_add_outcome.
  cbn [adjList with_edges].
  destruct (map_has (adjList net) (from e)); [|reflexivity].
  rewrite adjList_add_outcome. cbn [adjList with_adjList].
  now destruct (map_has _ (to e)).
Qed.

Lemma import_edges_keys es :
  forall net k,
    fst (forEach es import_edge net) = Return tt ->
    map_has (edges net) k = true
    \/ existsb (fun e => String.eqb k (edgeKey (from e) (to e))) es = true ->
    map_has (edges (snd (forEach es import_edge net))) k = true.
Proof.
  induction es as [|e rest IH]; intros net k; simpl.
  - intros _ [H | H]; [exact H | discriminate].
  - unfold bind. pose proof (import_edge_edges e net) as He.
    destruct (import_edge e net) as [[[]|name] net1]; [|discriminate].
    simpl in He. intros Hret H. apply IH; [exact Hret|].
    rewrite He, map_has_set.
    destruct H as [H | H]; [left; rewrite H; apply orb_true_r|].
    apply orb_true_iff in H as [H | H]; [left; now rewrite H | now right].
Qed.

(** An edge whose key no other edge of the list has is stored as it is. *)
Lemma import_edges_get es e :
  forall net,
    fst (forEach es import_edge net) = Return tt ->
    In e es ->
    (forall e', In e' es ->
                edgeKey (from e') (to e') = edgeKey (from e) (to e) -> e' = e) ->
    map_get (edges (snd (forEach es import_edge net)))
      (edgeKey (from e) (to e)) = Some e.
Proof.
  induction es as [|e1 rest IH]; intros net; simpl; [intros _ []|].
  unfold bind. pose proof (import_edge_edges e1 net) as He1.
  destruct (import_edge e1 net) as [[[]|name] net1]; [|discriminate].
  simpl in He1. intros Hret Hin Hkeys.
  destruct (existsb
              (fun e' => String.eqb (edgeKey (from e') (to e'))
                           (edgeKey (from e) (to e))) rest) eqn:Ex.
  - apply existsb_exists in Ex as (e' & Hin' & Hk). apply String.eqb_eq in Hk.
    apply IH; [exact Hret | | intros e2 H2; apply Hkeys; now right].
    rewrite <- (Hkeys e' (or_intror Hin') Hk). exact Hin'.
  - assert (Hsame : forall l net',
               fst (forEach l import_edge net') = Return tt ->
               existsb
                 (fun e' => String.eqb (edgeKey (from e') (to e'))
                              (edgeKey (from e) (to e))) l = false ->
               map_get (edges (snd (forEach l import_edge net')))
                 (edgeKey (from e) (to e))
               = map_get (edges net') (edgeKey (from e) (to e))).
    { clear. induction l as [|e2 l IHl]; intros net'; simpl; [reflexivity|].
      unfold bind. pose proof (import_edge_edges e2 net') as He2.
      destruct (import_edge e2 net') as [[[]|name] net2]; [|discriminate].
      simpl in He2. intros Hret Hex.
      apply orb_false_iff in Hex as [Hk Hex].
      rewrite IHl by assumption. rewrite He2.
      apply map_get_set_other. apply String.eqb_neq in Hk. congruence. }
    rewrite (Hsame rest net1 Hret Ex), He1.
    destruct Hin as [-> | Hin]; [apply map_get_set_same|].
    exfalso.
    assert (existsb
              (fun e' => String.eqb (edgeKey (from e') (to e'))
                           (edgeKey (from e) (to e))) rest = true);
      [|congruence].
    apply existsb_exists. exists e. split; [exact Hin | apply String.eqb_refl].
Qed.

(** An endpoint of an edge of an import that returns is a node. *)
Lemma import_endpoints_are_nodes ns es net0 e :
  fst (importFromJSON (Encodes (mkJsonData (Some ns) (Some es))) net0)
    = Return tt ->
  In e es ->
  let net := snd (importFromJSON (Encodes (mkJsonData (Some ns) (Some es))) net0) in
  map_has (nodes net) (from e) = true /\ map_has (nodes net) (to e) = true.
Proof.
  intros Hret Hin net. subst net.
  destruct (import_returns ns es net0 Hret) as (Hn & He & ->).
  destruct (import_nodes_result ns new_RoadNetwork Hn) as (HN & _ & _ & _).
  destruct (import_edges_result es _ He) as (N2 & _ & _ & _).
  pose proof (import_nodes_adjList ns new_RoadNetwork) as HA.
  pose proof (import_edges_throw es
                (snd (forEach ns import_node new_RoadNetwork))) as Hthrow.
  destruct (forEach ns import_node new_RoadNetwork) as [[[]|name] net1];
    [|discriminate].
  cbn [fst snd] in *. rewrite N2, !HN.
  destruct (existsb
              (fun e0 => negb (map_has (adjList net1) (from e0))
                         || negb (map_has (adjList net1) (to e0))) es) eqn:Ex.
  - rewrite (Hthrow eq_refl) in He. discriminate.
  - assert (Hboth : negb (map_has (adjList net1) (from e))
                    || negb (map_has (adjList net1) (to e)) = false).
    { destruct (negb (map_has (adjList net1) (from e))
                || negb (map_has (adjList net1) (to e))) eqn:E; [|reflexivity].
      assert (existsb
                (fun e0 => negb (map_has (adjList net1) (from e0))
                           || negb (map_has (adjList net1) (to e0))) es = true);
        [|congruence].
      apply existsb_exists. now exists e. }
    apply orb_false_iff in Hboth as [Hf Ht].
    apply negb_false_iff in Hf, Ht. now rewrite !HA in Hf, Ht.
Qed.

(** After an import that returns, the adjacency sets are those of the edge
    list. *)
Lemma import_neighbours ns es net0 :
  fst (importFromJSON (Encodes (mkJsonData (Some ns) (Some es))) net0)
    = Return tt ->
  forall a b,
    In b (neighbours
            (snd (importFromJSON (Encodes (mkJsonData (Some ns) (Some es))) net0))
            a)
    <-> existsb (joins a b) es = true.
Proof.
  intros Hret a b.
  destruct (import_returns ns es net0 Hret) as (Hn & He & ->).
  destruct (import_nodes_result ns new_RoadNetwork Hn) as (_ & _ & Hadj & _).
  destruct (import_edges_result es _ He) as (_ & _ & _ & HA).
  assert (Hempty :
            neighbours (snd (forEach ns import_node new_RoadNetwork)) a = []).
  { unfold neighbours. destruct (map_get _ a) as [s|] eqn:E; [|reflexivity].
    apply map_get_In in E. destruct (Hadj _ _ E) as [[] | ->]. reflexivity. }
  rewrite HA, Hempty. simpl. tauto.
Qed.

(** With an empty connection set there is nothing for [removeNode] to
    walk: it deletes the node and its adjacency set and nothing else. *)
Lemma removeNode_without_connections net x :
  connections_of net x = [] ->
  edges (removeNode x net) = edges net
  /\ (forall y, y <> x ->
        map_get (adjList (removeNode x net)) y = map_get (adjList net) y)
  /\ getNode (removeNode x net) x = None.
Proof.
  unfold removeNode, connections_of, getNode.
  destruct (map_get (nodes net) x) as [node|] eqn:E.
  - intros ->. cbn [removeNode_loop edges adjList nodes with_adjList with_nodes].
    repeat split.
    + intros y Hy. now apply map_get_delete_other.
    + apply map_get_delete_same.
  - intros _. repeat split. exact E.
Qed.

(** C9.  [removeNode] walks [node.connections] to remove the edges of the
    node, and [importFromJSON] fills the adjacency sets from the edge list
    but takes the connection sets as the node objects give them.  So in a
    network imported from a snapshot whose node objects bring no
    connections, [removeNode] removes no edge at all.  For every edge of
    the snapshot between two different identifiers, both of which are
    nodes of the network, the key of the edge is in the edge map before
    and after, with the edge itself stored under it when no other edge of
    the list has that key; and removing either endpoint deletes that node
    and leaves it in the adjacency set of the other endpoint. *)
Theorem removeNode_leaves_imported_edges :
  forall (ns : list JsonNode) (es : list RoadEdge) (net0 : RoadNetwork)
         (e : RoadEdge),
    forallb bare_node ns = true ->
    fst (importFromJSON (Encodes (mkJsonData (Some ns) (Some es))) net0)
      = Return tt ->
    In e es ->
    from e <> to e ->
    let net :=
      snd (importFromJSON (Encodes (mkJsonData (Some ns) (Some es))) net0) in
    (forall x, edges (removeNode x net) = edges net)
    /\ map_has (edges net) (edgeKey (from e) (to e)) = true
    /\ ((forall e', In e' es ->
           edgeKey (from e') (to e') = edgeKey (from e) (to e) -> e' = e) ->
        forall x,
          map_get (edges (removeNode x net)) (edgeKey (from e) (to e)) = Some e)
    /\ getNode net (from e) <> None
    /\ getNode net (to e) <> None
    /\ getNode (removeNode (from e) net) (from e) = None
    /\ In (from e) (neighbours (removeNode (from e) net) (to e))
    /\ getNode (removeNode (to e) net) (to e) = None
    /\ In (to e) (neighbours (removeNode (to e) net) (from e)).
Proof.
  intros ns es net0 e Hbare Hret Hin Hne net.
  assert (Hconn : forall x, connections_of net x = []).
  { intros x. unfold net, connections_of.
    destruct (import_returns ns es net0 Hret) as (Hn & He & ->).
    destruct (import_edges_result es _ He) as (-> & _ & _ & _).
    destruct (map_get _ x) as [n|] eqn:E; [|reflexivity].
    apply map_get_In in E.
    apply (import_nodes_bare ns new_RoadNetwork Hbare) in E; [exact E|].
    intros k n' []. }
  assert (Hkey : map_has (edges net) (edgeKey (from e) (to e)) = true).
  { unfold net. destruct (import_returns ns es net0 Hret) as (_ & He & ->).
    apply import_edges_keys; [exact He|]. right.
    apply existsb_exists. exists e. split; [exact Hin | apply String.eqb_refl]. }
  destruct (import_endpoints_are_nodes ns es net0 e Hret Hin) as [Hfrom Hto].
  fold net in Hfrom, Hto.
  assert (Hadj : In (from e) (neighbours net (to e))
                 /\ In (to e) (neighbours net (from e))).
  { unfold net. rewrite !(import_neighbours ns es net0 Hret).
    split; apply existsb_exists; exists e; (split; [exact Hin|]);
      unfold joins; rewrite !String.eqb_refl; simpl; [apply orb_true_r|].
    reflexivity. }
  destruct Hadj as [Hadj1 Hadj2].
  destruct (removeNode_without_connections net (from e) (Hconn (from e)))
    as (_ & Af & Gf).
  destruct (removeNode_without_connections net (to e) (Hconn (to e)))
    as (_ & At & Gt).
  split; [intros x; now apply removeNode_without_connections|].
  split; [exact Hkey|].
  split.
  { intros Hkeys x.
    destruct (removeNode_without_connections net x (Hconn x)) as (-> & _ & _).
    unfold net. destruct (import_returns ns es net0 Hret) as (_ & He & ->).
    now apply import_edges_get. }
  split; [unfold getNode, map_has in *;
          now destruct (map_get (nodes net) (from e))|].
  split; [unfold getNode, map_has in *;
          now destruct (map_get (nodes net) (to e))|].
  split; [exact Gf|].
  split; [unfold neighbours in *; rewrite Af; [exact Hadj1 | congruence]|].
  split; [exact Gt|].
  unfold neighbours in *. now rewrite At.
Qed.

Lemma removeNode_leaves_imported_edges_witness :
  getNode Scenario.bare "n_1" <> None
  /\ getNode (removeNode "n_1" Scenario.bare) "n_1" = None
  /\ map_get (edges (removeNode "n_1" Scenario.bare)) "n_1-n_2"
     = Some (mkRoadEdge "n_1" "n_2" (VNum 100%float) (VNum 72%float))
  /\ In "n_1" (neighbours (removeNode "n_1" Scenario.bare) "n_2").
Proof.
  destruct (removeNode_leaves_imported_edges
              [Scenario.plain_node "n_1" 0%float;
               Scenario.plain_node "n_2" 0.001%float]
              [mkRoadEdge "n_1" "n_2" (VNum 100%float) (VNum 72%float)]
              new_RoadNetwork
              (mkRoadEdge "n_1" "n_2" (VNum 100%float) (VNum 72%float))
              eq_refl eq_refl (or_introl eq_refl))
    as (_ & _ & Hedge & Hnode & _ & Hgone & Hadj & _).
  - discriminate.
  - split; [exact Hnode|]. split; [exact Hgone|]. split; [|exact Hadj].
    apply Hedge. intros e' [<- | []] _. reflexivity.
Defined.

End CascadeProps.

(* ================================================================= *)
(** ** The search, its paths and its queue *)

Module SearchLaws.
Import Js PQ Dijkstra MapFacts SearchFacts MoreFacts Checks.
Local Open Scope string_scope.

Lemma In_map_get {V} (m : Map V) (k : string) (v : V) :
  NoDup (map_keys m) -> In (k, v) m -> map_get m k = Some v.
Proof.
  induction m as [|[k' v'] rest IH]; simpl; [tauto|].
  intros Hnd [Heq | Hin].
  - injection Heq as -> ->. now rewrite String.eqb_refl.
  - inversion Hnd as [|? ? Hnotin Hrest]; subst.
    destruct (String.eqb_spec k' k) as [->|Hne]; [|now apply IH].
    exfalso. apply Hnotin. unfold map_keys. apply in_map_iff.
    now exists (k, v).
Qed.

Lemma fold_set_get {A} (f : A -> string) (v0 : value) (l : list A) :
  forall (d : Map value) (k : string),
    map_get (fold_left (fun d n => map_set d (f n) v0) l d) k
    = if set_has (List.map f l) k then Some v0 else map_get d k.
Proof.
  induction l as [|n rest IH]; intros d k; simpl; [reflexivity|].
  rewrite IH. unfold set_has. simpl.
  destruct (existsb (String.eqb k) (List.map f rest)); [now rewrite orb_true_r|].
  rewrite orb_false_r.
  destruct (String.eqb_spec k (f n)) as [->|Hne].
  - apply map_get_set_same.
  - now apply map_get_set_other.
Qed.

(** The distances with which the loop is entered. *)
Lemma initial_distance_get net startNodeId k :
  map_get (distances (initial net startNodeId)) k
  = if String.eqb k startNodeId then Some (VNum 0%float)
    else if set_has (List.map RoadNet.id (RoadNet.getAllNodes net)) k
         then Some (VNum infinity) else None.
Proof.
  unfold initial. cbn [distances].
  destruct (String.eqb_spec k startNodeId) as [->|Hne].
  - apply map_get_set_same.
  - rewrite map_get_set_other by exact Hne. now rewrite fold_set_get.
Qed.

Lemma initial_distance_NoDup net startNodeId :
  NoDup (map_keys (distances (initial net startNodeId))).
Proof.
  unfold initial. cbn [distances].
  apply map_set_NoDup, fold_set_NoDup. constructor.
Qed.

Lemma keeps_infinity maxTimeSeconds :
  keeps maxTimeSeconds (VNum infinity) = js_le (VNum infinity) maxTimeSeconds.
Proof.
  unfold keeps. now destruct (js_le (VNum infinity) maxTimeSeconds).
Qed.

(** X15.  [search] improves no distance: whatever the network and the
    budget, it returns with an empty predecessor map, distance 0 for the
    origin, [Infinity] for every other node of the network and nothing
    for any other identifier. *)
Theorem search_relaxes_nothing :
  forall (fuel : nat) (net : RoadNet.RoadNetwork) (startNodeId : string)
         (maxTimeSeconds : value),
  exists r,
    search (S fuel) net startNodeId maxTimeSeconds = Some r
    /\ res_previous r = []
    /\ forall k,
         map_get (res_distances r) k
         = if String.eqb k startNodeId then Some (VNum 0%float)
           else if set_has (List.map RoadNet.id (RoadNet.getAllNodes net)) k
                then Some (VNum infinity) else None.
Proof.
  intros fuel net s m. eexists. split; [apply search_one_turn|].
  split; [reflexivity|]. intros k. apply initial_distance_get.
Qed.

(** X16.  [reachableNodes] is all or nothing: an entry is in the list
    exactly when the budget is at least [Infinity] and the entry is a node
    of the network other than the origin, reported at distance
    [Infinity]. *)
Theorem reachable_nodes_are_all_or_none :
  forall (fuel : nat) (net : RoadNet.RoadNetwork) (startNodeId : string)
         (maxTimeSeconds : value),
  exists r,
    search (S fuel) net startNodeId maxTimeSeconds = Some r
    /\ forall x : Reached,
         In x (reachableNodes r) <->
         js_le (VNum infinity) maxTimeSeconds = true
         /\ nodeId x <> startNodeId
         /\ In (nodeId x) (List.map RoadNet.id (RoadNet.getAllNodes net))
         /\ distance x = VNum infinity
         /\ Dijkstra.node x = RoadNet.getNode net (nodeId x).
Proof.
  intros fuel net s m. eexists. split; [apply search_one_turn|].
  intros x. unfold result_of. cbn [reachableNodes final distances].
  rewrite in_map_iff. split.
  - intros ([k v] & <- & Hin). apply filter_In in Hin as [Hin Hk].
    cbn [fst snd nodeId distance Dijkstra.node] in *.
    apply In_map_get in Hin; [|apply initial_distance_NoDup].
    rewrite initial_distance_get in Hin.
    destruct (String.eqb_spec k s) as [->|Hne].
    + injection Hin as <-. now rewrite keeps_zero in Hk.
    + destruct (set_has _ k) eqn:Hs; [|discriminate].
      injection Hin as <-. rewrite keeps_infinity in Hk.
      apply set_has_In in Hs. now repeat split.
  - intros (Hle & Hne & Hin & Hd & Hn). destruct x as [k n v].
    cbn [nodeId distance Dijkstra.node] in *. subst n v.
    exists (k, VNum infinity). split; [reflexivity|].
    apply filter_In. cbn [fst snd]. split; [|now rewrite keeps_infinity].
    apply map_get_In. rewrite initial_distance_get.
    apply String.eqb_neq in Hne. rewrite Hne.
    apply set_has_In in Hin. now rewrite Hin.
Qed.

Lemma last_default (p : list string) (d d' : string) :
  p <> [] -> last p d = last p d'.
Proof.
  induction p as [|x [|y rest] IH]; intros Hne; [contradiction | reflexivity |].
  change (last (y :: rest) d = last (y :: rest) d'). now apply IH.
Qed.

Lemma reconstructPath_loop_shape previous startNodeId fuel :
  forall current path p,
    follows previous (current :: path) ->
    reconstructPath_loop fuel previous startNodeId current path = Some p ->
    (current = startNodeId /\ p = path)
    \/ (p <> [] /\ follows previous p
        /\ last p "" = last (current :: path) "").
Proof.
  induction fuel as [|fuel IH]; intros current path p Hf; simpl;
    destruct (String.eqb_spec current startNodeId) as [->|Hne];
    try (intros [= <-]; now left).
  assert (Hstop : (current :: path <> [])
                  /\ follows previous (current :: path)
                  /\ last (current :: path) "" = last (current :: path) "").
  { repeat split; [discriminate | exact Hf]. }
  destruct (map_get previous current) as [next|] eqn:En;
    [|intros [= <-]; now right].
  destruct (String.eqb next ""); [intros [= <-]; now right|].
  intros Hp. right.
  apply IH in Hp; [|split; [exact En | exact Hf]].
  destruct Hp as [[_ ->] | (Hp1 & Hp2 & Hp3)]; [exact Hstop|].
  repeat split; [exact Hp1 | exact Hp2 |]. rewrite Hp3. reflexivity.
Qed.

(** X17.  A path that [reconstructPath] returns begins with the start
    node and ends with the end node, and after the start node each
    identifier is the recorded predecessor of the next. *)
Theorem reconstructPath_shape :
  forall (fuel : nat) (previous : Map string) (startNodeId endNodeId : string)
         (p : list string),
    reconstructPath fuel previous startNodeId endNodeId = Some p ->
    exists rest,
      p = startNodeId :: rest
      /\ last p startNodeId = endNodeId
      /\ follows previous rest.
Proof.
  intros fuel previous s e p. unfold reconstructPath.
  destruct (reconstructPath_loop fuel previous s e []) as [rest|] eqn:El;
    [|discriminate].
  intros [= <-]. exists rest. split; [reflexivity|].
  apply reconstructPath_loop_shape in El; [|exact I].
  destruct El as [[-> ->] | (Hne & Hf & Hl)]; [now split|].
  split; [|exact Hf].
  destruct rest as [|x rest]; [contradiction|].
  change (last (x :: rest) s = e).
  rewrite (last_default (x :: rest) s "") by discriminate. exact Hl.
Qed.

Lemma reconstructPath_shape_witness :
  exists rest,
    ["s"; "b"; "a"] = "s" :: rest
    /\ last ["s"; "b"; "a"] "s" = "a"
    /\ follows [("a", "b"); ("b", "s")] rest.
Proof.
  apply (reconstructPath_shape 5 [("a", "b"); ("b", "s")] "s" "a" ["s"; "b"; "a"]).
  reflexivity.
Defined.

(** X18.  Since [search] records no predecessor, [reconstructPath] on its
    result gives, for every target other than the origin, the two-node
    list of origin and target, whether or not the network links them. *)
Theorem path_from_search_is_origin_and_target :
  forall (fuel fuel' : nat) (net : RoadNet.RoadNetwork)
         (startNodeId endNodeId : string) (maxTimeSeconds : value),
    endNodeId <> startNodeId ->
    exists r,
      search (S fuel) net startNodeId maxTimeSeconds = Some r
      /\ reconstructPath (S fuel') (res_previous r) startNodeId endNodeId
         = Some [startNodeId; endNodeId].
Proof.
  intros fuel fuel' net s e m Hne. eexists. split; [apply search_one_turn|].
  unfold reconstructPath, result_of. cbn [res_previous final previous].
  simpl. apply String.eqb_neq in Hne. now rewrite Hne.
Qed.

Lemma path_from_search_is_origin_and_target_witness :
  exists r,
    search 1 Scenario.line "A" (VNum 100%float) = Some r
    /\ reconstructPath 1 (res_previous r) "A" "C" = Some ["A"; "C"].
Proof.
  apply (path_from_search_is_origin_and_target 0 0 Scenario.line "A" "C"
           (VNum 100%float)).
  discriminate.
Defined.

Lemma trapped_loop previous startNodeId chain :
  trapped previous startNodeId chain = true ->
  forall fuel current path,
    In current chain ->
    reconstructPath_loop fuel previous startNodeId current path = None.
Proof.
  intros Ht. unfold trapped in Ht. rewrite forallb_forall in Ht.
  induction fuel as [|fuel IH]; intros current path Hin;
    pose proof (Ht _ Hin) as Hc; apply andb_true_iff in Hc as [Hs Hp];
    apply negb_true_iff in Hs; simpl; rewrite Hs; [reflexivity|].
  destruct (map_get previous current) as [next|]; [|discriminate].
  apply andb_true_iff in Hp as [Hn Hc]. apply negb_true_iff in Hn.
  rewrite Hn. apply IH. now apply set_has_In.
Qed.

(** X19.  [reconstructPath] does not return when the predecessors run in
    a circle that misses the start node: if every identifier of a set has
    a predecessor in the set and none is the start node, the walk from any
    of them is still going after any number of turns. *)
Theorem reconstructPath_circles_forever :
  forall (previous : Map string) (startNodeId endNodeId : string)
         (chain : list string),
    trapped previous startNodeId chain = true ->
    In endNodeId chain ->
    forall fuel, reconstructPath fuel previous startNodeId endNodeId = None.
Proof.
  intros previous s e chain Ht Hin fuel. unfold reconstructPath.
  now rewrite (trapped_loop previous s chain Ht fuel e [] Hin).
Qed.

Lemma reconstructPath_circles_forever_witness :
  reconstructPath 1000 circle "s" "a" = None.
Proof.
  apply (reconstructPath_circles_forever circle "s" "a" ["a"; "b"]).
  - reflexivity.
  - now left.
Defined.

End SearchLaws.

Module QueueLaws.
Import Js PQ.
Local Open Scope string_scope.

Lemma insert_sorted_perm x l : Permutation (insert_sorted x l) (x :: l).
Proof.
  induction l as [|y rest IH]; simpl; [reflexivity|].
  destruct (0 <? compare_priority y x)%float; [reflexivity|].
  rewrite IH. apply perm_swap.
Qed.

Lemma sort_from_perm l :
  forall acc,
    Permutation (fold_left (fun acc x => insert_sorted x acc) l acc) (acc ++ l).
Proof.
  induction l as [|x rest IH]; intros acc; simpl.
  - now rewrite app_nil_r.
  - rewrite IH, insert_sorted_perm. apply Permutation_middle.
Qed.

Lemma enqueue_perm q n p : Permutation (enqueue q n p) (mkQItem n p :: q).
Proof.
  unfold enqueue, sort. rewrite sort_from_perm. simpl.
  symmetry. apply Permutation_cons_append.
Qed.

(** X20.  The queue loses and invents nothing: after [enqueue] the queue
    is not empty, and [dequeue] then takes one entry out of the old
    entries and the new one and leaves the others. *)
Theorem enqueue_then_dequeue_keeps_entries :
  forall (q : PriorityQueue) (n : string) (p : value),
    isEmpty (enqueue q n p) = false
    /\ exists it rest,
         dequeue (enqueue q n p) = (Some it, rest)
         /\ Permutation (it :: rest) (mkQItem n p :: q).
Proof.
  intros q n p. pose proof (enqueue_perm q n p) as Hp.
  destruct (enqueue q n p) as [|it rest].
  - apply Permutation_nil in Hp. discriminate.
  - split; [reflexivity|]. now exists it, rest.
Qed.

End QueueLaws.

(* ================================================================= *)
(** ** Test roads and the enhanced search *)

Module RoadLaws.
Import Js Overlay TestRoads MoreFacts Checks.
Local Open Scope string_scope.

Lemma distinct_spec l : distinct l = true <-> NoDup l.
Proof.
  induction l as [|x rest IH]; simpl.
  - split; [constructor | reflexivity].
  - rewrite andb_true_iff, negb_true_iff, IH. split.
    + intros [Hx Hr]. constructor; [|exact Hr]. intros Hin.
      assert (existsb (Nat.eqb x) rest = true); [|congruence].
      apply existsb_exists. exists x. split; [exact Hin | apply Nat.eqb_refl].
    + intros Hnd. inversion Hnd as [|? ? Hx Hr]; subst. split; [|exact Hr].
      destruct (existsb (Nat.eqb x) rest) eqn:E; [|reflexivity].
      apply existsb_exists in E as (y & Hy & Exy).
      apply Nat.eqb_eq in Exy. now subst.
Qed.

Lemma roads_set_new (m : RoadMap) k r :
  ~ In k (List.map fst m) -> roads_set m k r = (m ++ [(k, r)])%list.
Proof.
  induction m as [|[k' r'] rest IH]; simpl; intros Hk; [reflexivity|].
  destruct (Nat.eqb_spec k' k) as [->|Hne]; [tauto|].
  f_equal. apply IH. tauto.
Qed.

Lemma roads_get_absent (m : RoadMap) k :
  ~ In k (List.map fst m) -> roads_get m k = None.
Proof.
  induction m as [|[k' r'] rest IH]; simpl; intros Hk; [reflexivity|].
  destruct (Nat.eqb_spec k' k) as [->|Hne]; [tauto|].
  apply IH. tauto.
Qed.

Lemma roads_get_delete (m : RoadMap) k : roads_get (roads_delete m k) k = None.
Proof.
  apply roads_get_absent. unfold roads_delete. rewrite in_map_iff.
  intros ([k' r] & <- & Hin). apply filter_In in Hin as [_ Hk].
  simpl in Hk. now rewrite Nat.eqb_refl in Hk.
Qed.

(** What [well_kept] says of each record. *)
Lemma well_kept_spec m :
  well_kept m = true <->
  (forall k r, In (k, r) (testRoads m) ->
               k = id r /\ status r = "active" /\ k < nextId m)
  /\ NoDup (List.map fst (testRoads m)).
Proof.
  unfold well_kept. rewrite andb_true_iff, forallb_forall, distinct_spec.
  split; intros [Hall Hnd]; (split; [|exact Hnd]).
  - intros k r Hin. specialize (Hall _ Hin). simpl in Hall.
    apply andb_true_iff in Hall as [Hall Hlt].
    apply andb_true_iff in Hall as [Hid Hst].
    apply Nat.eqb_eq in Hid. apply String.eqb_eq in Hst.
    apply Nat.ltb_lt in Hlt. now repeat split.
  - intros [k r] Hin. destruct (Hall _ _ Hin) as (Hid & Hst & Hlt). simpl.
    rewrite <- Hid, Nat.eqb_refl, Hst. simpl. now apply Nat.ltb_lt.
Qed.

Lemma well_kept_fresh m :
  well_kept m = true -> ~ In (nextId m) (List.map fst (testRoads m)).
Proof.
  intros Hw. apply well_kept_spec in Hw as [Hall _].
  rewrite in_map_iff. intros ([k r] & Hk & Hin). simpl in Hk. subst k.
  destruct (Hall _ _ Hin) as (_ & _ & Hlt). lia.
Qed.

Lemma well_kept_all_active m :
  well_kept m = true -> getActiveRoads m = List.map snd (testRoads m).
Proof.
  intros Hw. apply well_kept_spec in Hw as [Hall _].
  unfold getActiveRoads. apply filter_all. intros r Hin.
  apply in_map_iff in Hin as ([k r'] & <- & Hin). cbn [snd].
  destruct (Hall _ _ Hin) as (_ & -> & _). reflexivity.
Qed.

Section Manager.

Variable calculateDistance : Point -> Point -> float.

Lemma addTestRoad_appends s e m :
  well_kept m = true ->
  (N.of_nat (nextId m) <? MAX_EXACT)%N = true ->
  snd (addTestRoad calculateDistance s e m)
  = mkTestRoadManager
      (testRoads m
         ++ [(nextId m, new_TestRoad calculateDistance (nextId m) s e)])%list
      (S (nextId m)).
Proof.
  intros Hw Hlt. unfold addTestRoad, increment. cbn [snd]. rewrite Hlt.
  now rewrite roads_set_new by now apply well_kept_fresh.
Qed.

Lemma addTestRoad_well_kept s e m :
  well_kept m = true ->
  (N.of_nat (nextId m) <? MAX_EXACT)%N = true ->
  well_kept (snd (addTestRoad calculateDistance s e m)) = true.
Proof.
  intros Hw Hlt. rewrite addTestRoad_appends by assumption.
  pose proof (well_kept_fresh m Hw) as Hfresh.
  apply well_kept_spec in Hw as [Hall Hnd]. apply well_kept_spec.
  cbn [testRoads nextId]. split.
  - intros k r Hin. apply in_app_iff in Hin as [Hin | [[= <- <-] | []]].
    + destruct (Hall _ _ Hin) as (? & ? & ?). repeat split; auto.
    + repeat split. lia.
  - rewrite map_app. simpl.
    apply NoDup_rev in Hnd. rewrite <- (rev_involutive (_ ++ _)).
    apply NoDup_rev. rewrite rev_unit. constructor; [|exact Hnd].
    now rewrite <- in_rev.
Qed.

(** X21.  In a state where the counter holds a whole number from 0 to
    below 2^53 and the records are in order (each road is stored under its
    identifier, a whole number below the counter, and is active; no
    identifier is stored twice), [addTestRoad] gives the road the value of
    the counter as its identifier, which no stored road has; the road
    comes last among the active roads; the counter goes up by one and the
    records are in order again.  A counter that is no such number, as
    [importFromJSON] of the manager can leave it, is outside this
    statement. *)
Theorem addTestRoad_numbers_a_new_road :
  forall (startPoint endPoint : Point) (m : TestRoadManager),
    well_kept m = true ->
    (N.of_nat (nextId m) <? MAX_EXACT)%N = true ->
    let road := fst (addTestRoad calculateDistance startPoint endPoint m) in
    let m' := snd (addTestRoad calculateDistance startPoint endPoint m) in
    id road = nextId m
    /\ roads_get (testRoads m) (id road) = None
    /\ getActiveRoads m' = (getActiveRoads m ++ [road])%list
    /\ nextId m' = S (nextId m)
    /\ well_kept m' = true.
Proof.
  intros s e m Hw Hlt road m'.
  pose proof (addTestRoad_well_kept s e m Hw Hlt) as Hw'. fold m' in Hw'.
  assert (Hm' : m' = mkTestRoadManager
                       (testRoads m ++ [(nextId m, road)])%list (S (nextId m))).
  { apply addTestRoad_appends; assumption. }
  split; [reflexivity|].
  split; [apply roads_get_absent; now apply well_kept_fresh|].
  split; [|split; [now rewrite Hm' | exact Hw']].
  rewrite (well_kept_all_active m' Hw'), (well_kept_all_active m Hw), Hm'.
  cbn [testRoads]. now rewrite map_app.
Qed.

(** X22.  In a state where the counter holds a whole number from 0 to
    below 2^53 and the records are in order, removing the road that
    [addTestRoad] has just added gives back the records as they were, but
    not the counter, which has gone up by one: the next road gets another
    identifier. *)
Theorem addTestRoad_then_removeTestRoad :
  forall (startPoint endPoint : Point) (m : TestRoadManager),
    well_kept m = true ->
    (N.of_nat (nextId m) <? MAX_EXACT)%N = true ->
    removeTestRoad (nextId m)
      (snd (addTestRoad calculateDistance startPoint endPoint m))
    = mkTestRoadManager (testRoads m) (S (nextId m)).
Proof.
  intros s e m Hw Hlt. rewrite addTestRoad_appends by assumption.
  unfold removeTestRoad, roads_delete. cbn [testRoads nextId].
  rewrite filter_app. simpl. rewrite Nat.eqb_refl. simpl.
  rewrite app_nil_r. f_equal. apply filter_all.
  intros [k r] Hin. simpl. apply negb_true_iff, Nat.eqb_neq. intros ->.
  apply (well_kept_fresh m Hw). apply in_map_iff. now exists (nextId m, r).
Qed.

(** X23.  [clearAll] starts the numbering again, so an identifier can be
    given a second time: when the road numbered 1 is still stored, the
    road added after [clearAll] gets the identifier of that road, and is
    then the only active one. *)
Theorem clearAll_gives_identifiers_again :
  forall (startPoint endPoint : Point) (m : TestRoadManager) (old : TestRoad),
    well_kept m = true ->
    roads_get (testRoads m) 1 = Some old ->
    let road := fst (addTestRoad calculateDistance startPoint endPoint
                       (clearAll m)) in
    let m' := snd (addTestRoad calculateDistance startPoint endPoint
                     (clearAll m)) in
    id road = id old
    /\ getActiveRoads m' = [road]
    /\ well_kept m' = true.
Proof.
  intros s e m old Hw Hget road m'.
  split; [|split; reflexivity].
  apply well_kept_spec in Hw as [Hall _].
  assert (Hin : In (1, old) (testRoads m)).
  { clear Hall. induction (testRoads m) as [|[k r] rest IH]; simpl in *;
      [discriminate|].
    destruct (Nat.eqb_spec k 1) as [->|Hne]; [left; congruence | right; auto]. }
  destruct (Hall _ _ Hin) as (<- & _ & _). reflexivity.
Qed.

End Manager.

Lemma clearAll_gives_identifiers_again_witness :
  id (fst (addTestRoad flat_distance (mkPoint 9 0%float 0%float)
             (mkPoint 10 1%float 1%float) (clearAll two_roads)))
  = id (new_TestRoad flat_distance 1 (mkPoint 5 0.5%float 0.5%float)
          (mkPoint 6 0.5%float 0.75%float))
  /\ getActiveRoads
       (snd (addTestRoad flat_distance (mkPoint 9 0%float 0%float)
               (mkPoint 10 1%float 1%float) (clearAll two_roads)))
     = [fst (addTestRoad flat_distance (mkPoint 9 0%float 0%float)
               (mkPoint 10 1%float 1%float) (clearAll two_roads))]
  /\ well_kept
       (snd (addTestRoad flat_distance (mkPoint 9 0%float 0%float)
               (mkPoint 10 1%float 1%float) (clearAll two_roads))) = true.
Proof.
  apply (clearAll_gives_identifiers_again flat_distance
           (mkPoint 9 0%float 0%float) (mkPoint 10 1%float 1%float) two_roads
           (new_TestRoad flat_distance 1 (mkPoint 5 0.5%float 0.5%float)
              (mkPoint 6 0.5%float 0.75%float)));
    reflexivity.
Defined.

Lemma addTestRoad_numbers_a_new_road_witness :
  let road := fst (addTestRoad flat_distance (mkPoint 5 0.5%float 0.5%float)
                     (mkPoint 6 0.5%float 0.75%float) new_TestRoadManager) in
  let m' := snd (addTestRoad flat_distance (mkPoint 5 0.5%float 0.5%float)
                   (mkPoint 6 0.5%float 0.75%float) new_TestRoadManager) in
  id road = 1
  /\ roads_get [] (id road) = None
  /\ getActiveRoads m' = [road]
  /\ nextId m' = 2
  /\ well_kept m' = true.
Proof.
  apply (addTestRoad_numbers_a_new_road flat_distance
           (mkPoint 5 0.5%float 0.5%float) (mkPoint 6 0.5%float 0.75%float)
           new_TestRoadManager); reflexivity.
Defined.

Lemma addTestRoad_then_removeTestRoad_witness :
  removeTestRoad 3
    (snd (addTestRoad flat_distance (mkPoint 9 0%float 0%float)
            (mkPoint 10 1%float 1%float) two_roads))
  = mkTestRoadManager (testRoads two_roads) 4.
Proof.
  apply (addTestRoad_then_removeTestRoad flat_distance
           (mkPoint 9 0%float 0%float) (mkPoint 10 1%float 1%float) two_roads);
    reflexivity.
Defined.

(** X24.  [removeTestRoad] deletes for good: the identifier is no longer
    stored, the active roads are the former ones without the road of that
    identifier, the counter stays, and the records are in order again. *)
Theorem removeTestRoad_deletes_for_good :
  forall (x : nat) (m : TestRoadManager),
    well_kept m = true ->
    let m' := removeTestRoad x m in
    roads_get (testRoads m') x = None
    /\ getActiveRoads m'
       = filter (fun road => negb (Nat.eqb (id road) x)) (getActiveRoads m)
    /\ nextId m' = nextId m
    /\ well_kept m' = true.
Proof.
  intros x m Hw m'.
  assert (Hw' : well_kept m' = true).
  { apply well_kept_spec in Hw as [Hall Hnd]. apply well_kept_spec.
    unfold m', removeTestRoad, roads_delete. cbn [testRoads nextId]. split.
    - intros k r Hin. apply filter_In in Hin as [Hin _]. now apply Hall.
    - clear Hall. induction (testRoads m) as [|[k r] rest IH]; simpl;
        [constructor|].
      inversion Hnd as [|? ? Hk Hrest]; subst.
      destruct (negb (Nat.eqb k x)); simpl; [|now apply IH].
      constructor; [|now apply IH].
      rewrite in_map_iff. intros ([k' r'] & Hk' & Hin). simpl in Hk'. subst k'.
      apply filter_In in Hin as [Hin _]. apply Hk. apply in_map_iff.
      now exists (k, r'). }
  split; [apply roads_get_delete|]. split; [|split; [reflexivity | exact Hw']].
  rewrite (well_kept_all_active m' Hw'), (well_kept_all_active m Hw).
  apply well_kept_spec in Hw as [Hall _].
  unfold m', removeTestRoad, roads_delete. cbn [testRoads].
  induction (testRoads m) as [|[k r] rest IH]; simpl; [reflexivity|].
  destruct (Hall k r (or_introl eq_refl)) as (<- & _ & _).
  rewrite <- IH by (intros k' r' Hin; apply Hall; now right).
  now destruct (negb (Nat.eqb k x)).
Qed.

Lemma removeTestRoad_deletes_for_good_witness :
  let m' := removeTestRoad 1 two_roads in
  roads_get (testRoads m') 1 = None
  /\ getActiveRoads m'
     = filter (fun road => negb (Nat.eqb (id road) 1)) (getActiveRoads two_roads)
  /\ nextId m' = nextId two_roads
  /\ well_kept m' = true.
Proof.
  apply (removeTestRoad_deletes_for_good 1 two_roads). reflexivity.
Defined.

Section Searcher.

Variable Math_cos : float -> float.
Variable isPointInPolygon : Point -> list Point -> bool.
Variable createPolygonFromPoints : PointSet -> list Point.

Lemma calculatePolygonArea_outcome points :
  match calculatePolygonArea Math_cos points with
  | Return _ => points <> []
  | Throw name => name = "TypeError" /\ points = []
  end.
Proof. destruct points; simpl; [now split | discriminate]. Qed.

(** The outcomes of [enhanceWithTestRoads]. *)
Lemma enhance_result originalResult testRoads maxTimeMinutes :
  let base := new_PointSet (boundaryPoints originalResult) in
  match enhanceWithTestRoads Math_cos isPointInPolygon createPolygonFromPoints
          originalResult testRoads maxTimeMinutes with
  | Return r =>
      center originalResult <> None
      /\ existsb (reaches_push isPointInPolygon originalResult maxTimeMinutes)
           testRoads = false
      /\ e_boundaryPoints r = base
      /\ e_polygon r = createPolygonFromPoints base
      /\ e_polygon r <> []
  | Throw name =>
      name = "TypeError"
      /\ (center originalResult = None
          \/ existsb (reaches_push isPointInPolygon originalResult maxTimeMinutes)
               testRoads = true
          \/ createPolygonFromPoints base = [])
  end.
Proof.
  intros base. unfold enhanceWithTestRoads. fold base.
  destruct (center originalResult) as [c|]; [|split; [reflexivity | now left]].
  rewrite OverlayProps.extend_all_outcome.
  destruct (existsb _ testRoads); [split; [reflexivity | right; now left]|].
  pose proof (calculatePolygonArea_outcome (createPolygonFromPoints base)) as Ha.
  destruct (calculatePolygonArea Math_cos (createPolygonFromPoints base))
    as [a|name]; simpl.
  - repeat split; [discriminate | exact Ha].
  - destruct Ha as [-> Ha]. split; [reflexivity|]. right. now right.
Qed.

(** X25.  [enhanceWithTestRoads] returns only when the original result
    has a centre, no road reaches a [push] and the polygon made of the
    points is not empty; the boundary it returns is then the original one
    without repetitions, and the polygon is made of it.  In every other
    case it throws a [TypeError]. *)
Theorem enhance_outcomes :
  forall (originalResult : OriginalResult) (testRoads : list TestRoad)
         (maxTimeMinutes : value),
    let base := new_PointSet (boundaryPoints originalResult) in
    match enhanceWithTestRoads Math_cos isPointInPolygon createPolygonFromPoints
            originalResult testRoads maxTimeMinutes with
    | Return r =>
        center originalResult <> None
        /\ existsb (reaches_push isPointInPolygon originalResult maxTimeMinutes)
             testRoads = false
        /\ e_boundaryPoints r = base
        /\ e_polygon r = createPolygonFromPoints base
        /\ e_polygon r <> []
    | Throw name =>
        name = "TypeError"
        /\ (center originalResult = None
            \/ existsb (reaches_push isPointInPolygon originalResult maxTimeMinutes)
                 testRoads = true
            \/ createPolygonFromPoints base = [])
    end.
Proof. exact enhance_result. Qed.

(** X26.  [AccessibilitySearcher.search] hands the original result and
    the active roads through; [enhanced] is [null] exactly when there is
    no active road, and an enhanced result has the boundary of the
    original one without repetitions.  It can only fail with a
    [TypeError], and only when there is an active road. *)
Theorem search_outcomes :
  forall (manager : TestRoadManager) (originalResult : OriginalResult)
         (timeMinutes : value),
    match search Math_cos isPointInPolygon createPolygonFromPoints
            manager originalResult timeMinutes with
    | Return out =>
        out_original out = originalResult
        /\ out_testRoads out = getActiveRoads manager
        /\ (out_enhanced out = None <-> getActiveRoads manager = [])
        /\ forall r, out_enhanced out = Some r ->
                     e_boundaryPoints r
                     = new_PointSet (boundaryPoints originalResult)
    | Throw name => name = "TypeError" /\ getActiveRoads manager <> []
    end.
Proof.
  intros manager orig t. unfold search.
  pose proof (enhance_result orig (getActiveRoads manager) t) as He.
  destruct (getActiveRoads manager) as [|road rest] eqn:Ea; simpl.
  - repeat split; discriminate.
  - simpl in He.
    destruct (enhanceWithTestRoads _ _ _ orig (road :: rest) t) as [r|name].
    + simpl. repeat split; try discriminate.
      intros r' [= <-]. apply He.
    + split; [apply He | discriminate].
Qed.

(** X27.  [enhanceWithTestRoads] reads [originalResult.center] before it
    looks at a road.  So when the original result has no [center],
    [search] throws a [TypeError] as soon as there is an active road,
    whatever the roads and the helpers are, and answers with
    [enhanced: null] when there is none. *)
Theorem search_fails_with_any_active_road :
  forall (manager : TestRoadManager) (originalResult : OriginalResult)
         (timeMinutes : value),
    center originalResult = None ->
    search Math_cos isPointInPolygon createPolygonFromPoints manager
      originalResult timeMinutes
    = match getActiveRoads manager with
      | [] => Return (mkSearchOutput originalResult None [])
      | _ :: _ => Throw "TypeError"
      end.
Proof.
  intros manager orig t Hc. unfold search.
  destruct (getActiveRoads manager) as [|road rest]; [reflexivity|].
  cbn [List.length Nat.ltb Nat.leb]. unfold enhanceWithTestRoads.
  now rewrite Hc.
Qed.

End Searcher.

Lemma search_fails_with_any_active_road_witness :
  search (fun _ => 1%float) Scenario.in_unit_square (fun s => s) two_roads
    original_without_center (VNum 10%float)
  = Throw "TypeError".
Proof.
  exact (search_fails_with_any_active_road (fun _ => 1%float)
           Scenario.in_unit_square (fun s => s) two_roads
           original_without_center (VNum 10%float) eq_refl).
Defined.

End RoadLaws.

(* ================================================================= *)
(** ** The page functions *)

Module PageLaws.
Import Js Overlay TestRoads MoreFacts Checks RoadLaws.
Local Open Scope string_scope.

Lemma nth_error_splice_one {A} (l : list A) :
  forall index i,
    nth_error (Page.splice_one index l) i
    = nth_error l (if Nat.ltb i index then i else S i).
Proof.
  unfold Page.splice_one.
  induction l as [|a rest IH]; intros index i.
  - rewrite firstn_nil, skipn_nil. simpl.
    destruct (Nat.ltb i index); now destruct i.
  - destruct index as [|index]; [reflexivity|].
    destruct i as [|i]; [reflexivity|]. simpl firstn. simpl skipn.
    change (nth_error (firstn index rest ++ skipn (S index) rest) i
            = nth_error (a :: rest) (if Nat.ltb (S i) (S index) then S i else S (S i))).
    rewrite IH. change (Nat.ltb (S i) (S index)) with (Nat.ltb i index).
    now destruct (Nat.ltb i index).
Qed.

Lemma roads_get_last (m : RoadMap) k r :
  ~ In k (List.map fst m) -> roads_get (m ++ [(k, r)])%list k = Some r.
Proof.
  induction m as [|[k' r'] rest IH]; simpl; intros Hk.
  - now rewrite Nat.eqb_refl.
  - destruct (Nat.eqb_spec k' k) as [->|Hne]; [tauto|]. apply IH. tauto.
Qed.

(** The lines after [removeTestRoad] of the page, for an identifier that
    is not 0. *)
Lemma lines_after_removeTestRoad index st i :
  nth_error (Page.testRoadLines (Page.removeTestRoad (S index) st)) i
  = nth_error (Page.testRoadLines st) (if Nat.ltb i index then i else S i).
Proof.
  unfold Page.removeTestRoad. cbn [Page.testRoadLines].
  destruct (nth_error (Page.testRoadLines st) index) eqn:E.
  - apply nth_error_splice_one.
  - destruct (Nat.ltb_spec i index) as [Hlt|Hge]; [reflexivity|].
    apply nth_error_None in E.
    transitivity (@None Page.Polyline); [|symmetry];
      apply nth_error_None; lia.
Qed.

(** X28.  The page takes the line of a road from the place [id - 1] of
    [testRoadLines].  After one removal the places have moved: when road
    [x] was removed before road [y], with [x] below [y], the second
    removal takes the line at the place [y] of the original array and not
    the one at [y - 1], which stays, while both roads are gone from the
    manager. *)
Theorem removeTestRoad_takes_the_wrong_line :
  forall (st : Page.State) (x y : nat),
    1 <= x -> x < y ->
    let st' := Page.removeTestRoad y (Page.removeTestRoad x st) in
    roads_get (testRoads (Page.testRoadManager st')) x = None
    /\ roads_get (testRoads (Page.testRoadManager st')) y = None
    /\ nth_error (Page.testRoadLines st') (y - 2)
       = nth_error (Page.testRoadLines st) (y - 1)
    /\ forall i,
         nth_error (Page.testRoadLines st') i
         = nth_error (Page.testRoadLines st)
             (if Nat.ltb i (x - 1) then i
              else if Nat.ltb i (y - 1) then i + 1 else i + 2).
Proof.
  intros st x y Hx Hxy st'.
  destruct x as [|a]; [lia|]. destruct y as [|b]; [lia|].
  assert (Hlines : forall i,
             nth_error (Page.testRoadLines st') i
             = nth_error (Page.testRoadLines st)
                 (if Nat.ltb i a then i else if Nat.ltb i b then i + 1 else i + 2)).
  { intros i. unfold st'. rewrite !lines_after_removeTestRoad.
    f_equal.
    destruct (Nat.ltb_spec i b), (Nat.ltb_spec i a);
      repeat match goal with
             | |- context [Nat.ltb ?u ?v] => destruct (Nat.ltb_spec u v)
             end; lia. }
  replace (S a - 1) with a by lia. replace (S b - 1) with b by lia.
  split; [|split; [|split; [|exact Hlines]]].
  - unfold st', Page.removeTestRoad. cbn [Page.testRoadManager].
    unfold removeTestRoad. cbn [testRoads].
    apply roads_get_absent. unfold roads_delete. rewrite in_map_iff.
    intros ([k r] & Hk & Hin). simpl in Hk. subst k.
    apply filter_In in Hin as [Hin _]. apply filter_In in Hin as [_ Hin].
    simpl in Hin. now rewrite Nat.eqb_refl in Hin.
  - unfold st', Page.removeTestRoad. cbn [Page.testRoadManager].
    apply roads_get_delete.
  - rewrite Hlines.
    destruct (Nat.ltb_spec (S b - 2) a); [lia|].
    destruct (Nat.ltb_spec (S b - 2) b); [|lia].
    f_equal. lia.
Qed.

Lemma removeTestRoad_takes_the_wrong_line_witness :
  nth_error (Page.testRoadLines
               (Page.removeTestRoad 2 (Page.removeTestRoad 1 three_lines))) 0
  = nth_error (Page.testRoadLines three_lines) 1.
Proof.
  exact (proj1 (proj2 (proj2
           (removeTestRoad_takes_the_wrong_line three_lines 1 2
              (le_n 1) (le_n 2))))).
Defined.

Section WithDistance.

Variable calculateDistance : Point -> Point -> float.

(** X29.  As long as no road was removed, so that the array has one line
    for each identifier given, [addTestRoad] of the page puts the line of
    the new road at the place [id - 1], where [removeTestRoad] looks for
    it, and forgets the two points that were picked. *)
Theorem addTestRoad_puts_the_line_in_place :
  forall (st : Page.State) (s e : Point),
    Page.tempRoadStart st = Some s ->
    Page.tempRoadEnd st = Some e ->
    well_kept (Page.testRoadManager st) = true ->
    (N.of_nat (nextId (Page.testRoadManager st)) <? MAX_EXACT)%N = true ->
    S (List.length (Page.testRoadLines st)) = nextId (Page.testRoadManager st) ->
    let road := fst (addTestRoad calculateDistance s e (Page.testRoadManager st)) in
    let st' := Page.addTestRoad calculateDistance st in
    roads_get (testRoads (Page.testRoadManager st')) (id road) = Some road
    /\ nth_error (Page.testRoadLines st') (id road - 1)
       = Some (Page.line_between (startPoint road) (endPoint road))
    /\ S (List.length (Page.testRoadLines st'))
       = nextId (Page.testRoadManager st')
    /\ well_kept (Page.testRoadManager st') = true
    /\ Page.tempRoadStart st' = None /\ Page.tempRoadEnd st' = None.
Proof.
  intros st s e Hs He Hw Hlt Hlen road st'.
  unfold st', Page.addTestRoad. rewrite Hs, He.
  cbn [Page.resetTempRoad Page.testRoadManager Page.testRoadLines
       Page.tempRoadStart Page.tempRoadEnd].
  pose proof (addTestRoad_well_kept calculateDistance s e _ Hw Hlt) as Hw'.
  rewrite (addTestRoad_appends calculateDistance s e _ Hw Hlt) in *.
  cbn [testRoads nextId]. repeat split; try exact Hw'.
  - apply roads_get_last. now apply well_kept_fresh.
  - change (id road) with (nextId (Page.testRoadManager st)).
    rewrite <- Hlen. simpl. rewrite Nat.sub_0_r.
    rewrite nth_error_app2 by lia. now rewrite Nat.sub_diag.
  - rewrite length_app. simpl. lia.
Qed.

(** X30.  Two clicks pick a road: starting with no point picked, the
    first click sets the start and the second the end, a third click
    changes nothing, and [addTestRoad] of the page then has the manager
    add the road between the two points picked; with fewer than two
    points picked it does nothing. *)
Theorem two_clicks_pick_the_road :
  forall (st : Page.State) (p q r : Point),
    Page.tempRoadStart st = None ->
    Page.tempRoadEnd st = None ->
    let one := Page.handleAddRoadClick p st in
    let two := Page.handleAddRoadClick q one in
    Page.tempRoadStart two = Some p
    /\ Page.tempRoadEnd two = Some q
    /\ Page.handleAddRoadClick r two = two
    /\ Page.testRoadManager (Page.addTestRoad calculateDistance two)
       = snd (addTestRoad calculateDistance p q (Page.testRoadManager st))
    /\ Page.addTestRoad calculateDistance one = one
    /\ Page.addTestRoad calculateDistance st = st.
Proof.
  intros [m s e lines] p q r Hs He one two. simpl in Hs, He. subst s e.
  repeat split.
Qed.

End WithDistance.

Lemma two_clicks_pick_the_road_witness :
  Page.tempRoadStart
    (Page.handleAddRoadClick (mkPoint 18 3%float 3%float)
       (Page.handleAddRoadClick (mkPoint 17 1%float 1%float) three_lines))
  = Some (mkPoint 17 1%float 1%float).
Proof.
  exact (proj1
           (two_clicks_pick_the_road flat_distance three_lines
              (mkPoint 17 1%float 1%float) (mkPoint 18 3%float 3%float)
              (mkPoint 19 0%float 0%float) eq_refl eq_refl)).
Defined.

Lemma addTestRoad_puts_the_line_in_place_witness :
  nth_error
    (Page.testRoadLines
       (Page.addTestRoad flat_distance
          (Page.handleAddRoadClick (mkPoint 18 3%float 3%float)
             (Page.handleAddRoadClick (mkPoint 17 1%float 1%float) three_lines))))
    (4 - 1)
  = Some (Page.line_between (mkPoint 17 1%float 1%float)
            (mkPoint 18 3%float 3%float)).
Proof.
  exact (proj1 (proj2
           (addTestRoad_puts_the_line_in_place flat_distance
              (Page.handleAddRoadClick (mkPoint 18 3%float 3%float)
                 (Page.handleAddRoadClick (mkPoint 17 1%float 1%float)
                    three_lines))
              (mkPoint 17 1%float 1%float) (mkPoint 18 3%float 3%float)
              eq_refl eq_refl eq_refl eq_refl eq_refl))).
Defined.

End PageLaws.
